(** * ffmpeg-ts: the media graph, its validator and its two compilers

    A shallow embedding of the graph model ([ast/types.ts]), graph
    introspection ([ast/graph.ts]), the validator ([ast/validation.ts]),
    the filter serializers ([compiler/filter-serializers.ts]) and the simple
    and complex compilers ([compiler/simple-compiler.ts],
    [compiler/complex-compiler.ts], [compiler/index.ts]), followed by the
    properties established about them. *)

From Stdlib Require Import ZArith QArith Qcanon String Ascii DecimalString Lia.
From Stdlib Require DecimalPos DecimalZ.
From stdpp Require Import base option list strings gmap.

Local Open Scope string_scope.
Local Open Scope Z_scope.
Local Open Scope list_scope.

(** ** The JavaScript values the code manipulates *)

Module Js.

(** A [number] is an IEEE double.  A finite double is denoted by its exact
    rational value; comparisons on doubles are then comparisons on
    rationals, and [NaN] compares false with everything. *)
Inductive number : Type :=
| Finite (q : Qc)
| NaN
| Infinity
| NegInfinity.

Definition ofZ (z : Z) : number := Finite (Qc_of_Z z).

Definition compare (a b : number) : option comparison :=
  match a, b with
  | NaN, _ | _, NaN => None
  | Finite x, Finite y => Some (x ?= y)%Qc
  | Infinity, Infinity | NegInfinity, NegInfinity => Some Eq
  | NegInfinity, _ | _, Infinity => Some Lt
  | Infinity, _ | _, NegInfinity => Some Gt
  end.

(** [a < b], [a <= b], [a > b], [a >= b], [a === b] and [a !== b]. *)
Definition lt (a b : number) : bool :=
  match compare a b with Some Lt => true | _ => false end.
Definition le (a b : number) : bool :=
  match compare a b with Some Lt | Some Eq => true | _ => false end.
Definition gt (a b : number) : bool :=
  match compare a b with Some Gt => true | _ => false end.
Definition ge (a b : number) : bool :=
  match compare a b with Some Gt | Some Eq => true | _ => false end.
Definition seq (a b : number) : bool :=
  match compare a b with Some Eq => true | _ => false end.
Definition sne (a b : number) : bool := negb (seq a b).

(** Truthiness of the values tested by [if (x)]. *)
Definition truthyNumber (a : number) : bool :=
  match a with
  | NaN => false
  | Finite q => negb (bool_decide (q = 0%Qc))
  | _ => true
  end.
Definition truthyString (s : string) : bool := negb (String.eqb s "").
Definition truthyBool (o : option bool) : bool := default false o.

(** Decimal digits of an integer, as [Number.prototype.toString] prints an
    integral double. *)
Definition intToString (z : Z) : string := NilZero.string_of_int (Z.to_int z).
Definition natToString (n : nat) : string := intToString (Z.of_nat n).

Definition isInteger (q : Qc) : bool := (Qden q =? 1)%positive.

Section ToString.
(** The digits the runtime prints for a finite double that is not an
    integer of magnitude below 2^53: the shortest decimal that reads back
    as the same double, which for a large integer such as 2^60 ends in
    zeros that are not its own digits.  That algorithm belongs to the
    runtime, not to the library, and the development is parametric in it.
    Below 2^53 every integer is a double and differs from the next double
    by at most 1, so the shortest such decimal is the integer's own
    digits. *)
Variable fractionToString : Qc -> string.

Definition toString (a : number) : string :=
  match a with
  | NaN => "NaN"
  | Infinity => "Infinity"
  | NegInfinity => "-Infinity"
  | Finite q =>
      if isInteger q && (Z.abs (Qnum q) <? 2 ^ 53)%Z
      then intToString (Qnum q)
      else fractionToString q
  end.
End ToString.

(** [parts.join(sep)]. *)
Definition join (sep : string) (parts : list string) : string :=
  String.concat sep parts.

(** [s.replace(/c/g, r)] for a pattern that is one literal character and a
    replacement without [$]. *)
Fixpoint replaceAll (c : ascii) (r : string) (s : string) : string :=
  match s with
  | EmptyString => EmptyString
  | String a s' =>
      if Ascii.eqb a c then r +:+ replaceAll c r s'
      else String a (replaceAll c r s')
  end.

(** [s.includes(needle)]. *)
Fixpoint includes (needle s : string) : bool :=
  String.prefix needle s ||
  match s with
  | EmptyString => false
  | String _ s' => includes needle s'
  end.

(** A JavaScript [Set] of strings: membership plus iteration in insertion
    order, each element once. *)
Module StringSet.
Definition t := list string.
Definition empty : t := [].
Definition has (s : t) (x : string) : bool := existsb (String.eqb x) s.
Definition add (s : t) (x : string) : t := if has s x then s else s ++ [x].
Definition ofList (l : list string) : t := fold_left add l empty.
End StringSet.

End Js.

Import Js (number).

(** ** Literal-union types of [utils/types.ts] and of the filter interfaces

    Each union of string literals is an enumeration; its [_str] function
    gives the string the value is at run time. *)

Inductive VideoCodec :=
| VC_h264 | VC_h265 | VC_hevc | VC_vp9 | VC_vp8 | VC_av1 | VC_copy | VC_mpeg4 | VC_prores.

Definition VideoCodec_str (c : VideoCodec) : string :=
  match c with
  | VC_h264 => "h264" | VC_h265 => "h265" | VC_hevc => "hevc" | VC_vp9 => "vp9"
  | VC_vp8 => "vp8" | VC_av1 => "av1" | VC_copy => "copy" | VC_mpeg4 => "mpeg4"
  | VC_prores => "prores"
  end.

Inductive AudioCodec :=
| AC_aac | AC_mp3 | AC_opus | AC_vorbis | AC_flac | AC_ac3 | AC_copy | AC_pcm_s16le.

Definition AudioCodec_str (c : AudioCodec) : string :=
  match c with
  | AC_aac => "aac" | AC_mp3 => "mp3" | AC_opus => "opus" | AC_vorbis => "vorbis"
  | AC_flac => "flac" | AC_ac3 => "ac3" | AC_copy => "copy" | AC_pcm_s16le => "pcm_s16le"
  end.

Inductive ContainerFormat :=
| CF_mp4 | CF_webm | CF_mkv | CF_mov | CF_avi | CF_flv | CF_ts | CF_m4a | CF_mp3
| CF_ogg | CF_wav | CF_gif.

Definition ContainerFormat_str (c : ContainerFormat) : string :=
  match c with
  | CF_mp4 => "mp4" | CF_webm => "webm" | CF_mkv => "mkv" | CF_mov => "mov"
  | CF_avi => "avi" | CF_flv => "flv" | CF_ts => "ts" | CF_m4a => "m4a"
  | CF_mp3 => "mp3" | CF_ogg => "ogg" | CF_wav => "wav" | CF_gif => "gif"
  end.

Inductive ScaleAlgorithm :=
| SA_fast_bilinear | SA_bilinear | SA_bicubic | SA_neighbor | SA_area | SA_bicublin
| SA_gauss | SA_sinc | SA_lanczos | SA_spline.

Definition ScaleAlgorithm_str (a : ScaleAlgorithm) : string :=
  match a with
  | SA_fast_bilinear => "fast_bilinear" | SA_bilinear => "bilinear"
  | SA_bicubic => "bicubic" | SA_neighbor => "neighbor" | SA_area => "area"
  | SA_bicublin => "bicublin" | SA_gauss => "gauss" | SA_sinc => "sinc"
  | SA_lanczos => "lanczos" | SA_spline => "spline"
  end.

Inductive Preset :=
| P_ultrafast | P_superfast | P_veryfast | P_faster | P_fast | P_medium | P_slow
| P_slower | P_veryslow | P_placebo.

Definition Preset_str (p : Preset) : string :=
  match p with
  | P_ultrafast => "ultrafast" | P_superfast => "superfast" | P_veryfast => "veryfast"
  | P_faster => "faster" | P_fast => "fast" | P_medium => "medium" | P_slow => "slow"
  | P_slower => "slower" | P_veryslow => "veryslow" | P_placebo => "placebo"
  end.

Inductive H264Profile :=
| HP_baseline | HP_main | HP_high | HP_high10 | HP_high422 | HP_high444.

Definition H264Profile_str (p : H264Profile) : string :=
  match p with
  | HP_baseline => "baseline" | HP_main => "main" | HP_high => "high"
  | HP_high10 => "high10" | HP_high422 => "high422" | HP_high444 => "high444"
  end.

Inductive PixelFormat :=
| PF_yuv420p | PF_yuv422p | PF_yuv444p | PF_rgb24 | PF_rgba | PF_gray.

Definition PixelFormat_str (p : PixelFormat) : string :=
  match p with
  | PF_yuv420p => "yuv420p" | PF_yuv422p => "yuv422p" | PF_yuv444p => "yuv444p"
  | PF_rgb24 => "rgb24" | PF_rgba => "rgba" | PF_gray => "gray"
  end.

Inductive LogLevel :=
| LL_quiet | LL_panic | LL_fatal | LL_error | LL_warning | LL_info | LL_verbose | LL_debug.

Definition LogLevel_str (l : LogLevel) : string :=
  match l with
  | LL_quiet => "quiet" | LL_panic => "panic" | LL_fatal => "fatal" | LL_error => "error"
  | LL_warning => "warning" | LL_info => "info" | LL_verbose => "verbose"
  | LL_debug => "debug"
  end.

Inductive HwAccel :=
| HW_auto | HW_cuda | HW_vaapi | HW_videotoolbox | HW_qsv | HW_d3d11va | HW_dxva2.

Definition HwAccel_str (h : HwAccel) : string :=
  match h with
  | HW_auto => "auto" | HW_cuda => "cuda" | HW_vaapi => "vaapi"
  | HW_videotoolbox => "videotoolbox" | HW_qsv => "qsv" | HW_d3d11va => "d3d11va"
  | HW_dxva2 => "dxva2"
  end.

Inductive ForceAspect := FA_disable | FA_decrease | FA_increase.

Definition ForceAspect_str (f : ForceAspect) : string :=
  match f with
  | FA_disable => "disable" | FA_decrease => "decrease" | FA_increase => "increase"
  end.

Inductive FpsRound := FR_zero | FR_inf | FR_down | FR_up | FR_near.

Definition FpsRound_str (r : FpsRound) : string :=
  match r with
  | FR_zero => "zero" | FR_inf => "inf" | FR_down => "down" | FR_up => "up"
  | FR_near => "near"
  end.

Inductive FadeType := FadeIn | FadeOut.

Definition FadeType_str (t : FadeType) : string :=
  match t with FadeIn => "in" | FadeOut => "out" end.

Inductive FlipDirection := Horizontal | Vertical.

Inductive TransposeDirection := T0 | T1 | T2 | T3.

Definition TransposeDirection_str (d : TransposeDirection) : string :=
  match d with T0 => "0" | T1 => "1" | T2 => "2" | T3 => "3" end.

Inductive VolumePrecision := VP_fixed | VP_float | VP_double.

Inductive NormalizeType := Loudnorm | Dynaudnorm.

Inductive AudioFadeCurve :=
| C_tri | C_qsin | C_hsin | C_esin | C_log | C_ipar | C_qua | C_cub | C_squ | C_cbr
| C_par | C_exp | C_iqsin | C_ihsin | C_dese | C_desi | C_losi | C_sinc | C_isinc.

Definition AudioFadeCurve_str (c : AudioFadeCurve) : string :=
  match c with
  | C_tri => "tri" | C_qsin => "qsin" | C_hsin => "hsin" | C_esin => "esin"
  | C_log => "log" | C_ipar => "ipar" | C_qua => "qua" | C_cub => "cub"
  | C_squ => "squ" | C_cbr => "cbr" | C_par => "par" | C_exp => "exp"
  | C_iqsin => "iqsin" | C_ihsin => "ihsin" | C_dese => "dese" | C_desi => "desi"
  | C_losi => "losi" | C_sinc => "sinc" | C_isinc => "isinc"
  end.

Inductive ChannelLayout := CL_mono | CL_stereo | CL_5_1 | CL_7_1.

Definition ChannelLayout_str (l : ChannelLayout) : string :=
  match l with
  | CL_mono => "mono" | CL_stereo => "stereo" | CL_5_1 => "5.1" | CL_7_1 => "7.1"
  end.

Inductive Poles := Poles1 | Poles2.

Definition Poles_str (p : Poles) : string :=
  match p with Poles1 => "1" | Poles2 => "2" end.

(** [pass?: 1 | 2]. *)
Inductive Pass := Pass1 | Pass2.

Inductive WidthType := WT_h | WT_q | WT_o | WT_s.

Definition WidthType_str (w : WidthType) : string :=
  match w with WT_h => "h" | WT_q => "q" | WT_o => "o" | WT_s => "s" end.

(** [Expr = number | string]; the same shape serves [string | number]
    fields ([sar], [dar], [volume.value]). *)
Inductive Expr :=
| ENum (n : number)
| EStr (s : string).

(** ** Filter descriptors ([ast/video-filters.ts], [ast/audio-filters.ts])

    One constructor per [kind]; an optional field [f?: T] is an [option T]. *)

Inductive VideoFilter :=
| Scale (width height : option number) (algorithm : option ScaleAlgorithm)
        (forceOriginalAspectRatio : option ForceAspect)
| Crop (width height : Expr) (x y : option Expr)
| Fps (value : number) (round : option FpsRound)
| Trim (start end_ duration : option number)
| Fade (type : FadeType) (startTime duration : number) (color : option string)
| Rotate (angle : Expr) (outputWidth outputHeight : option Expr)
         (fillColor : option string)
| Flip (direction : FlipDirection)
| Transpose (direction : TransposeDirection)
| Overlay (inputRef : string) (x y : Expr) (enableAlpha shortest : option bool)
| Pad (width height : Expr) (x y : option Expr) (color : option string)
| SetSar (sar : Expr)
| SetDar (dar : Expr)
| Format (pixelFormats : list string).

Inductive AudioFilter :=
| Volume (value : Expr) (precision : option VolumePrecision)
| Normalize (type : NormalizeType)
            (targetLoudness loudnessRange truePeak frameLength gaussSize : option number)
| AFade (type : FadeType) (startTime duration : number) (curve : option AudioFadeCurve)
| ATrim (start end_ duration : option number)
| AResample (sampleRate : number)
| ChannelMap (map : string) (channelLayout : option string)
| ChannelMix (layout : ChannelLayout)
| ADelay (delays : string)
| Highpass (frequency : number) (poles : option Poles) (width : option number)
           (widthType : option WidthType)
| Lowpass (frequency : number) (poles : option Poles) (width : option number)
          (widthType : option WidthType)
| Equalizer (frequency width : number) (widthType : option WidthType) (gain : number).

(** ** The media graph ([ast/types.ts]) *)

(** [string | Readable] and [string | Writable]: a path, or a stream object. *)
Inductive InputSource := SourcePath (path : string) | SourceStream.
Inductive OutputDestination := DestPath (path : string) | DestStream.

Record InputOptions := {
  io_format : option string;
  io_seekTo : option number;
  io_loop : option number;
  io_frameRate : option number;
  io_duration : option number
}.

Record MediaInput := {
  id : string;
  source : InputSource;
  in_options : option InputOptions
}.

Record VideoStream := {
  vs_inputRef : string;
  vs_streamIndex : option number;
  vs_filters : list VideoFilter;
  vs_disabled : option bool
}.

Record AudioStream := {
  as_inputRef : string;
  as_streamIndex : option number;
  as_filters : list AudioFilter;
  as_disabled : option bool
}.

(** A value of [Record<string, string | number | boolean>]. *)
Inductive OptionValue :=
| OString (s : string)
| ONumber (n : number)
| OBoolean (b : bool).

(** A [Record<string, T>] read through [Object.entries]: its entries in
    enumeration order. *)
Definition Entries (T : Type) := list (string * T).

Record VideoCodecConfig := {
  vc_codec : VideoCodec;
  vc_bitrate : option string;
  vc_maxBitrate : option string;
  vc_bufferSize : option string;
  vc_crf : option number;
  vc_preset : option Preset;
  vc_profile : option H264Profile;
  vc_pixelFormat : option PixelFormat;
  vc_pass : option Pass;
  vc_options : option (Entries OptionValue)
}.

Record AudioCodecConfig := {
  ac_codec : AudioCodec;
  ac_bitrate : option string;
  ac_sampleRate : option number;
  ac_channels : option number;
  ac_options : option (Entries OptionValue)
}.

Record OutputFlags := {
  fastStart : option bool;
  shortest : option bool;
  mapAll : option bool
}.

Record OutputConfig := {
  destination : OutputDestination;
  out_format : option ContainerFormat;
  out_video : option VideoCodecConfig;
  out_audio : option AudioCodecConfig;
  metadata : option (Entries string);
  flags : option OutputFlags
}.

Record GlobalOptions := {
  threads : option number;
  overwrite : option bool;
  logLevel : option LogLevel;
  hwAccel : option HwAccel
}.

Record MediaGraph := {
  inputs : list MediaInput;
  videoStreams : list VideoStream;
  audioStreams : list AudioStream;
  output : OutputConfig;
  options : GlobalOptions
}.

(** [createMediaGraph()]. *)
Definition createMediaGraph : MediaGraph :=
  {| inputs := []; videoStreams := []; audioStreams := [];
     output := {| destination := DestPath ""; out_format := None; out_video := None;
                  out_audio := None; metadata := None; flags := None |};
     options := {| threads := None; overwrite := Some true; logLevel := None;
                   hwAccel := None |} |}.

(** ** Graph introspection ([ast/graph.ts]) *)

Definition isOverlay (filter : VideoFilter) : bool :=
  match filter with Overlay _ _ _ _ _ => true | _ => false end.

(** The classifier: the three tests in source order, each returning [true]
    at once. *)
Definition requiresComplexFilter (graph : MediaGraph) : bool :=
  if (1 <? length (inputs graph))%nat then true
  else if existsb (fun stream => existsb isOverlay (vs_filters stream))
                  (videoStreams graph) then true
  else if (1 <? length (videoStreams graph))%nat
          || (1 <? length (audioStreams graph))%nat then true
  else false.

Definition addVideoRefs (refs : Js.StringSet.t) (stream : VideoStream) : Js.StringSet.t :=
  fold_left
    (fun refs filter =>
       match filter with
       | Overlay inputRef _ _ _ _ => Js.StringSet.add refs inputRef
       | _ => refs
       end)
    (vs_filters stream)
    (Js.StringSet.add refs (vs_inputRef stream)).

Definition getReferencedInputs (graph : MediaGraph) : Js.StringSet.t :=
  let refs := fold_left addVideoRefs (videoStreams graph) Js.StringSet.empty in
  fold_left (fun refs stream => Js.StringSet.add refs (as_inputRef stream))
            (audioStreams graph) refs.

Definition getInputIds (graph : MediaGraph) : Js.StringSet.t :=
  Js.StringSet.ofList (map id (inputs graph)).

Definition findInput (graph : MediaGraph) (i : string) : option MediaInput :=
  snd <$> list_find (fun input => id input = i) (inputs graph).

(** [Array.prototype.findIndex]: the position of the first match, or [-1]. *)
Definition getInputIndex (graph : MediaGraph) (i : string) : Z :=
  match list_find (fun input => id input = i) (inputs graph) with
  | Some (index, _) => Z.of_nat index
  | None => -1
  end.

Definition videoEnabled (s : VideoStream) : bool := negb (Js.truthyBool (vs_disabled s)).
Definition audioEnabled (s : AudioStream) : bool := negb (Js.truthyBool (as_disabled s)).

Definition hasVideoProcessing (graph : MediaGraph) : bool :=
  existsb (fun s => videoEnabled s && (0 <? length (vs_filters s))%nat)
          (videoStreams graph).

Definition hasAudioProcessing (graph : MediaGraph) : bool :=
  existsb (fun s => audioEnabled s && (0 <? length (as_filters s))%nat)
          (audioStreams graph).

Definition hasVideoOutput (graph : MediaGraph) : bool :=
  existsb videoEnabled (videoStreams graph).

Definition hasAudioOutput (graph : MediaGraph) : bool :=
  existsb audioEnabled (audioStreams graph).

(** ** Validation ([ast/validation.ts], [errors/index.ts]) *)

Definition dquote : string := String (ascii_of_nat 34) EmptyString.
Definition quoted (s : string) : string := dquote +:+ s +:+ dquote.

(** [ValidationError]: the message the [Error] carries and the optional
    field. *)
Record ValidationError := {
  message : string;
  field : option string
}.

(** [new ValidationError(message, field)]. *)
Definition newValidationError (msg : string) (fld : option string) : ValidationError :=
  {| message :=
       match fld with
       | Some f =>
           if Js.truthyString f
           then "Validation error in " +:+ quoted f +:+ ": " +:+ msg
           else msg
       | None => msg
       end;
     field := fld |}.

Record ValidationResult := {
  valid : bool;
  errors : list ValidationError;
  warnings : list string
}.

(** [if (cond) errors.push(e)]. *)
Definition pushIf (cond : bool) (e : ValidationError) : list ValidationError :=
  if cond then [e] else [].

(** [x !== undefined && p(x)]. *)
Definition defined {A : Type} (o : option A) (p : A -> bool) : bool :=
  match o with Some x => p x | None => false end.

Definition scaleDimensionInvalid (d : option number) : bool :=
  defined d (fun v => Js.sne v (Js.ofZ (-1)) && Js.sne v (Js.ofZ (-2))
                      && Js.le v (Js.ofZ 0)).

Definition validateVideoFilter (filter : VideoFilter) (inputIds : Js.StringSet.t)
  : list ValidationError :=
  match filter with
  | Scale width height _ _ =>
      pushIf (scaleDimensionInvalid width)
        (newValidationError "Width must be positive or -1/-2 for auto" (Some "scale.width"))
      ++ pushIf (scaleDimensionInvalid height)
        (newValidationError "Height must be positive or -1/-2 for auto" (Some "scale.height"))
  | Fps value _ =>
      pushIf (Js.le value (Js.ofZ 0) || Js.gt value (Js.ofZ 240))
        (newValidationError "FPS must be between 1 and 240" (Some "fps.value"))
  | Trim start end_ duration =>
      pushIf (defined start (fun s => Js.lt s (Js.ofZ 0)))
        (newValidationError "Start time cannot be negative" (Some "trim.start"))
      ++ pushIf (defined end_ (fun e => Js.lt e (Js.ofZ 0)))
        (newValidationError "End time cannot be negative" (Some "trim.end"))
      ++ pushIf (defined start (fun s => defined end_ (fun e => Js.ge s e)))
        (newValidationError "Start time must be before end time" (Some "trim"))
      ++ pushIf (defined duration (fun d => Js.le d (Js.ofZ 0)))
        (newValidationError "Duration must be positive" (Some "trim.duration"))
  | Fade _ startTime duration _ =>
      pushIf (Js.lt startTime (Js.ofZ 0))
        (newValidationError "Fade start time cannot be negative" (Some "fade.startTime"))
      ++ pushIf (Js.le duration (Js.ofZ 0))
        (newValidationError "Fade duration must be positive" (Some "fade.duration"))
  | Overlay inputRef _ _ _ _ =>
      pushIf (negb (Js.StringSet.has inputIds inputRef))
        (newValidationError
           ("Overlay references non-existent input " +:+ quoted inputRef)
           (Some "overlay.inputRef"))
  | Crop _ _ _ _ => []
  | Rotate _ _ _ _ => []
  | _ => []
  end.

Definition validateAudioFilter (filter : AudioFilter) : list ValidationError :=
  match filter with
  | Volume value _ =>
      pushIf (match value with ENum n => Js.lt n (Js.ofZ 0) | EStr _ => false end)
        (newValidationError "Volume cannot be negative" (Some "volume.value"))
  | ATrim start end_ _ =>
      pushIf (defined start (fun s => Js.lt s (Js.ofZ 0)))
        (newValidationError "Start time cannot be negative" (Some "atrim.start"))
      ++ pushIf (defined end_ (fun e => Js.lt e (Js.ofZ 0)))
        (newValidationError "End time cannot be negative" (Some "atrim.end"))
      ++ pushIf (defined start (fun s => defined end_ (fun e => Js.ge s e)))
        (newValidationError "Start time must be before end time" (Some "atrim"))
  | AFade _ startTime duration _ =>
      pushIf (Js.lt startTime (Js.ofZ 0))
        (newValidationError "Fade start time cannot be negative" (Some "afade.startTime"))
      ++ pushIf (Js.le duration (Js.ofZ 0))
        (newValidationError "Fade duration must be positive" (Some "afade.duration"))
  | AResample sampleRate =>
      pushIf (Js.le sampleRate (Js.ofZ 0))
        (newValidationError "Sample rate must be positive" (Some "aresample.sampleRate"))
      ++ pushIf (Js.lt sampleRate (Js.ofZ 8000) || Js.gt sampleRate (Js.ofZ 192000))
        (newValidationError "Sample rate should be between 8000 and 192000 Hz"
           (Some "aresample.sampleRate"))
  | Highpass frequency _ _ _ =>
      pushIf (Js.le frequency (Js.ofZ 0))
        (newValidationError "Frequency must be positive" (Some "highpass.frequency"))
  | Lowpass frequency _ _ _ =>
      pushIf (Js.le frequency (Js.ofZ 0))
        (newValidationError "Frequency must be positive" (Some "lowpass.frequency"))
  | Equalizer frequency width _ _ =>
      pushIf (Js.le frequency (Js.ofZ 0))
        (newValidationError "Frequency must be positive" (Some "equalizer.frequency"))
      ++ pushIf (Js.le width (Js.ofZ 0))
        (newValidationError "Width must be positive" (Some "equalizer.width"))
  | _ => []
  end.

(** The body of a stream loop, for the stream at position [i]. *)
Definition validateVideoStream (inputIds : Js.StringSet.t) (i : nat) (stream : VideoStream)
  : list ValidationError :=
  pushIf (negb (Js.StringSet.has inputIds (vs_inputRef stream)))
    (newValidationError
       ("Video stream " +:+ Js.natToString i +:+ " references non-existent input "
        +:+ quoted (vs_inputRef stream)) None)
  ++ concat (map (fun filter => validateVideoFilter filter inputIds) (vs_filters stream)).

Definition validateAudioStream (inputIds : Js.StringSet.t) (i : nat) (stream : AudioStream)
  : list ValidationError :=
  pushIf (negb (Js.StringSet.has inputIds (as_inputRef stream)))
    (newValidationError
       ("Audio stream " +:+ Js.natToString i +:+ " references non-existent input "
        +:+ quoted (as_inputRef stream)) None)
  ++ concat (map validateAudioFilter (as_filters stream)).

Definition destinationMissing (d : OutputDestination) : bool :=
  match d with
  | DestPath p => negb (Js.truthyString p)
  | DestStream => false
  end.

Definition validateGraph (graph : MediaGraph) : ValidationResult :=
  let inputIds := getInputIds graph in
  let referencedInputs := getReferencedInputs graph in
  let errors :=
    pushIf (length (inputs graph) =? 0)%nat
      (newValidationError "At least one input is required" None)
    ++ pushIf (destinationMissing (destination (output graph)))
      (newValidationError "Output destination is required" None)
    ++ concat (map (fun ref =>
                      pushIf (negb (Js.StringSet.has inputIds ref))
                        (newValidationError
                           ("Referenced input " +:+ quoted ref +:+ " does not exist") None))
                   referencedInputs)
    ++ concat (imap (validateVideoStream inputIds) (videoStreams graph))
    ++ concat (imap (validateAudioStream inputIds) (audioStreams graph))
    ++ pushIf (defined (out_video (output graph))
                 (fun v => defined (vc_crf v)
                   (fun crf => Js.lt crf (Js.ofZ 0) || Js.gt crf (Js.ofZ 63))))
      (newValidationError "CRF must be between 0 and 63" (Some "crf")) in
  let warnings :=
    if (length (videoStreams graph) =? 0)%nat && (length (audioStreams graph) =? 0)%nat
    then ["No video or audio streams configured - output may be empty"]
    else [] in
  {| valid := (length errors =? 0)%nat; errors := errors; warnings := warnings |}.

(** [assertValid] either returns normally or throws a [ValidationError].
    [result.errors[0]] on an empty array would be [undefined]; the branch
    that reads it runs only when [valid] is false. *)
Inductive Completion (E : Type) :=
| Normal
| Throw (e : E).
Arguments Normal {E}.
Arguments Throw {E} e.

Definition assertValid (graph : MediaGraph) : Completion (option ValidationError) :=
  let result := validateGraph graph in
  if negb (valid result) then Throw (head (errors result)) else Normal.

(** ** Filter serializers ([compiler/filter-serializers.ts]) *)

(** [s.replace(/\[[^\]]+\]$/, "[v_out]")]: the leftmost ["["] followed by one
    or more characters other than ["]"] and then by a ["]"] that ends the
    string is replaced, with all that follows it, by ["[v_out]"]. *)
Fixpoint closesAtEnd (s : string) : bool :=
  match s with
  | EmptyString => false
  | String c s' => if Ascii.eqb c "]" then String.eqb s' "" else closesAtEnd s'
  end.

Definition labelBodyToEnd (s : string) : bool :=
  match s with
  | EmptyString => false
  | String c s' => negb (Ascii.eqb c "]") && closesAtEnd s'
  end.

Fixpoint replaceTrailingLabel (s : string) : string :=
  match s with
  | EmptyString => EmptyString
  | String c s' =>
      if Ascii.eqb c "[" && labelBodyToEnd s' then "[v_out]"
      else String c (replaceTrailingLabel s')
  end.

(** [escapeValue]: three global replacements, in this order. *)
Definition escapeValue (value : string) : string :=
  Js.replaceAll "'" "'\''" (Js.replaceAll ":" "\:" (Js.replaceAll "\" "\\" value)).

(** [if (x !== undefined) parts.push(f(x))] and [if (x) parts.push(f(x))]
    for a string [x]. *)
Definition whenDefined {A : Type} (o : option A) (f : A -> list string) : list string :=
  match o with Some x => f x | None => [] end.

Definition whenTruthy (o : option string) (f : string -> list string) : list string :=
  match o with
  | Some s => if Js.truthyString s then f s else []
  | None => []
  end.

Definition codecMapVideo : gmap string string :=
  list_to_map
    [("h264", "libx264"); ("h265", "libx265"); ("hevc", "libx265");
     ("vp9", "libvpx-vp9"); ("vp8", "libvpx"); ("av1", "libaom-av1");
     ("mpeg4", "mpeg4"); ("prores", "prores_ks")].

Definition codecMapAudio : gmap string string :=
  list_to_map
    [("aac", "aac"); ("mp3", "libmp3lame"); ("opus", "libopus");
     ("vorbis", "libvorbis"); ("flac", "flac"); ("ac3", "ac3");
     ("pcm_s16le", "pcm_s16le")].

Definition layoutMap : gmap string string :=
  list_to_map [("mono", "mono"); ("stereo", "stereo"); ("5.1", "5.1"); ("7.1", "7.1")].

Section Compiler.

(** See [Js.toString]. *)
Variable fractionToString : Qc -> string.

Definition numStr (n : number) : string := Js.toString fractionToString n.

Definition serializeExpr (expr : Expr) : string :=
  match expr with
  | ENum n => numStr n
  | EStr s => s
  end.

Definition effectiveDimension (d : option number) : number :=
  let w := default (Js.ofZ (-2)) d in
  if Js.seq w (Js.ofZ (-1)) then Js.ofZ (-2) else w.

(** The [parts] array of the [trim] and [atrim] branches, which build it
    with the same three tests. *)
Definition timeParts (start end_ duration : option number) : list string :=
  whenDefined start (fun s => ["start=" +:+ numStr s])
  ++ whenDefined end_ (fun e => ["end=" +:+ numStr e])
  ++ whenDefined duration (fun d => ["duration=" +:+ numStr d]).

Definition serializeVideoFilter (filter : VideoFilter) : string :=
  match filter with
  | Scale width height algorithm forceOriginalAspectRatio =>
      let parts :=
        ["w=" +:+ numStr (effectiveDimension width)]
        ++ ["h=" +:+ numStr (effectiveDimension height)]
        ++ whenTruthy (ScaleAlgorithm_str <$> algorithm) (fun a => ["flags=" +:+ a])
        ++ whenTruthy (ForceAspect_str <$> forceOriginalAspectRatio)
             (fun f => ["force_original_aspect_ratio=" +:+ f]) in
      "scale=" +:+ Js.join ":" parts
  | Crop width height x y =>
      let parts :=
        ["w=" +:+ serializeExpr width]
        ++ ["h=" +:+ serializeExpr height]
        ++ whenDefined x (fun x => ["x=" +:+ serializeExpr x])
        ++ whenDefined y (fun y => ["y=" +:+ serializeExpr y]) in
      "crop=" +:+ Js.join ":" parts
  | Fps value round =>
      "fps=" +:+ numStr value
      +:+ Js.join "" (whenTruthy (FpsRound_str <$> round) (fun r => [":round=" +:+ r]))
  | Trim start end_ duration =>
      let parts := timeParts start end_ duration in
      if (0 <? length parts)%nat
      then "trim=" +:+ Js.join ":" parts +:+ ",setpts=PTS-STARTPTS"
      else "null"
  | Fade type startTime duration color =>
      let parts :=
        ["t=" +:+ FadeType_str type]
        ++ ["st=" +:+ numStr startTime]
        ++ ["d=" +:+ numStr duration]
        ++ whenTruthy color (fun c => ["c=" +:+ escapeValue c]) in
      "fade=" +:+ Js.join ":" parts
  | Rotate angle outputWidth outputHeight fillColor =>
      let parts :=
        ["a=" +:+ serializeExpr angle]
        ++ whenDefined outputWidth (fun w => ["ow=" +:+ serializeExpr w])
        ++ whenDefined outputHeight (fun h => ["oh=" +:+ serializeExpr h])
        ++ whenTruthy fillColor (fun c => ["c=" +:+ escapeValue c]) in
      "rotate=" +:+ Js.join ":" parts
  | Flip direction =>
      match direction with Horizontal => "hflip" | Vertical => "vflip" end
  | Transpose direction => "transpose=" +:+ TransposeDirection_str direction
  | Overlay _ x y enableAlpha shortest =>
      let parts :=
        ["x=" +:+ serializeExpr x]
        ++ ["y=" +:+ serializeExpr y]
        ++ (if Js.truthyBool enableAlpha then ["format=auto"] else [])
        ++ (if Js.truthyBool shortest then ["shortest=1"] else []) in
      "overlay=" +:+ Js.join ":" parts
  | Pad width height x y color =>
      let parts :=
        ["w=" +:+ serializeExpr width]
        ++ ["h=" +:+ serializeExpr height]
        ++ whenDefined x (fun x => ["x=" +:+ serializeExpr x])
        ++ whenDefined y (fun y => ["y=" +:+ serializeExpr y])
        ++ whenTruthy color (fun c => ["color=" +:+ escapeValue c]) in
      "pad=" +:+ Js.join ":" parts
  | SetSar sar => "setsar=" +:+ serializeExpr sar
  | SetDar dar => "setdar=" +:+ serializeExpr dar
  | Format pixelFormats => "format=" +:+ Js.join "|" pixelFormats
  end.

(** [result += ":w=" ...; if (widthType) result += ":t=" ...], shared by
    the highpass and lowpass branches. *)
Definition passSuffix (poles : option Poles) (width : option number)
           (widthType : option WidthType) : string :=
  Js.join "" (whenDefined poles (fun p => [":p=" +:+ Poles_str p]))
  +:+ Js.join ""
        (whenDefined width (fun w =>
           [":w=" +:+ numStr w
            +:+ Js.join "" (whenTruthy (WidthType_str <$> widthType)
                              (fun t => [":t=" +:+ t]))])).

Definition serializeAudioFilter (filter : AudioFilter) : string :=
  match filter with
  | Volume value _ => "volume=" +:+ serializeExpr value
  | Normalize Loudnorm targetLoudness loudnessRange truePeak _ _ =>
      let parts :=
        whenDefined targetLoudness (fun v => ["I=" +:+ numStr v])
        ++ whenDefined loudnessRange (fun v => ["LRA=" +:+ numStr v])
        ++ whenDefined truePeak (fun v => ["TP=" +:+ numStr v]) in
      if (0 <? length parts)%nat then "loudnorm=" +:+ Js.join ":" parts else "loudnorm"
  | Normalize Dynaudnorm _ _ _ frameLength gaussSize =>
      let parts :=
        whenDefined frameLength (fun v => ["f=" +:+ numStr v])
        ++ whenDefined gaussSize (fun v => ["g=" +:+ numStr v]) in
      if (0 <? length parts)%nat then "dynaudnorm=" +:+ Js.join ":" parts
      else "dynaudnorm"
  | AFade type startTime duration curve =>
      let parts :=
        ["t=" +:+ FadeType_str type]
        ++ ["st=" +:+ numStr startTime]
        ++ ["d=" +:+ numStr duration]
        ++ whenTruthy (AudioFadeCurve_str <$> curve) (fun c => ["curve=" +:+ c]) in
      "afade=" +:+ Js.join ":" parts
  | ATrim start end_ duration =>
      let parts := timeParts start end_ duration in
      if (0 <? length parts)%nat
      then "atrim=" +:+ Js.join ":" parts +:+ ",asetpts=PTS-STARTPTS"
      else "anull"
  | AResample sampleRate => "aresample=" +:+ numStr sampleRate
  | ChannelMap map channelLayout =>
      "channelmap=map=" +:+ map
      +:+ Js.join "" (whenTruthy channelLayout (fun l => [":channel_layout=" +:+ l]))
  | ChannelMix layout =>
      "aformat=channel_layouts="
      +:+ default (ChannelLayout_str layout) (layoutMap !! ChannelLayout_str layout)
  | ADelay delays => "adelay=" +:+ delays
  | Highpass frequency poles width widthType =>
      "highpass=f=" +:+ numStr frequency +:+ passSuffix poles width widthType
  | Lowpass frequency poles width widthType =>
      "lowpass=f=" +:+ numStr frequency +:+ passSuffix poles width widthType
  | Equalizer frequency width widthType gain =>
      "equalizer=f=" +:+ numStr frequency +:+ ":g=" +:+ numStr gain
      +:+ ":w=" +:+ numStr width
      +:+ Js.join "" (whenTruthy (WidthType_str <$> widthType) (fun t => [":t=" +:+ t]))
  end.

Definition serializeVideoFilterChain (filters : list VideoFilter) : string :=
  if (length filters =? 0)%nat then ""
  else Js.join "," (map serializeVideoFilter filters).

Definition serializeAudioFilterChain (filters : list AudioFilter) : string :=
  if (length filters =? 0)%nat then ""
  else Js.join "," (map serializeAudioFilter filters).

(** ** The compilers ([compiler/simple-compiler.ts],
    [compiler/complex-compiler.ts], [compiler/index.ts])

    Both compilers push onto one [args] array, block after block.  The
    blocks for global options, inputs, codec settings, metadata, output
    flags, output format and destination have the same text in both. *)

Definition globalArgs (o : GlobalOptions) : list string :=
  (if Js.truthyBool (overwrite o) then ["-y"] else [])
  ++ whenTruthy (LogLevel_str <$> logLevel o) (fun l => ["-loglevel"; l])
  ++ whenDefined (threads o) (fun t => ["-threads"; numStr t])
  ++ whenTruthy (HwAccel_str <$> hwAccel o) (fun h => ["-hwaccel"; h]).

Definition inputArgs (input : MediaInput) : list string :=
  whenDefined (in_options input ≫= io_seekTo) (fun v => ["-ss"; numStr v])
  ++ whenDefined (in_options input ≫= io_duration) (fun v => ["-t"; numStr v])
  ++ whenTruthy (in_options input ≫= io_format) (fun f => ["-f"; f])
  ++ whenDefined (in_options input ≫= io_frameRate) (fun v => ["-r"; numStr v])
  ++ whenDefined (in_options input ≫= io_loop) (fun v => ["-stream_loop"; numStr v])
  ++ match source input with
     | SourcePath p => ["-i"; p]
     | SourceStream => ["-i"; "pipe:0"]
     end.

Definition inputsArgs (graph : MediaGraph) : list string :=
  concat (map inputArgs (inputs graph)).

(** [for (const [key, value] of Object.entries(options))]. *)
Definition codecOptionArgs (entry : string * OptionValue) : list string :=
  match entry with
  | (key, OBoolean value) => if value then ["-" +:+ key] else []
  | (key, OString value) => ["-" +:+ key; value]
  | (key, ONumber value) => ["-" +:+ key; numStr value]
  end.

Definition videoCodecArgs (graph : MediaGraph) (hasVideo : bool) : list string :=
  match out_video (output graph) with
  | Some v =>
      match vc_codec v with
      | VC_copy => ["-c:v"; "copy"]
      | codec =>
          let encoder :=
            default (VideoCodec_str codec) (codecMapVideo !! VideoCodec_str codec) in
          ["-c:v"; encoder]
          ++ whenTruthy (vc_bitrate v) (fun b => ["-b:v"; b])
          ++ whenTruthy (vc_maxBitrate v) (fun b => ["-maxrate"; b])
          ++ whenTruthy (vc_bufferSize v) (fun b => ["-bufsize"; b])
          ++ whenDefined (vc_crf v) (fun c => ["-crf"; numStr c])
          ++ whenTruthy (Preset_str <$> vc_preset v) (fun p => ["-preset"; p])
          ++ whenTruthy (H264Profile_str <$> vc_profile v) (fun p => ["-profile:v"; p])
          ++ whenTruthy (PixelFormat_str <$> vc_pixelFormat v) (fun p => ["-pix_fmt"; p])
          ++ whenDefined (vc_options v) (fun o => concat (map codecOptionArgs o))
      end
  | None => if negb hasVideo then ["-vn"] else []
  end.

Definition whenTruthyNumber (o : option number) (f : number -> list string)
  : list string :=
  match o with
  | Some n => if Js.truthyNumber n then f n else []
  | None => []
  end.

Definition audioCodecArgs (graph : MediaGraph) (hasAudio : bool) : list string :=
  match out_audio (output graph) with
  | Some a =>
      match ac_codec a with
      | AC_copy => ["-c:a"; "copy"]
      | codec =>
          let encoder :=
            default (AudioCodec_str codec) (codecMapAudio !! AudioCodec_str codec) in
          ["-c:a"; encoder]
          ++ whenTruthy (ac_bitrate a) (fun b => ["-b:a"; b])
          ++ whenTruthyNumber (ac_sampleRate a) (fun r => ["-ar"; numStr r])
          ++ whenTruthyNumber (ac_channels a) (fun c => ["-ac"; numStr c])
          ++ whenDefined (ac_options a) (fun o => concat (map codecOptionArgs o))
      end
  | None => if negb hasAudio then ["-an"] else []
  end.

Definition metadataArgs (graph : MediaGraph) : list string :=
  whenDefined (metadata (output graph))
    (fun m => concat (map (fun '(key, value) => ["-metadata"; key +:+ "=" +:+ value]) m)).

Definition outputFlagArgs (graph : MediaGraph) : list string :=
  whenDefined (flags (output graph))
    (fun f =>
       (if Js.truthyBool (fastStart f) then ["-movflags"; "+faststart"] else [])
       ++ (if Js.truthyBool (shortest f) then ["-shortest"] else [])).

Definition outputFormatArgs (graph : MediaGraph) : list string :=
  whenTruthy (ContainerFormat_str <$> out_format (output graph)) (fun f => ["-f"; f]).

Definition destinationArgs (graph : MediaGraph) : list string :=
  match destination (output graph) with
  | DestPath p => [p]
  | DestStream => ["pipe:1"]
  end.

(** The part of both compilers after the filters and maps. *)
Definition outputArgs (graph : MediaGraph) (hasVideo hasAudio : bool) : list string :=
  videoCodecArgs graph hasVideo
  ++ audioCodecArgs graph hasAudio
  ++ metadataArgs graph
  ++ outputFlagArgs graph
  ++ outputFormatArgs graph
  ++ destinationArgs graph.

(** *** The simple compiler *)

Definition videoFilterArgs (graph : MediaGraph) (hasVideo : bool) : list string :=
  if hasVideo then
    match find videoEnabled (videoStreams graph) with
    | Some videoStream =>
        if (0 <? length (vs_filters videoStream))%nat then
          let vf := serializeVideoFilterChain (vs_filters videoStream) in
          if Js.truthyString vf then ["-vf"; vf] else []
        else []
    | None => []
    end
  else [].

Definition audioFilterArgs (graph : MediaGraph) (hasAudio : bool) : list string :=
  if hasAudio then
    match find audioEnabled (audioStreams graph) with
    | Some audioStream =>
        if (0 <? length (as_filters audioStream))%nat then
          let af := serializeAudioFilterChain (as_filters audioStream) in
          if Js.truthyString af then ["-af"; af] else []
        else []
    | None => []
    end
  else [].

Definition compileSimple (graph : MediaGraph) : list string :=
  let hasVideo := hasVideoOutput graph in
  let hasAudio := hasAudioOutput graph in
  globalArgs (options graph)
  ++ inputsArgs graph
  ++ videoFilterArgs graph hasVideo
  ++ audioFilterArgs graph hasAudio
  ++ outputArgs graph hasVideo hasAudio.

(** *** The complex compiler *)

Definition padLabel (index : Z) (kind : string) : string :=
  Js.intToString index +:+ ":" +:+ kind.

Definition segment (inLabels : string) (expr outLabel : string) : string :=
  inLabels +:+ expr +:+ "[" +:+ outLabel +:+ "]".

(** The variables the loop over the selected stream's filters updates. *)
Record VideoWalk := {
  filterParts : list string;
  currentLabel : string;
  normalFilters : list VideoFilter
}.

(** "Flush normal filters first". *)
Definition flushNormal (w : VideoWalk) : VideoWalk :=
  if (0 <? length (normalFilters w))%nat then
    let filterChain := Js.join "," (map serializeVideoFilter (normalFilters w)) in
    let nextLabel := "v_" +:+ Js.natToString (length (filterParts w)) in
    {| filterParts :=
         filterParts w
         ++ [segment ("[" +:+ currentLabel w +:+ "]") filterChain nextLabel];
       currentLabel := nextLabel;
       normalFilters := [] |}
  else w.

(** One iteration of [for (const filter of filters)]. *)
Definition walkFilter (graph : MediaGraph) (w : VideoWalk) (filter : VideoFilter)
  : VideoWalk :=
  match filter with
  | Overlay inputRef _ _ _ _ =>
      let w := flushNormal w in
      let overlayInputIndex := getInputIndex graph inputRef in
      let overlayLabel := padLabel overlayInputIndex "v" in
      let nextLabel := "v_" +:+ Js.natToString (length (filterParts w)) in
      let overlayFilter := serializeVideoFilter filter in
      {| filterParts :=
           filterParts w
           ++ [segment ("[" +:+ currentLabel w +:+ "][" +:+ overlayLabel +:+ "]")
                       overlayFilter nextLabel];
         currentLabel := nextLabel;
         normalFilters := normalFilters w |}
  | _ =>
      {| filterParts := filterParts w;
         currentLabel := currentLabel w;
         normalFilters := normalFilters w ++ [filter] |}
  end.

(** [filterParts[filterParts.length - 1] = lastPart.replace(...)]. *)
Definition relabelLast (parts : list string) : list string :=
  match last parts with
  | Some lastPart =>
      <[ (length parts - 1)%nat := replaceTrailingLabel lastPart ]> parts
  | None => parts
  end.

(** "Remaining normal filters", and the two branches after it: the filter
    parts and [outputVideoLabel] once the loop is over. *)
Definition finishVideoWalk (w : VideoWalk) : list string * string :=
  if (0 <? length (normalFilters w))%nat then
    let filterChain := Js.join "," (map serializeVideoFilter (normalFilters w)) in
    (filterParts w ++ [segment ("[" +:+ currentLabel w +:+ "]") filterChain "v_out"],
     "v_out")
  else if (0 <? length (filterParts w))%nat then
    (relabelLast (filterParts w), "v_out")
  else
    (filterParts w, currentLabel w).

(** "Process video streams": the filter parts and [outputVideoLabel]. *)
Definition videoGraph (graph : MediaGraph) (hasVideo : bool) : list string * string :=
  if hasVideo then
    match find videoEnabled (videoStreams graph) with
    | Some videoStream =>
        let inputIndex := getInputIndex graph (vs_inputRef videoStream) in
        finishVideoWalk
          (fold_left (walkFilter graph) (vs_filters videoStream)
             {| filterParts := [];
                currentLabel := padLabel inputIndex "v";
                normalFilters := [] |})
    | None => ([], "")
    end
  else ([], "").

(** "Process audio streams": the part pushed, if any, and
    [outputAudioLabel]. *)
Definition audioGraph (graph : MediaGraph) (hasAudio : bool) : list string * string :=
  if hasAudio then
    match find audioEnabled (audioStreams graph) with
    | Some audioStream =>
        let inputIndex := getInputIndex graph (as_inputRef audioStream) in
        if (0 <? length (as_filters audioStream))%nat then
          let currentLabel := padLabel inputIndex "a" in
          let filterChain :=
            Js.join "," (map serializeAudioFilter (as_filters audioStream)) in
          ([segment ("[" +:+ currentLabel +:+ "]") filterChain "a_out"], "a_out")
        else ([], padLabel inputIndex "a")
    | None => ([], "")
    end
  else ([], "").

(** "Map outputs", for one of the two labels. *)
Definition mapArgs (has : bool) (filterParts : list string) (label : string)
  : list string :=
  if has && Js.truthyString label then
    if (0 <? length filterParts)%nat && Js.includes "_" label
    then ["-map"; "[" +:+ label +:+ "]"]
    else ["-map"; label]
  else [].

Definition compileComplex (graph : MediaGraph) : list string :=
  let hasVideo := hasVideoOutput graph in
  let '(videoParts, outputVideoLabel) := videoGraph graph hasVideo in
  let hasAudio := hasAudioOutput graph in
  let '(audioParts, outputAudioLabel) := audioGraph graph hasAudio in
  let filterParts := videoParts ++ audioParts in
  globalArgs (options graph)
  ++ inputsArgs graph
  ++ (if (0 <? length filterParts)%nat
      then ["-filter_complex"; Js.join ";" filterParts] else [])
  ++ mapArgs hasVideo filterParts outputVideoLabel
  ++ mapArgs hasAudio filterParts outputAudioLabel
  ++ outputArgs graph hasVideo hasAudio.

(** *** [compile] *)

Definition compile (graph : MediaGraph) : list string :=
  if requiresComplexFilter graph then compileComplex graph
  else compileSimple graph.

(** ** Range checks of [utils/validation.ts] *)

(** [validateRange] and [validateFps] of [utils/validation.ts], which throw
    instead of collecting. *)
Definition validateRange (value min max : number) (fld : string)
  : Completion ValidationError :=
  if Js.lt value min || Js.gt value max then
    Throw (newValidationError
             ("must be between " +:+ numStr min +:+ " and " +:+ numStr max
              +:+ ", got " +:+ numStr value)
             (Some fld))
  else Normal.

Definition validateFps (fps : number) : Completion ValidationError :=
  validateRange fps (Js.ofZ 1) (Js.ofZ 240) "fps".

(** ** Statements of the specification, and example graphs *)

(** The decision rule of the classifier in the words of the specification:
    more than one input, or an overlay filter in some video stream, or more
    than one video stream or more than one audio stream. *)
Definition needsComplex (graph : MediaGraph) : Prop :=
  (1 < length (inputs graph))%nat
  \/ (exists stream filter,
        In stream (videoStreams graph) /\ In filter (vs_filters stream)
        /\ isOverlay filter = true)
  \/ (1 < length (videoStreams graph))%nat
  \/ (1 < length (audioStreams graph))%nat.

(** Modelled from the spec: the repository has no unescaping function.  The
    specification's unescaping removes the backslash escapes: a backslash
    is dropped and the character after it is kept as it is. *)
Fixpoint unescapeValue (s : string) : string :=
  match s with
  | EmptyString => EmptyString
  | String c s' =>
      if Ascii.eqb c "\" then
        match s' with
        | EmptyString => EmptyString
        | String c' s'' => String c' (unescapeValue s'')
        end
      else String c (unescapeValue s')
  end.

(** [s] holds [t] somewhere inside it. *)
Definition Embeds (t s : string) : Prop := exists a b, s = a +:+ t +:+ b.

Definition allVideoDisabled (graph : MediaGraph) : Prop :=
  Forall (fun s => Js.truthyBool (vs_disabled s) = true) (videoStreams graph).

Definition allAudioDisabled (graph : MediaGraph) : Prop :=
  Forall (fun s => Js.truthyBool (as_disabled s) = true) (audioStreams graph).

(** A printing of non-integral doubles to run the compilers with on graphs
    whose numbers are all integers. *)
Definition noFraction : Qc -> string := fun _ => "".

Definition fileInput (i path : string) : MediaInput :=
  {| id := i; source := SourcePath path; in_options := None |}.

Definition videoOf (ref : string) (filters : list VideoFilter) (disabled : option bool)
  : VideoStream :=
  {| vs_inputRef := ref; vs_streamIndex := None; vs_filters := filters;
     vs_disabled := disabled |}.

Definition audioOf (ref : string) (filters : list AudioFilter) (disabled : option bool)
  : AudioStream :=
  {| as_inputRef := ref; as_streamIndex := None; as_filters := filters;
     as_disabled := disabled |}.

Definition outputTo (path : string) (video : option VideoCodecConfig) : OutputConfig :=
  {| destination := DestPath path; out_format := None; out_video := video;
     out_audio := None; metadata := None; flags := None |}.

Definition defaultOptions : GlobalOptions :=
  {| threads := None; overwrite := Some true; logLevel := None; hwAccel := None |}.

Definition overlayAt10 (ref : string) : VideoFilter :=
  Overlay ref (ENum (Js.ofZ 10)) (ENum (Js.ofZ 10)) None None.

(** What [video("base.mp4").overlay("logo.png", {x: 10, y: 10})] builds. *)
Definition overlayGraph : MediaGraph :=
  {| inputs := [fileInput "input_0" "base.mp4"; fileInput "input_1" "logo.png"];
     videoStreams := [videoOf "input_0" [overlayAt10 "input_1"] None];
     audioStreams := [audioOf "input_0" [] None];
     output := outputTo "out.mp4" None;
     options := defaultOptions |}.

(** The same graph after [.volume(2)]. *)
Definition overlayVolumeGraph : MediaGraph :=
  {| inputs := [fileInput "input_0" "base.mp4"; fileInput "input_1" "logo.png"];
     videoStreams := [videoOf "input_0" [overlayAt10 "input_1"] None];
     audioStreams := [audioOf "input_0" [Volume (ENum (Js.ofZ 2)) None] None];
     output := outputTo "out.mp4" None;
     options := defaultOptions |}.

Definition h264Config : VideoCodecConfig :=
  {| vc_codec := VC_h264; vc_bitrate := None; vc_maxBitrate := None;
     vc_bufferSize := None; vc_crf := None; vc_preset := None; vc_profile := None;
     vc_pixelFormat := None; vc_pass := None; vc_options := None |}.

(** One input, both streams disabled, no codec configuration. *)
Definition disabledGraph : MediaGraph :=
  {| inputs := [fileInput "input_0" "in.mp4"];
     videoStreams := [videoOf "input_0" [] (Some true)];
     audioStreams := [audioOf "input_0" [] (Some true)];
     output := outputTo "out.mp4" None;
     options := defaultOptions |}.

(** The same with a video codec chosen, as [.codec("h264")] leaves it. *)
Definition disabledCodecGraph : MediaGraph :=
  {| inputs := [fileInput "input_0" "in.mp4"];
     videoStreams := [videoOf "input_0" [] (Some true)];
     audioStreams := [audioOf "input_0" [] (Some true)];
     output := outputTo "out.mp4" (Some h264Config);
     options := defaultOptions |}.

Definition half : number := Js.Finite (Q2Qc (1 # 2)).

(** One input whose video stream asks for half a frame per second. *)
Definition halfFpsGraph : MediaGraph :=
  {| inputs := [fileInput "input_0" "in.mp4"];
     videoStreams := [videoOf "input_0" [Fps half None] None];
     audioStreams := [audioOf "input_0" [] None];
     output := outputTo "out.mp4" None;
     options := defaultOptions |}.

(** Two inputs; the video stream refers to an input that is not there. *)
Definition danglingGraph (filters : list VideoFilter) : MediaGraph :=
  {| inputs := [fileInput "input_0" "a.mp4"; fileInput "input_1" "b.mp4"];
     videoStreams := [videoOf "gone" filters None];
     audioStreams := [];
     output := outputTo "out.mp4" None;
     options := defaultOptions |}.

(** Two inputs; the overlay refers to an input that is not there. *)
Definition danglingOverlayGraph : MediaGraph :=
  {| inputs := [fileInput "input_0" "a.mp4"; fileInput "input_1" "b.mp4"];
     videoStreams := [videoOf "input_0" [overlayAt10 "gone"] None];
     audioStreams := [];
     output := outputTo "out.mp4" None;
     options := defaultOptions |}.

(** ** Predicates the properties are stated with *)

(** What the three replacements make of one character. *)
Definition escapeChar (c : ascii) : string :=
  if Ascii.eqb c "\" then "\\"
  else if Ascii.eqb c ":" then "\:"
  else if Ascii.eqb c "'" then "'\''"
  else String c EmptyString.

Fixpoint hasQuote (s : string) : bool :=
  match s with
  | EmptyString => false
  | String c s' => Ascii.eqb c "'" || hasQuote s'
  end.

Definition autoDimension (d : option number) : Prop :=
  d = None \/ d = Some (Js.ofZ (-1)).

(** [p] holds the pad [[label]] with something after it. *)
Definition PadIn (label p : string) : Prop :=
  exists a b, p = a +:+ "[" +:+ label +:+ "]" +:+ b /\ b <> "".

(** [p] starts with the pad [[label]] and goes on after it. *)
Definition PadFirst (label p : string) : Prop :=
  exists b, p = "[" +:+ label +:+ "]" +:+ b /\ b <> "".

(** The first part, once there is one, starts with the pad the walk
    started from. *)
Definition FirstFrom (label : string) (w : VideoWalk) : Prop :=
  (filterParts w = [] /\ currentLabel w = label)
  \/ (exists p ps, filterParts w = p :: ps /\ PadFirst label p).

(** Some part holds the pad [[label]]. *)
Definition HoldsPad (label : string) (parts : list string) : Prop :=
  exists p, In p parts /\ PadIn label p.

(** The walk has consumed a filter: it holds a pending filter or a part. *)
Definition Started (w : VideoWalk) : Prop :=
  normalFilters w <> [] \/ filterParts w <> [].

(** [ref] is the id of no input of [graph]. *)
Definition missingInput (graph : MediaGraph) (ref : string) : Prop :=
  forall input, In input (inputs graph) -> id input <> ref.

(** ** More of the code: graph mutation, the builder, version comparison
    and the progress-line buffer *)

(** A call that mutates its receiver and may throw: the receiver as the call
    leaves it, and the message of the [Error] when one is thrown. *)
Inductive Outcome (S : Type) :=
| Returned (state : S)
| Threw (error : string) (state : S).
Arguments Returned {S} state.
Arguments Threw {S} error state.

Definition stateOf {S : Type} (o : Outcome S) : S :=
  match o with Returned s => s | Threw _ s => s end.

Definition andThen {S : Type} (o : Outcome S) (f : S -> Outcome S) : Outcome S :=
  match o with
  | Returned s => f s
  | Threw e s => Threw e s
  end.

Definition withVideoStreams (graph : MediaGraph) (streams : list VideoStream) : MediaGraph :=
  {| inputs := inputs graph; videoStreams := streams; audioStreams := audioStreams graph;
     output := output graph; options := options graph |}.

Definition withAudioStreams (graph : MediaGraph) (streams : list AudioStream) : MediaGraph :=
  {| inputs := inputs graph; videoStreams := videoStreams graph; audioStreams := streams;
     output := output graph; options := options graph |}.

Definition withInputs (graph : MediaGraph) (ins : list MediaInput) : MediaGraph :=
  {| inputs := ins; videoStreams := videoStreams graph;
     audioStreams := audioStreams graph; output := output graph;
     options := options graph |}.

Definition withOutput (graph : MediaGraph) (out : OutputConfig) : MediaGraph :=
  {| inputs := inputs graph; videoStreams := videoStreams graph;
     audioStreams := audioStreams graph; output := out; options := options graph |}.

(** [graph.videoStreams[0]!.filters.push(filter)]. *)
Definition pushVideoFilter (stream : VideoStream) (filter : VideoFilter) : VideoStream :=
  {| vs_inputRef := vs_inputRef stream; vs_streamIndex := vs_streamIndex stream;
     vs_filters := vs_filters stream ++ [filter]; vs_disabled := vs_disabled stream |}.

Definition pushAudioFilter (stream : AudioStream) (filter : AudioFilter) : AudioStream :=
  {| as_inputRef := as_inputRef stream; as_streamIndex := as_streamIndex stream;
     as_filters := as_filters stream ++ [filter]; as_disabled := as_disabled stream |}.

(** [addVideoFilter] and [addAudioFilter] of [ast/graph.ts]. *)
Definition addVideoFilter (graph : MediaGraph) (filter : VideoFilter) : Outcome MediaGraph :=
  match videoStreams graph with
  | [] => Threw "No video stream to add filter to" graph
  | first :: rest => Returned (withVideoStreams graph (pushVideoFilter first filter :: rest))
  end.

Definition addAudioFilter (graph : MediaGraph) (filter : AudioFilter) : Outcome MediaGraph :=
  match audioStreams graph with
  | [] => Threw "No audio stream to add filter to" graph
  | first :: rest => Returned (withAudioStreams graph (pushAudioFilter first filter :: rest))
  end.

(** *** The builder ([core/media-chain.ts]) and the id counter of
    [ast/types.ts]

    A [MediaChain] owns a graph and remembers its primary input; the counter
    behind [generateInputId] is shared by all chains.  The progress callback
    and the known duration, which only [execute] reads, are left out. *)
Record MediaChain := {
  chainGraph : MediaGraph;
  primaryInputId : option string
}.

Record Building := {
  inputCounter : nat;
  chain : MediaChain
}.

(** [new MediaChain()]. *)
Definition newMediaChain : MediaChain :=
  {| chainGraph := createMediaGraph; primaryInputId := None |}.

Definition inputIdOf (n : nat) : string := "input_" +:+ Js.natToString n.

Definition truthyId (o : option string) : bool :=
  match o with Some s => Js.truthyString s | None => false end.

Definition setGraph (b : Building) (graph : MediaGraph) : Building :=
  {| inputCounter := inputCounter b;
     chain := {| chainGraph := graph; primaryInputId := primaryInputId (chain b) |} |}.

(** [input(source, options)]: a fresh id, the input pushed, and for the
    first input the two default streams. *)
Definition chainInput (source : InputSource) (opts : option InputOptions) (b : Building)
  : Outcome Building :=
  let newId := inputIdOf (inputCounter b) in
  let graph := chainGraph (chain b) in
  let graph1 :=
    withInputs graph
      (inputs graph ++ [{| id := newId; source := source; in_options := opts |}]) in
  if negb (truthyId (primaryInputId (chain b))) then
    let graph2 :=
      withVideoStreams graph1
        (videoStreams graph1
         ++ [{| vs_inputRef := newId; vs_streamIndex := None; vs_filters := [];
                vs_disabled := None |}]) in
    let graph3 :=
      withAudioStreams graph2
        (audioStreams graph2
         ++ [{| as_inputRef := newId; as_streamIndex := None; as_filters := [];
                as_disabled := None |}]) in
    Returned {| inputCounter := S (inputCounter b);
                chain := {| chainGraph := graph3; primaryInputId := Some newId |} |}
  else
    Returned {| inputCounter := S (inputCounter b);
                chain := {| chainGraph := graph1;
                            primaryInputId := primaryInputId (chain b) |} |}.

(** [addVideoFilterInternal] and [addAudioFilterInternal]. *)
Definition addVideoFilterInternal (filter : VideoFilter) (b : Building)
  : Outcome Building :=
  let graph := chainGraph (chain b) in
  if (length (videoStreams graph) =? 0)%nat then
    match primaryInputId (chain b) with
    | Some primary =>
        if Js.truthyString primary then
          let graph1 :=
            withVideoStreams graph
              (videoStreams graph
               ++ [{| vs_inputRef := primary; vs_streamIndex := None; vs_filters := [];
                      vs_disabled := None |}]) in
          match addVideoFilter graph1 filter with
          | Returned g => Returned (setGraph b g)
          | Threw e g => Threw e (setGraph b g)
          end
        else Threw "Cannot add video filter: no input specified" b
    | None => Threw "Cannot add video filter: no input specified" b
    end
  else
    match addVideoFilter graph filter with
    | Returned g => Returned (setGraph b g)
    | Threw e g => Threw e (setGraph b g)
    end.

Definition addAudioFilterInternal (filter : AudioFilter) (b : Building)
  : Outcome Building :=
  let graph := chainGraph (chain b) in
  if (length (audioStreams graph) =? 0)%nat then
    match primaryInputId (chain b) with
    | Some primary =>
        if Js.truthyString primary then
          let graph1 :=
            withAudioStreams graph
              (audioStreams graph
               ++ [{| as_inputRef := primary; as_streamIndex := None; as_filters := [];
                      as_disabled := None |}]) in
          match addAudioFilter graph1 filter with
          | Returned g => Returned (setGraph b g)
          | Threw e g => Threw e (setGraph b g)
          end
        else Threw "Cannot add audio filter: no input specified" b
    | None => Threw "Cannot add audio filter: no input specified" b
    end
  else
    match addAudioFilter graph filter with
    | Returned g => Returned (setGraph b g)
    | Threw e g => Threw e (setGraph b g)
    end.

(** [ResizeOptions], [TrimOptions], [FadeOptions] and [OverlayOptions] of
    [utils/types.ts]. *)
Record ResizeOptions := {
  ro_width : option number;
  ro_height : option number;
  ro_algorithm : option ScaleAlgorithm;
  ro_force : option bool
}.

Record TrimOptions := {
  to_start : option number;
  to_end : option number;
  to_duration : option number
}.

Record FadeOptions := {
  fo_type : FadeType;
  fo_start : number;
  fo_duration : number;
  fo_color : option string
}.

Record OverlayOptions := {
  oo_x : option Expr;
  oo_y : option Expr;
  oo_alpha : option bool
}.

(** [MediaChain | string]. *)
Inductive OverlaySource :=
| OverlayPath (path : string)
| OverlayChain (other : MediaChain).

(** [resize], [scale], [fps], [flip], [trim], [fade], [mute], [volume],
    [normalize] of [MediaChain]. *)
Definition chainResize (o : ResizeOptions) : Building -> Outcome Building :=
  addVideoFilterInternal
    (Scale (Some (default (Js.ofZ (-1)) (ro_width o)))
           (Some (default (Js.ofZ (-1)) (ro_height o)))
           (ro_algorithm o)
           (if Js.truthyBool (ro_force o) then Some FA_disable else None)).

Definition chainScale (width : number) (height : option number)
  : Building -> Outcome Building :=
  addVideoFilterInternal
    (Scale (Some width) (Some (default (Js.ofZ (-1)) height)) None None).

Definition chainFps (value : number) : Building -> Outcome Building :=
  addVideoFilterInternal (Fps value None).

Definition chainFlip (direction : FlipDirection) : Building -> Outcome Building :=
  addVideoFilterInternal (Flip direction).

Definition chainTrim (o : TrimOptions) (b : Building) : Outcome Building :=
  andThen (addVideoFilterInternal (Trim (to_start o) (to_end o) (to_duration o)) b)
          (addAudioFilterInternal (ATrim (to_start o) (to_end o) (to_duration o))).

Definition chainFade (o : FadeOptions) : Building -> Outcome Building :=
  addVideoFilterInternal (Fade (fo_type o) (fo_start o) (fo_duration o) (fo_color o)).

Definition chainMute (b : Building) : Outcome Building :=
  let graph := chainGraph (chain b) in
  Returned
    (setGraph b
       (withAudioStreams graph
          (map (fun s => {| as_inputRef := as_inputRef s;
                            as_streamIndex := as_streamIndex s;
                            as_filters := as_filters s;
                            as_disabled := Some true |})
               (audioStreams graph)))).

Definition chainVolume (value : Expr) : Building -> Outcome Building :=
  addAudioFilterInternal (Volume value None).

Definition chainNormalize (type : NormalizeType) : Building -> Outcome Building :=
  addAudioFilterInternal (Normalize type None None None None None).

(** [overlay(source, options)]. *)
Definition overlaySourceOf (src : OverlaySource) : option InputSource :=
  match src with
  | OverlayPath p => if Js.truthyString p then Some (SourcePath p) else None
  | OverlayChain other =>
      match head (inputs (chainGraph other)) with
      | Some first =>
          match source first with
          | SourcePath p => if Js.truthyString p then Some (SourcePath p) else None
          | SourceStream => Some SourceStream
          end
      | None => None
      end
  end.

Definition chainOverlay (src : OverlaySource) (o : OverlayOptions) (b : Building)
  : Outcome Building :=
  match overlaySourceOf src with
  | None => Threw "Overlay source is required" b
  | Some overlaySource =>
      let overlayId := inputIdOf (inputCounter b) in
      let graph := chainGraph (chain b) in
      let b1 :=
        {| inputCounter := S (inputCounter b);
           chain :=
             {| chainGraph :=
                  withInputs graph
                    (inputs graph
                     ++ [{| id := overlayId; source := overlaySource;
                            in_options := None |}]);
                primaryInputId := primaryInputId (chain b) |} |} in
      addVideoFilterInternal
        (Overlay overlayId
                 (default (ENum (Js.ofZ 0)) (oo_x o))
                 (default (ENum (Js.ofZ 0)) (oo_y o))
                 (oo_alpha o) None)
        b1
  end.

(** [ensureVideoCodecConfig], [codec] and [crf]. *)
Definition ensureVideoCodecConfig (graph : MediaGraph) : VideoCodecConfig :=
  match out_video (output graph) with
  | Some v => v
  | None =>
      {| vc_codec := VC_h264; vc_bitrate := None; vc_maxBitrate := None;
         vc_bufferSize := None; vc_crf := None; vc_preset := None; vc_profile := None;
         vc_pixelFormat := None; vc_pass := None; vc_options := None |}
  end.

Definition withVideoConfig (graph : MediaGraph) (v : VideoCodecConfig) : MediaGraph :=
  withOutput graph
    {| destination := destination (output graph); out_format := out_format (output graph);
       out_video := Some v; out_audio := out_audio (output graph);
       metadata := metadata (output graph); flags := flags (output graph) |}.

Definition chainCodec (codec : VideoCodec) (b : Building) : Outcome Building :=
  let graph := chainGraph (chain b) in
  let v := ensureVideoCodecConfig graph in
  Returned
    (setGraph b
       (withVideoConfig graph
          {| vc_codec := codec; vc_bitrate := vc_bitrate v;
             vc_maxBitrate := vc_maxBitrate v; vc_bufferSize := vc_bufferSize v;
             vc_crf := vc_crf v; vc_preset := vc_preset v; vc_profile := vc_profile v;
             vc_pixelFormat := vc_pixelFormat v; vc_pass := vc_pass v;
             vc_options := vc_options v |})).

Definition chainCrf (value : number) (b : Building) : Outcome Building :=
  let graph := chainGraph (chain b) in
  let v := ensureVideoCodecConfig graph in
  Returned
    (setGraph b
       (withVideoConfig graph
          {| vc_codec := vc_codec v; vc_bitrate := vc_bitrate v;
             vc_maxBitrate := vc_maxBitrate v; vc_bufferSize := vc_bufferSize v;
             vc_crf := Some value; vc_preset := vc_preset v; vc_profile := vc_profile v;
             vc_pixelFormat := vc_pixelFormat v; vc_pass := vc_pass v;
             vc_options := vc_options v |})).

(** The builder calls modelled above, as data, so that a chain of calls is
    a list.  The counter behind [generateInputId] belongs to the module, not
    to one chain: [CallElsewhere k] stands for [k] ids drawn by other chains
    between two calls of this one, as when the argument of [overlay] is a
    chain built in place. *)
Inductive Call :=
| CallInput (source : InputSource) (opts : option InputOptions)
| CallResize (o : ResizeOptions)
| CallScale (width : number) (height : option number)
| CallFps (value : number)
| CallFlip (direction : FlipDirection)
| CallTrim (o : TrimOptions)
| CallFade (o : FadeOptions)
| CallMute
| CallVolume (value : Expr)
| CallNormalize (type : NormalizeType)
| CallOverlay (src : OverlaySource) (o : OverlayOptions)
| CallCodec (codec : VideoCodec)
| CallCrf (value : number)
| CallElsewhere (k : nat).

Definition perform (c : Call) : Building -> Outcome Building :=
  match c with
  | CallInput source opts => chainInput source opts
  | CallResize o => chainResize o
  | CallScale width height => chainScale width height
  | CallFps value => chainFps value
  | CallFlip direction => chainFlip direction
  | CallTrim o => chainTrim o
  | CallFade o => chainFade o
  | CallMute => chainMute
  | CallVolume value => chainVolume value
  | CallNormalize type => chainNormalize type
  | CallOverlay src o => chainOverlay src o
  | CallCodec codec => chainCodec codec
  | CallCrf value => chainCrf value
  | CallElsewhere k =>
      fun b => Returned {| inputCounter := inputCounter b + k; chain := chain b |}
  end.

(** A fluent chain [c1.c2. ... .cn]: the calls run in order and the first
    throw ends the chain. *)
Fixpoint performAll (calls : list Call) (b : Building) : Outcome Building :=
  match calls with
  | [] => Returned b
  | c :: rest => andThen (perform c b) (performAll rest)
  end.

(** [video(input)] of [video.ts], with the counter at [n]. *)
Definition video (source : InputSource) (n : nat) : Outcome Building :=
  chainInput source None {| inputCounter := n; chain := newMediaChain |}.

(** [save(path)] up to the arguments handed to the runner: the destination
    is set, the graph asserted valid and compiled. *)
Definition withDestination (graph : MediaGraph) (d : OutputDestination) : MediaGraph :=
  withOutput graph
    {| destination := d; out_format := out_format (output graph);
       out_video := out_video (output graph); out_audio := out_audio (output graph);
       metadata := metadata (output graph); flags := flags (output graph) |}.

(** [toArgs()]: the first validation error, or the compiled arguments. *)
Definition toArgs (c : MediaChain) : option ValidationError + list string :=
  match assertValid (chainGraph c) with
  | Throw e => inl e
  | Normal => inr (compile (chainGraph c))
  end.

(** *** Version comparison ([executor/binary-resolver.ts]) *)

(** [s.split(c)] for a one-character separator. *)
Fixpoint splitOn (c : ascii) (s : string) : list string :=
  match s with
  | EmptyString => [EmptyString]
  | String a s' =>
      if Ascii.eqb a c then EmptyString :: splitOn c s'
      else match splitOn c s' with
           | first :: rest => String a first :: rest
           | [] => [String a EmptyString]
           end
  end.

(** [partsA[i] ?? 0]. *)
Definition partAt (parts : list number) (i : nat) : number :=
  default (Js.ofZ 0) (parts !! i).

(** The loop of [compareVersions], from index [i] for [n] more rounds. *)
Fixpoint compareFrom (partsA partsB : list number) (i n : nat) : Z :=
  match n with
  | O => 0
  | S n' =>
      if Js.lt (partAt partsA i) (partAt partsB i) then -1
      else if Js.gt (partAt partsA i) (partAt partsB i) then 1
      else compareFrom partsA partsB (S i) n'
  end.

Definition compareParts (partsA partsB : list number) : Z :=
  compareFrom partsA partsB 0 (Nat.max (length partsA) (length partsB)).

Section Versions.

(** The global [Number(text)]: the runtime's numeric reading of a string,
    which is not code of the library. *)
Variable stringToNumber : string -> number.

Definition compareVersions (a b : string) : Z :=
  compareParts (map stringToNumber (splitOn "." a)) (map stringToNumber (splitOn "." b)).

End Versions.

(** *** The progress-line buffer ([executor/progress-parser.ts]) *)

(** [s.split(/\r?\n/)]: a line feed, with the carriage return right before
    it when there is one, separates two pieces. *)
Definition CR : ascii := ascii_of_nat 13.
Definition LF : ascii := ascii_of_nat 10.

Fixpoint splitLines (s : string) : list string :=
  match s with
  | EmptyString => [EmptyString]
  | String a s' =>
      if Ascii.eqb a LF then EmptyString :: splitLines s'
      else
        match s' with
        | String b s'' =>
            if Ascii.eqb a CR && Ascii.eqb b LF then EmptyString :: splitLines s''
            else match splitLines s' with
                 | first :: rest => String a first :: rest
                 | [] => [String a EmptyString]
                 end
        | EmptyString => [String a EmptyString]
        end
  end.

Fixpoint hasChar (c : ascii) (s : string) : bool :=
  match s with
  | EmptyString => false
  | String a s' => Ascii.eqb a c || hasChar c s'
  end.

(** One call of the function [createProgressParser] returns, on the buffer
    it closes over: the lines handed to [parseProgressLine], in order, and
    the buffer it leaves. *)
Definition feedChunk (buffer chunk : string) : list string * string :=
  let lines := splitLines (buffer +:+ chunk) in
  let buffer1 := default "" (last lines) in
  let complete := removelast lines in
  if hasChar CR buffer1 then
    let crLines := splitOn CR buffer1 in
    (complete ++ removelast crLines, default "" (last crLines))
  else (complete, buffer1).


(** ** Predicates of the further properties *)

(** [ref] is the id of an input of [graph]. *)
Definition resolves (graph : MediaGraph) (ref : string) : Prop :=
  exists input, In input (inputs graph) /\ id input = ref.

(** [r] is the input reference of a video stream, of an overlay filter in
    a video stream, or of an audio stream of [graph]. *)
Definition overlayRefOf (stream : VideoStream) (r : string) : Prop :=
  exists x y enableAlpha shortest,
    In (Overlay r x y enableAlpha shortest) (vs_filters stream).

Definition referencedBy (graph : MediaGraph) (r : string) : Prop :=
  (exists stream, In stream (videoStreams graph)
                  /\ (vs_inputRef stream = r \/ overlayRefOf stream r))
  \/ (exists stream, In stream (audioStreams graph) /\ as_inputRef stream = r).


Definition crfInRange (graph : MediaGraph) : Prop :=
  forall v crf,
    out_video (output graph) = Some v -> vc_crf v = Some crf ->
    Js.lt crf (Js.ofZ 0) = false /\ Js.gt crf (Js.ofZ 63) = false.

(** What [validateGraph] checks, as one statement about the graph. *)
Definition passesChecks (graph : MediaGraph) : Prop :=
  inputs graph <> []
  /\ destinationMissing (destination (output graph)) = false
  /\ (forall r, referencedBy graph r -> resolves graph r)
  /\ (forall stream filter,
         In stream (videoStreams graph) -> In filter (vs_filters stream) ->
         validateVideoFilter filter (getInputIds graph) = [])
  /\ (forall stream filter,
         In stream (audioStreams graph) -> In filter (as_filters stream) ->
         validateAudioFilter filter = [])
  /\ crfInRange graph.


(** [validateCrf] of [utils/validation.ts]. *)
Definition validateCrf (crf : number) : Completion ValidationError :=
  validateRange crf (Js.ofZ 0) (Js.ofZ 63) "crf".

(** A filter-option value read with the backslash as escape character, a
    backslash taking the next character with it: does a colon, the option
    separator, stand unescaped in [s]?  [escaped] tells that the character
    before was such a backslash. *)
Fixpoint bareColon (escaped : bool) (s : string) : bool :=
  match s with
  | EmptyString => false
  | String c s' =>
      if escaped then bareColon false s'
      else if Ascii.eqb c "\" then bareColon true s'
      else Ascii.eqb c ":" || bareColon false s'
  end.

(** [s] holds no backslash, colon or single quote. *)
Fixpoint plainValue (s : string) : bool :=
  match s with
  | EmptyString => true
  | String c s' =>
      negb (Ascii.eqb c "\") && negb (Ascii.eqb c ":") && negb (Ascii.eqb c "'")
      && plainValue s'
  end.


(** ** Predicates on the parts of the filter graph *)

(** [p] ends with the pad [[label]]. *)
Definition PadLast (label p : string) : Prop :=
  exists a, p = a +:+ "[" +:+ label +:+ "]".

(** The label [v_k] the walk gives to the part it pushes at position [k]. *)
Definition stageLabel (k : nat) : string := "v_" +:+ Js.natToString k.

(** Each part writes the label of its position. *)
Definition Writes (parts : list string) : Prop :=
  forall k p, parts !! k = Some p -> PadLast (stageLabel k) p.

(** Each part but the first reads the label of the position before it. *)
Definition Reads (parts : list string) : Prop :=
  forall k q, parts !! S k = Some q -> PadFirst (stageLabel k) q.

(** Once a part is pushed, the current label is the one it writes. *)
Definition AtLastLabel (w : VideoWalk) : Prop :=
  filterParts w <> [] ->
  currentLabel w = stageLabel (length (filterParts w) - 1).

(** What the walk keeps true of its parts and its current label. *)
Definition LinkedWalk (w : VideoWalk) : Prop :=
  Writes (filterParts w) /\ Reads (filterParts w) /\ AtLastLabel w.


(** ** What a chain started by [video] keeps true *)

(** The state of a chain whose first input got the id [input_n]: that id is
    the primary one; the inputs carry ids drawn from the counter, each
    once and all below the counter's value; there is one video and one
    audio stream, both on the primary input; and every overlay refers to an
    input of the graph. *)
Definition BuiltFrom (n : nat) (b : Building) : Prop :=
  let graph := chainGraph (chain b) in
  primaryInputId (chain b) = Some (inputIdOf n)
  /\ (exists ks,
         map id (inputs graph) = map inputIdOf (n :: ks)
         /\ List.NoDup (n :: ks)
         /\ Forall (fun k => (k < inputCounter b)%nat) (n :: ks))
  /\ (exists stream,
         videoStreams graph = [stream]
         /\ vs_inputRef stream = inputIdOf n
         /\ forall r, overlayRefOf stream r -> In r (map id (inputs graph)))
  /\ (exists stream,
         audioStreams graph = [stream] /\ as_inputRef stream = inputIdOf n).

(** A call that cannot go through: an overlay without a source. *)
Definition sourcelessOverlay (c : Call) : Prop :=
  exists src o, c = CallOverlay src o /\ overlaySourceOf src = None.


(** [save(path)] up to the call of the runner: the chain with its
    destination set, handed to [toArgs]. *)
Definition savedTo (d : OutputDestination) (b : Building) : MediaChain :=
  {| chainGraph := withDestination (chainGraph (chain b)) d;
     primaryInputId := primaryInputId (chain b) |}.

(** The operand of ["-i"] for a source. *)
Definition sourceOperand (source : InputSource) : string :=
  match source with
  | SourcePath p => p
  | SourceStream => "pipe:0"
  end.


(** The two input pads of an overlay part. *)
Definition overlayPads (cur overlayLabel : string) : string :=
  "[" +:+ cur +:+ "][" +:+ overlayLabel +:+ "]".


(** ** Further example graphs *)

(** One input and a destination, no stream. *)
Definition streamlessGraph : MediaGraph :=
  {| inputs := [fileInput "input_0" "in.mp4"];
     videoStreams := [];
     audioStreams := [];
     output := outputTo "out.mp4" None;
     options := defaultOptions |}.

Definition crfConfig (crf : number) : VideoCodecConfig :=
  {| vc_codec := VC_h264; vc_bitrate := None; vc_maxBitrate := None;
     vc_bufferSize := None; vc_crf := Some crf; vc_preset := None; vc_profile := None;
     vc_pixelFormat := None; vc_pass := None; vc_options := None |}.

(** What [video("in.mp4").crf(crf)] builds. *)
Definition crfGraph (crf : number) : MediaGraph :=
  {| inputs := [fileInput "input_0" "in.mp4"];
     videoStreams := [videoOf "input_0" [] None];
     audioStreams := [audioOf "input_0" [] None];
     output := outputTo "out.mp4" (Some (crfConfig crf));
     options := defaultOptions |}.

(** One input, flipped, at 30 frames per second, twice as loud. *)
Definition flipGraph : MediaGraph :=
  {| inputs := [fileInput "input_0" "in.mp4"];
     videoStreams := [videoOf "input_0" [Flip Horizontal; Fps (Js.ofZ 30) None] None];
     audioStreams := [audioOf "input_0" [Volume (ENum (Js.ofZ 2)) None] None];
     output := outputTo "out.mp4" None;
     options := defaultOptions |}.

(** The overlay graph with a flip after the overlay. *)
Definition overlayFlipGraph : MediaGraph :=
  {| inputs := [fileInput "input_0" "base.mp4"; fileInput "input_1" "logo.png"];
     videoStreams := [videoOf "input_0" [overlayAt10 "input_1"; Flip Horizontal] None];
     audioStreams := [audioOf "input_0" [] None];
     output := outputTo "out.mp4" None;
     options := defaultOptions |}.

(** ** What [validateGraph] has to report *)

(** The error each check of [validateGraph] stands for, with the condition
    under which the check fails: no input; no destination; a reference to
    an input that is not there; per video stream, in the order of the
    streams, a dangling input reference or an error of one of its filters;
    the same per audio stream; a CRF out of range. *)
Definition reportedBy (graph : MediaGraph) (e : ValidationError) : Prop :=
  (inputs graph = []
   /\ e = newValidationError "At least one input is required" None)
  \/ (destinationMissing (destination (output graph)) = true
      /\ e = newValidationError "Output destination is required" None)
  \/ (exists r,
         referencedBy graph r /\ ~ resolves graph r
         /\ e = newValidationError
                  ("Referenced input " +:+ quoted r +:+ " does not exist") None)
  \/ (exists i stream,
         videoStreams graph !! i = Some stream
         /\ ((~ resolves graph (vs_inputRef stream)
              /\ e = newValidationError
                       ("Video stream " +:+ Js.natToString i
                        +:+ " references non-existent input "
                        +:+ quoted (vs_inputRef stream)) None)
             \/ exists filter,
                 In filter (vs_filters stream)
                 /\ In e (validateVideoFilter filter (getInputIds graph))))
  \/ (exists i stream,
         audioStreams graph !! i = Some stream
         /\ ((~ resolves graph (as_inputRef stream)
              /\ e = newValidationError
                       ("Audio stream " +:+ Js.natToString i
                        +:+ " references non-existent input "
                        +:+ quoted (as_inputRef stream)) None)
             \/ exists filter,
                 In filter (as_filters stream) /\ In e (validateAudioFilter filter)))
  \/ (exists v crf,
         out_video (output graph) = Some v /\ vc_crf v = Some crf
         /\ Js.lt crf (Js.ofZ 0) || Js.gt crf (Js.ofZ 63) = true
         /\ e = newValidationError "CRF must be between 0 and 63" (Some "crf")).

(** ** [audioCodec] of [MediaChain], and a muted chain *)

(** [ensureAudioCodecConfig] and [audioCodec]. *)
Definition ensureAudioCodecConfig (graph : MediaGraph) : AudioCodecConfig :=
  match out_audio (output graph) with
  | Some a => a
  | None =>
      {| ac_codec := AC_aac; ac_bitrate := None; ac_sampleRate := None;
         ac_channels := None; ac_options := None |}
  end.

Definition withAudioConfig (graph : MediaGraph) (a : AudioCodecConfig) : MediaGraph :=
  withOutput graph
    {| destination := destination (output graph); out_format := out_format (output graph);
       out_video := out_video (output graph); out_audio := Some a;
       metadata := metadata (output graph); flags := flags (output graph) |}.

Definition chainAudioCodec (codec : AudioCodec) (b : Building) : Outcome Building :=
  let graph := chainGraph (chain b) in
  let a := ensureAudioCodecConfig graph in
  Returned
    (setGraph b
       (withAudioConfig graph
          {| ac_codec := codec; ac_bitrate := ac_bitrate a;
             ac_sampleRate := ac_sampleRate a; ac_channels := ac_channels a;
             ac_options := ac_options a |})).

(** [video("in.mp4").mute().audioCodec("aac")], about to be saved to
    ["out.mp4"]. *)
Definition mutedAacChain : MediaChain :=
  savedTo (DestPath "out.mp4")
    (stateOf
       (andThen (andThen (video (SourcePath "in.mp4") 0) chainMute)
                (chainAudioCodec AC_aac))).

(** * Properties *)

(** ** Lists and strings *)

Lemma existsb_false_Forall {A : Type} (p : A -> bool) (l : list A) :
  existsb p l = false <-> Forall (fun x => p x = false) l.
Proof.
  induction l as [|x l IH]; simpl.
  - split; [constructor | reflexivity].
  - rewrite orb_false_iff, IH. split.
    + intros [Hx Hl]. now constructor.
    + intros H. inversion H; subst. now split.
Qed.

Lemma find_existsb {A : Type} (p : A -> bool) (l : list A) (x : A) :
  find p l = Some x -> existsb p l = true.
Proof.
  intros H. apply existsb_exists. exists x.
  apply find_some in H. exact H.
Qed.

Lemma existsb_find {A : Type} (p : A -> bool) (l : list A) :
  existsb p l = true -> exists x, find p l = Some x.
Proof.
  induction l as [|y l IH]; simpl; [discriminate|].
  destruct (p y); [eauto | exact IH].
Qed.

(** [simpl] leaves [+:+] alone; these two equations unfold it. *)
Lemma append_nil_l (b : string) : "" +:+ b = b.
Proof. reflexivity. Qed.

Lemma append_cons (x : ascii) (a b : string) : String x a +:+ b = String x (a +:+ b).
Proof. reflexivity. Qed.

Lemma append_assoc (a b c : string) : (a +:+ b) +:+ c = a +:+ (b +:+ c).
Proof.
  induction a as [|x a IH]; [reflexivity|].
  now rewrite !append_cons, IH.
Qed.

Lemma append_nil_r (a : string) : a +:+ "" = a.
Proof.
  induction a as [|x a IH]; [reflexivity|].
  now rewrite append_cons, IH.
Qed.

Lemma append_eq_self (a b : string) : a +:+ b = a -> b = "".
Proof.
  induction a as [|x a IH]; [trivial|].
  rewrite append_cons. intros H. injection H as H. now apply IH.
Qed.

Lemma append_nonempty_r (a b : string) : b <> "" -> a +:+ b <> "".
Proof. destruct a; [trivial | rewrite append_cons; discriminate]. Qed.

(** ** C1: the classifier *)

Lemma requiresComplexFilter_iff (graph : MediaGraph) :
  requiresComplexFilter graph = true <-> needsComplex graph.
Proof.
  unfold requiresComplexFilter, needsComplex.
  destruct (1 <? length (inputs graph))%nat eqn:Hi.
  { apply Nat.ltb_lt in Hi. tauto. }
  apply Nat.ltb_ge in Hi.
  destruct (existsb _ (videoStreams graph)) eqn:Ho.
  { split; [intros _ | reflexivity]. right; left.
    apply existsb_exists in Ho as (stream & Hs & Hf).
    apply existsb_exists in Hf as (filter & Hf & Hk).
    now exists stream, filter. }
  assert (Hno : ~ exists stream filter,
             In stream (videoStreams graph) /\ In filter (vs_filters stream)
             /\ isOverlay filter = true).
  { intros (stream & filter & Hs & Hf & Hk).
    apply not_true_iff_false in Ho. apply Ho.
    apply existsb_exists. exists stream. split; [exact Hs|].
    apply existsb_exists. now exists filter. }
  destruct (Nat.ltb_spec 1 (length (videoStreams graph))) as [Hv | Hv];
    destruct (Nat.ltb_spec 1 (length (audioStreams graph))) as [Ha | Ha]; simpl;
    (split; [intros Hx; first [tauto | discriminate Hx]
            | intros [H | [H | [H | H]]];
              first [reflexivity | lia | contradiction]]).
Qed.

(** C1.  The classifier answers [true] exactly under the decision rule of
    the specification; [compile] then runs the complex compiler, and
    otherwise the simple one.  A graph with exactly one input, no overlay
    filter and at most one stream of each kind is classified [false] and
    compiled by the simple compiler. *)
Theorem classifier_routes_compilation (graph : MediaGraph) :
  (requiresComplexFilter graph = true <-> needsComplex graph)
  /\ (needsComplex graph ->
      requiresComplexFilter graph = true /\ compile graph = compileComplex graph)
  /\ (~ needsComplex graph ->
      requiresComplexFilter graph = false /\ compile graph = compileSimple graph)
  /\ (length (inputs graph) = 1%nat ->
      (forall stream filter,
          In stream (videoStreams graph) -> In filter (vs_filters stream) ->
          isOverlay filter = false) ->
      (length (videoStreams graph) <= 1)%nat ->
      (length (audioStreams graph) <= 1)%nat ->
      requiresComplexFilter graph = false /\ compile graph = compileSimple graph).
Proof.
  pose proof (requiresComplexFilter_iff graph) as Hiff.
  assert (Hsimple : ~ needsComplex graph ->
            requiresComplexFilter graph = false /\ compile graph = compileSimple graph).
  { intros Hn. unfold compile.
    destruct (requiresComplexFilter graph); [|now split].
    exfalso. apply Hn, Hiff. reflexivity. }
  split; [exact Hiff|].
  split.
  { intros Hc. apply Hiff in Hc. unfold compile. rewrite Hc. now split. }
  split; [exact Hsimple|].
  intros H1 Hno Hv Ha. apply Hsimple.
  intros [H | [(s & f & Hs & Hf & Hk) | [H | H]]]; try lia.
  rewrite (Hno s f Hs Hf) in Hk. discriminate.
Qed.

(** ** C7: [validateGraph] and [assertValid] *)

Lemma valid_iff_no_errors (graph : MediaGraph) :
  valid (validateGraph graph) = true <-> errors (validateGraph graph) = [].
Proof.
  change (valid (validateGraph graph))
    with (length (errors (validateGraph graph)) =? 0)%nat.
  destruct (errors (validateGraph graph)); simpl; split; congruence.
Qed.

(** The checks do not stop at the first failure: the empty graph fails both
    the input check and the destination check, in that order. *)
Example validateGraph_accumulates :
  map message (errors (validateGraph createMediaGraph))
  = ["At least one input is required"; "Output destination is required"].
Proof. reflexivity. Qed.

Lemma in_concat_imap {A B : Type} (f : nat -> A -> list B) (l : list A) (x : A) (e : B) :
  In x l -> (forall i, In e (f i x)) -> In e (concat (imap f l)).
Proof.
  revert f. induction l as [|a l IH]; intros f Hin He; [contradiction|].
  simpl. apply in_or_app. destruct Hin as [-> | Hin].
  - left. apply He.
  - right. apply IH; [exact Hin|]. intros i. apply He.
Qed.

(** Every error a filter check finds is in the list [validateGraph]
    returns, whatever else was found before it. *)
Lemma validateGraph_collects_filter_errors (graph : MediaGraph) (e : ValidationError) :
  (exists stream filter,
      In stream (videoStreams graph) /\ In filter (vs_filters stream)
      /\ In e (validateVideoFilter filter (getInputIds graph)))
  \/ (exists stream filter,
         In stream (audioStreams graph) /\ In filter (as_filters stream)
         /\ In e (validateAudioFilter filter)) ->
  In e (errors (validateGraph graph)).
Proof.
  intros H. unfold validateGraph. cbn [errors]. rewrite !in_app_iff.
  destruct H as [(stream & filter & Hs & Hf & He) | (stream & filter & Hs & Hf & He)].
  - do 3 right. left. apply (in_concat_imap _ _ stream e Hs).
    intros i. unfold validateVideoStream. apply in_or_app. right.
    apply in_concat. eexists. split; [|exact He].
    apply in_map_iff. now exists filter.
  - do 4 right. left. apply (in_concat_imap _ _ stream e Hs).
    intros i. unfold validateAudioStream. apply in_or_app. right.
    apply in_concat. eexists. split; [|exact He].
    apply in_map_iff. now exists filter.
Qed.

(** ** C6: the frame-rate check *)

Lemma fps_check (value : number) (round : option FpsRound) (inputIds : Js.StringSet.t) :
  validateVideoFilter (Fps value round) inputIds = []
  <-> Js.le value (Js.ofZ 0) = false /\ Js.gt value (Js.ofZ 240) = false.
Proof.
  simpl. unfold pushIf.
  destruct (Js.le value (Js.ofZ 0)), (Js.gt value (Js.ofZ 240)); simpl;
    split; try tauto; try discriminate; intros [? ?]; discriminate.
Qed.

(** C6.  A frame rate of one half is below 1, and the validator reports
    nothing for it: the filter check returns no error and the graph that
    holds the filter is valid.  [validateFps], the range check of
    [utils/validation.ts] for the same quantity, throws on it. *)
Theorem fps_below_one_is_accepted :
  Js.lt half (Js.ofZ 1) = true
  /\ validateVideoFilter (Fps half None) (getInputIds halfFpsGraph) = []
  /\ validateGraph halfFpsGraph = {| valid := true; errors := []; warnings := [] |}
  /\ exists e, validateFps half = Throw e.
Proof.
  split; [reflexivity|]. split; [reflexivity|]. split; [reflexivity|].
  eexists. reflexivity.
Qed.

(** ** C5: escaping of free-text values *)

Lemma replaceAll_app (c : ascii) (r a b : string) :
  Js.replaceAll c r (a +:+ b) = Js.replaceAll c r a +:+ Js.replaceAll c r b.
Proof.
  induction a as [|x a IH]; [reflexivity|].
  rewrite append_cons. simpl.
  destruct (Ascii.eqb x c); rewrite IH; [|reflexivity].
  now rewrite append_assoc.
Qed.

Lemma escapeValue_cons (c : ascii) (s : string) :
  escapeValue (String c s) = escapeChar c +:+ escapeValue s.
Proof.
  unfold escapeValue, escapeChar. simpl.
  destruct (Ascii.eqb_spec c "\") as [->|Hb]; [reflexivity|].
  simpl.
  destruct (Ascii.eqb_spec c ":") as [->|Hc]; [reflexivity|].
  simpl.
  destruct (Ascii.eqb_spec c "'") as [->|Hq]; reflexivity.
Qed.

(** Backslashes and colons do round-trip: on a value without a single quote,
    unescaping the escaped value gives the value back. *)
Lemma escape_round_trip_without_quote (s : string) :
  hasQuote s = false -> unescapeValue (escapeValue s) = s.
Proof.
  induction s as [|c s IH]; [reflexivity|].
  simpl hasQuote. intros H. apply orb_false_iff in H as [Hq Hs].
  rewrite escapeValue_cons. unfold escapeChar. rewrite Hq.
  destruct (Ascii.eqb_spec c "\") as [->|Hb].
  { rewrite !append_cons, append_nil_l. simpl. now rewrite IH. }
  destruct (Ascii.eqb_spec c ":") as [->|Hc].
  { rewrite !append_cons, append_nil_l. simpl. now rewrite IH. }
  rewrite append_cons, append_nil_l. simpl.
  apply Ascii.eqb_neq in Hb. rewrite Hb. now rewrite IH.
Qed.

(** C5.  A single quote is replaced by the four characters ['\''], of which
    unescaping leaves three quotes, not the one that was written; the fade
    serializer embeds the four characters as they are. *)
Theorem escape_quote_round_trip_fails :
  escapeValue "'" = "'\''"
  /\ unescapeValue (escapeValue "'") = "'''"
  /\ serializeVideoFilter (Fade FadeIn (Js.ofZ 0) (Js.ofZ 1) (Some "'"))
     = "fade=t=in:st=0:d=1:c='\''".
Proof. repeat split; reflexivity. Qed.

(** ** C4 and C10: trim filters *)

Lemma timeParts_nonempty (start end_ duration : option number) :
  is_Some start \/ is_Some end_ \/ is_Some duration ->
  (0 <? length (timeParts start end_ duration))%nat = true.
Proof.
  intros H. unfold timeParts.
  destruct start as [s|]; [reflexivity|].
  destruct end_ as [e|]; [reflexivity|].
  destruct duration as [d|]; [reflexivity|].
  destruct H as [[x Hx] | [[x Hx] | [x Hx]]]; discriminate.
Qed.

(** C4.  A video trim filter with a start, an end or a duration serializes
    to its trim expression followed, in the same string, by
    [,setpts=PTS-STARTPTS]; the result is never the trim expression alone. *)
Theorem trim_is_followed_by_setpts (start end_ duration : option number) :
  is_Some start \/ is_Some end_ \/ is_Some duration ->
  serializeVideoFilter (Trim start end_ duration)
  = ("trim=" +:+ Js.join ":" (timeParts start end_ duration)) +:+ ",setpts=PTS-STARTPTS"
  /\ serializeVideoFilter (Trim start end_ duration)
     <> "trim=" +:+ Js.join ":" (timeParts start end_ duration).
Proof.
  intros H. apply timeParts_nonempty in H.
  assert (Heq : serializeVideoFilter (Trim start end_ duration)
                = ("trim=" +:+ Js.join ":" (timeParts start end_ duration))
                  +:+ ",setpts=PTS-STARTPTS").
  { unfold serializeVideoFilter. rewrite H. now rewrite append_assoc. }
  split; [exact Heq|].
  rewrite Heq. intros Habs. apply append_eq_self in Habs. discriminate.
Qed.

(** C10.  With start, end and duration all absent, the video trim filter
    serializes to [null] and the audio trim filter to [anull], with no
    timestamp reset. *)
Theorem empty_trim_is_identity_filter :
  serializeVideoFilter (Trim None None None) = "null"
  /\ serializeAudioFilter (ATrim None None None) = "anull".
Proof. split; reflexivity. Qed.

(** ** C8: scale dimensions *)

Lemma compare_ofZ (a b : Z) :
  Js.compare (Js.ofZ a) (Js.ofZ b) = Some (a ?= b)%Z.
Proof.
  unfold Js.compare, Js.ofZ, Qc_of_Z, Qccompare, Qcompare, inject_Z. simpl.
  rewrite !Z.mul_1_r. reflexivity.
Qed.

Lemma seq_ofZ (a b : Z) : Js.seq (Js.ofZ a) (Js.ofZ b) = (a =? b)%Z.
Proof.
  unfold Js.seq. rewrite compare_ofZ.
  destruct (Z.eqb_spec a b) as [->|Hne].
  - now rewrite Z.compare_refl.
  - destruct (Z.compare_spec a b); [contradiction | reflexivity | reflexivity].
Qed.

Lemma effectiveDimension_auto (d : option number) :
  autoDimension d -> effectiveDimension d = Js.ofZ (-2).
Proof. intros [-> | ->]; reflexivity. Qed.

Lemma effectiveDimension_explicit (v : Z) :
  v <> -1 -> effectiveDimension (Some (Js.ofZ v)) = Js.ofZ v.
Proof.
  intros Hv. unfold effectiveDimension. simpl.
  rewrite seq_ofZ. apply Z.eqb_neq in Hv. now rewrite Hv.
Qed.

Lemma effectiveDimension_never_raw (d : option number) :
  Js.seq (effectiveDimension d) (Js.ofZ (-1)) = false.
Proof.
  unfold effectiveDimension.
  destruct (Js.seq (default (Js.ofZ (-2)) d) (Js.ofZ (-1))) eqn:H;
    [reflexivity | exact H].
Qed.

Lemma serializeVideoFilter_scale
      (width height : option number) (algorithm : option ScaleAlgorithm)
      (force : option ForceAspect) :
  exists rest,
    serializeVideoFilter (Scale width height algorithm force)
    = "scale=w=" +:+ numStr (effectiveDimension width)
      +:+ ":h=" +:+ numStr (effectiveDimension height) +:+ rest
    /\ (algorithm = None -> force = None -> rest = "").
Proof.
  unfold serializeVideoFilter.
  set (W := numStr (effectiveDimension width)).
  set (H := numStr (effectiveDimension height)).
  destruct algorithm as [a|], force as [f|].
  - exists (":flags=" +:+ ScaleAlgorithm_str a
            +:+ ":force_original_aspect_ratio=" +:+ ForceAspect_str f).
    split; [|discriminate].
    destruct a, f; cbn -[String.append numStr effectiveDimension];
      unfold Js.join; cbn -[String.append numStr effectiveDimension];
      rewrite ?append_assoc, ?append_nil_l; reflexivity.
  - exists (":flags=" +:+ ScaleAlgorithm_str a).
    split; [|discriminate].
    destruct a; cbn -[String.append numStr effectiveDimension];
      unfold Js.join; cbn -[String.append numStr effectiveDimension];
      rewrite ?append_assoc, ?append_nil_l; reflexivity.
  - exists (":force_original_aspect_ratio=" +:+ ForceAspect_str f).
    split; [|discriminate].
    destruct f; cbn -[String.append numStr effectiveDimension];
      unfold Js.join; cbn -[String.append numStr effectiveDimension];
      rewrite ?append_assoc, ?append_nil_l; reflexivity.
  - exists "". split; [|reflexivity].
    cbn -[String.append numStr effectiveDimension];
      unfold Js.join; cbn -[String.append numStr effectiveDimension];
      rewrite ?append_assoc, ?append_nil_l, ?append_nil_r; reflexivity.
Qed.

(** C8.  When one dimension of a scale filter is automatic (absent, or
    [-1]) and the other is an explicit even value, the automatic one is
    written [-2] and the explicit one as it is, width first and height
    second; the optional flags follow.  No dimension is ever written from
    the value [-1].  Width 1920 and height 1080 give [w=1920:h=1080]. *)
Theorem scale_auto_dimension_is_codec_safe
        (v : Z) (d : option number)
        (algorithm : option ScaleAlgorithm) (force : option ForceAspect) :
  Z.even v = true ->
  autoDimension d ->
  (exists rest,
      serializeVideoFilter (Scale (Some (Js.ofZ v)) d algorithm force)
      = "scale=w=" +:+ numStr (Js.ofZ v) +:+ ":h=-2" +:+ rest
      /\ (algorithm = None -> force = None -> rest = ""))
  /\ (exists rest,
      serializeVideoFilter (Scale d (Some (Js.ofZ v)) algorithm force)
      = "scale=w=-2:h=" +:+ numStr (Js.ofZ v) +:+ rest
      /\ (algorithm = None -> force = None -> rest = ""))
  /\ Js.seq (effectiveDimension d) (Js.ofZ (-1)) = false
  /\ Js.seq (effectiveDimension (Some (Js.ofZ v))) (Js.ofZ (-1)) = false
  /\ serializeVideoFilter (Scale (Some (Js.ofZ 1920)) (Some (Js.ofZ 1080)) None None)
     = "scale=w=1920:h=1080".
Proof.
  intros Heven Hauto.
  assert (Hv : v <> -1) by (intros ->; discriminate Heven).
  pose proof (effectiveDimension_auto d Hauto) as Hd.
  pose proof (effectiveDimension_explicit v Hv) as He.
  split; [|split; [|split; [|split]]].
  - destruct (serializeVideoFilter_scale (Some (Js.ofZ v)) d algorithm force)
      as (rest & Heq & Hrest).
    exists rest. split; [|exact Hrest].
    rewrite Heq, Hd, He. reflexivity.
  - destruct (serializeVideoFilter_scale d (Some (Js.ofZ v)) algorithm force)
      as (rest & Heq & Hrest).
    exists rest. split; [|exact Hrest].
    rewrite Heq, Hd, He. reflexivity.
  - apply effectiveDimension_never_raw.
  - apply effectiveDimension_never_raw.
  - reflexivity.
Qed.

(** ** C3: graphs with every stream disabled *)

Lemma allVideoDisabled_hasVideoOutput (graph : MediaGraph) :
  allVideoDisabled graph -> hasVideoOutput graph = false.
Proof.
  unfold allVideoDisabled, hasVideoOutput. intros H.
  apply existsb_false_Forall. eapply Forall_impl; [exact H|].
  intros s Hs. unfold videoEnabled. now rewrite Hs.
Qed.

Lemma allAudioDisabled_hasAudioOutput (graph : MediaGraph) :
  allAudioDisabled graph -> hasAudioOutput graph = false.
Proof.
  unfold allAudioDisabled, hasAudioOutput. intros H.
  apply existsb_false_Forall. eapply Forall_impl; [exact H|].
  intros s Hs. unfold audioEnabled. now rewrite Hs.
Qed.

(** C3, as the code has it.  With every stream of a kind disabled, nothing
    of that kind reaches the filters or the maps, on either path: no filter
    flag, no filter part, no map.  The disable flag, however, is written
    only when the output has no codec configuration for that kind: both
    compilers test the codec configuration first, and with one set they
    write the codec block, the same block as for an enabled stream, and no
    disable flag.  With all streams of both kinds disabled the arguments
    are the global options, the inputs, the two blocks just described,
    metadata, output flags, format and destination. *)
Theorem codec_block_replaces_disable_flag (graph : MediaGraph) :
  (allVideoDisabled graph ->
   videoFilterArgs graph (hasVideoOutput graph) = []
   /\ videoGraph graph (hasVideoOutput graph) = ([], "")
   /\ (forall parts label, mapArgs (hasVideoOutput graph) parts label = [])
   /\ (out_video (output graph) = None ->
       videoCodecArgs graph (hasVideoOutput graph) = ["-vn"])
   /\ (forall v, out_video (output graph) = Some v ->
         videoCodecArgs graph (hasVideoOutput graph) = videoCodecArgs graph true
         /\ exists encoder rest,
             videoCodecArgs graph (hasVideoOutput graph) = "-c:v" :: encoder :: rest))
  /\ (allAudioDisabled graph ->
      audioFilterArgs graph (hasAudioOutput graph) = []
      /\ audioGraph graph (hasAudioOutput graph) = ([], "")
      /\ (forall parts label, mapArgs (hasAudioOutput graph) parts label = [])
      /\ (out_audio (output graph) = None ->
          audioCodecArgs graph (hasAudioOutput graph) = ["-an"])
      /\ (forall a, out_audio (output graph) = Some a ->
            audioCodecArgs graph (hasAudioOutput graph) = audioCodecArgs graph true
            /\ exists encoder rest,
                audioCodecArgs graph (hasAudioOutput graph) = "-c:a" :: encoder :: rest))
  /\ (allVideoDisabled graph -> allAudioDisabled graph ->
      compile graph
      = globalArgs (options graph) ++ inputsArgs graph
        ++ videoCodecArgs graph false ++ audioCodecArgs graph false
        ++ metadataArgs graph ++ outputFlagArgs graph ++ outputFormatArgs graph
        ++ destinationArgs graph
      /\ (out_video (output graph) = None -> In "-vn" (compile graph))
      /\ (out_audio (output graph) = None -> In "-an" (compile graph))).
Proof.
  split; [|split].
  - intros Hv. apply allVideoDisabled_hasVideoOutput in Hv. rewrite Hv.
    split; [reflexivity|]. split; [reflexivity|]. split; [reflexivity|].
    unfold videoCodecArgs. split.
    + now intros ->.
    + intros v ->. split; [reflexivity|].
      destruct (vc_codec v); eexists _, _; reflexivity.
  - intros Ha. apply allAudioDisabled_hasAudioOutput in Ha. rewrite Ha.
    split; [reflexivity|]. split; [reflexivity|]. split; [reflexivity|].
    unfold audioCodecArgs. split.
    + now intros ->.
    + intros a ->. split; [reflexivity|].
      destruct (ac_codec a); eexists _, _; reflexivity.
  - intros Hv Ha.
    apply allVideoDisabled_hasVideoOutput in Hv.
    apply allAudioDisabled_hasAudioOutput in Ha.
    assert (Hc : compile graph
                 = globalArgs (options graph) ++ inputsArgs graph
                   ++ videoCodecArgs graph false ++ audioCodecArgs graph false
                   ++ metadataArgs graph ++ outputFlagArgs graph
                   ++ outputFormatArgs graph ++ destinationArgs graph).
    { unfold compile, compileComplex, compileSimple, outputArgs.
      rewrite Hv, Ha.
      destruct (requiresComplexFilter graph); reflexivity. }
    rewrite Hc. split; [reflexivity|]. split.
    + intros Hn. unfold videoCodecArgs. rewrite Hn.
      rewrite !in_app_iff. right; right; left. now left.
    + intros Hn. unfold audioCodecArgs at 1. rewrite Hn.
      rewrite !in_app_iff. right; right; right; left. now left.
Qed.

(** ** C2: one overlay on the base stream *)

Lemma getInputIndex_head (graph : MediaGraph) (first : MediaInput) (rest : list MediaInput) :
  inputs graph = first :: rest -> getInputIndex graph (id first) = 0.
Proof.
  intros H. unfold getInputIndex. rewrite H. simpl.
  destruct (decide (id first = id first)); [reflexivity | contradiction].
Qed.

Lemma getInputIndex_second (graph : MediaGraph) (first second : MediaInput)
      (rest : list MediaInput) :
  inputs graph = first :: second :: rest ->
  id first <> id second ->
  getInputIndex graph (id second) = 1.
Proof.
  intros H Hne. unfold getInputIndex. rewrite H. simpl.
  destruct (decide (id first = id second)); [contradiction|].
  destruct (decide (id second = id second)); [reflexivity | contradiction].
Qed.

(** The audio side pushes no filter part when the selected audio stream, if
    there is one, has no filters. *)
Lemma audioGraph_without_filters (graph : MediaGraph) :
  (forall audioStream,
      find audioEnabled (audioStreams graph) = Some audioStream ->
      as_filters audioStream = []) ->
  exists label, audioGraph graph (hasAudioOutput graph) = ([], label).
Proof.
  intros H. unfold audioGraph.
  destruct (hasAudioOutput graph); [|now exists ""].
  destruct (find audioEnabled (audioStreams graph)) as [a|] eqn:Hf; [|now exists ""].
  rewrite (H a eq_refl). simpl. eauto.
Qed.

(** C2, as the code has it.  In a graph with two inputs of different ids,
    let the selected video stream read the first input and have as its only
    filter an overlay of the second input at x = 10, y = 10, with neither
    alpha nor shortest set, and let the selected audio stream, if any, have
    no filters.  Then the complex compiler emits [-filter_complex] with
    exactly the expression [[0:v][1:v]overlay=x=10:y=10[v_out]], followed at
    once by [-map] and [[v_out]]. *)
Theorem overlay_compiles_to_single_segment
        (graph : MediaGraph) (base second : MediaInput) (videoStream : VideoStream)
        (enableAlpha shortest : option bool) :
  inputs graph = [base; second] ->
  id base <> id second ->
  find videoEnabled (videoStreams graph) = Some videoStream ->
  vs_inputRef videoStream = id base ->
  vs_filters videoStream
  = [Overlay (id second) (ENum (Js.ofZ 10)) (ENum (Js.ofZ 10)) enableAlpha shortest] ->
  Js.truthyBool enableAlpha = false ->
  Js.truthyBool shortest = false ->
  (forall audioStream,
      find audioEnabled (audioStreams graph) = Some audioStream ->
      as_filters audioStream = []) ->
  exists post,
    compileComplex graph
    = globalArgs (options graph) ++ inputsArgs graph
      ++ ["-filter_complex"; "[0:v][1:v]overlay=x=10:y=10[v_out]"; "-map"; "[v_out]"]
      ++ post.
Proof.
  intros Hin Hne Hfind Href Hfilters Halpha Hshort Haudio.
  pose proof (find_existsb _ _ _ Hfind) as Hhas.
  change (existsb videoEnabled (videoStreams graph)) with (hasVideoOutput graph) in Hhas.
  assert (Hvideo : videoGraph graph true
                   = (["[0:v][1:v]overlay=x=10:y=10[v_out]"], "v_out")).
  { unfold videoGraph. rewrite Hfind, Hfilters, Href.
    rewrite (getInputIndex_head graph base [second] Hin).
    unfold fold_left, walkFilter, flushNormal. simpl normalFilters. simpl filterParts.
    rewrite (getInputIndex_second graph base second [] Hin Hne).
    unfold serializeVideoFilter. rewrite Halpha, Hshort.
    reflexivity. }
  destruct (audioGraph_without_filters graph Haudio) as [label Hlabel].
  unfold compileComplex. rewrite Hhas, Hvideo, Hlabel.
  eexists. reflexivity.
Qed.

(** ** C9: references to inputs that are not in the graph *)

Lemma getInputIndex_missing (graph : MediaGraph) (i : string) :
  (forall input, In input (inputs graph) -> id input <> i) ->
  getInputIndex graph i = -1.
Proof.
  unfold getInputIndex.
  induction (inputs graph) as [|x l IH]; intros H; [reflexivity|].
  simpl. destruct (decide (id x = i)) as [Heq|_].
  - exfalso. apply (H x); [now left | exact Heq].
  - destruct (list_find (fun input => id input = i) l) as [[n y]|] eqn:Hf.
    + specialize (IH (fun input Hin => H input (or_intror Hin))).
      simpl in IH. lia.
    + reflexivity.
Qed.

(** *** The relabelling of the last part keeps every pad before its tail *)

Lemma closesAtEnd_before_tail (x y : string) :
  y <> "" -> closesAtEnd (x +:+ "]" +:+ y) = false.
Proof.
  intros Hy. induction x as [|c x IH].
  - rewrite append_nil_l, append_cons, append_nil_l. simpl.
    now apply String.eqb_neq.
  - rewrite append_cons. simpl. destruct (Ascii.eqb c "]"); [|exact IH].
    apply String.eqb_neq. apply append_nonempty_r.
    rewrite append_cons. discriminate.
Qed.

Lemma labelBodyToEnd_before_tail (x y : string) :
  y <> "" -> labelBodyToEnd (x +:+ "]" +:+ y) = false.
Proof.
  intros Hy. destruct x as [|c x].
  - reflexivity.
  - rewrite append_cons. simpl.
    rewrite (closesAtEnd_before_tail x y Hy). apply andb_false_r.
Qed.

Lemma replaceTrailingLabel_before_tail (x y : string) :
  y <> "" ->
  replaceTrailingLabel (x +:+ "]" +:+ y) = x +:+ "]" +:+ replaceTrailingLabel y.
Proof.
  intros Hy. induction x as [|c x IH].
  - reflexivity.
  - change (String c x +:+ "]" +:+ y) with (String c (x +:+ "]" +:+ y)).
    cbn [replaceTrailingLabel].
    rewrite (labelBodyToEnd_before_tail x y Hy), andb_false_r.
    now rewrite IH.
Qed.

Lemma PadFirst_PadIn (label p : string) : PadFirst label p -> PadIn label p.
Proof. intros (b & Hp & Hb). now exists "", b. Qed.

Lemma PadIn_Embeds (label p : string) :
  PadIn label p -> Embeds ("[" +:+ label +:+ "]") p.
Proof.
  intros (a & b & Hp & _). exists a, b. rewrite Hp.
  now rewrite !append_assoc.
Qed.

Lemma replaceTrailingLabel_pad (a label b : string) :
  b <> "" ->
  replaceTrailingLabel (a +:+ "[" +:+ label +:+ "]" +:+ b)
  = a +:+ "[" +:+ label +:+ "]" +:+ replaceTrailingLabel b.
Proof.
  intros Hb.
  replace (a +:+ "[" +:+ label +:+ "]" +:+ b)
    with ((a +:+ "[" +:+ label) +:+ "]" +:+ b) by now rewrite !append_assoc.
  rewrite (replaceTrailingLabel_before_tail _ _ Hb).
  now rewrite !append_assoc.
Qed.

Lemma replaceTrailingLabel_PadFirst (label p : string) :
  PadFirst label p ->
  exists b, replaceTrailingLabel p = "[" +:+ label +:+ "]" +:+ b.
Proof.
  intros (b & -> & Hb). exists (replaceTrailingLabel b).
  exact (replaceTrailingLabel_pad "" label b Hb).
Qed.

Lemma replaceTrailingLabel_Embeds (label p : string) :
  PadIn label p -> Embeds ("[" +:+ label +:+ "]") (replaceTrailingLabel p).
Proof.
  intros (a & b & -> & Hb). exists a, (replaceTrailingLabel b).
  rewrite (replaceTrailingLabel_pad a label b Hb).
  now rewrite !append_assoc.
Qed.

Lemma relabelLast_snoc (init : list string) (x : string) :
  relabelLast (init ++ [x]) = init ++ [replaceTrailingLabel x].
Proof.
  unfold relabelLast. rewrite last_snoc.
  rewrite length_app. simpl length.
  replace (length init + 1 - 1)%nat with (length init + 0)%nat by lia.
  rewrite insert_app_r. reflexivity.
Qed.

(** *** The parts the walk pushes *)

Lemma label_tail_nonempty (expr label : string) : expr +:+ "[" +:+ label +:+ "]" <> "".
Proof. apply append_nonempty_r. rewrite append_cons. discriminate. Qed.

Lemma segment_PadFirst (cur chain next : string) :
  PadFirst cur (segment ("[" +:+ cur +:+ "]") chain next).
Proof.
  exists (chain +:+ "[" +:+ next +:+ "]"). split; [|apply label_tail_nonempty].
  unfold segment. now rewrite !append_assoc.
Qed.

Lemma overlaySegment_PadFirst (cur overlayLabel expr next : string) :
  PadFirst cur (segment ("[" +:+ cur +:+ "][" +:+ overlayLabel +:+ "]") expr next).
Proof.
  exists ("[" +:+ overlayLabel +:+ "]" +:+ expr +:+ "[" +:+ next +:+ "]").
  split; [|rewrite append_cons; discriminate].
  unfold segment. now rewrite !append_assoc.
Qed.

Lemma overlaySegment_PadIn (cur overlayLabel expr next : string) :
  PadIn overlayLabel
        (segment ("[" +:+ cur +:+ "][" +:+ overlayLabel +:+ "]") expr next).
Proof.
  exists ("[" +:+ cur +:+ "]"), (expr +:+ "[" +:+ next +:+ "]").
  split; [|apply label_tail_nonempty].
  unfold segment. now rewrite !append_assoc.
Qed.

Lemma flushNormal_FirstFrom (label : string) (w : VideoWalk) :
  FirstFrom label w -> FirstFrom label (flushNormal w).
Proof.
  intros H. unfold flushNormal.
  destruct (0 <? length (normalFilters w))%nat; [|exact H].
  right. destruct H as [[Hp Hl] | (p & ps & Hp & Hf)]; simpl; rewrite Hp.
  - rewrite Hl. eexists _, []. split; [reflexivity|]. apply segment_PadFirst.
  - exists p, (ps ++ [segment ("[" +:+ currentLabel w +:+ "]")
                        (Js.join "," (map serializeVideoFilter (normalFilters w)))
                        ("v_" +:+ Js.natToString (length (p :: ps)))]).
    split; [reflexivity | exact Hf].
Qed.

Lemma walkFilter_FirstFrom (graph : MediaGraph) (label : string) (w : VideoWalk)
      (filter : VideoFilter) :
  FirstFrom label w -> FirstFrom label (walkFilter graph w filter).
Proof.
  intros H. destruct filter; try exact H.
  apply flushNormal_FirstFrom in H. unfold walkFilter. right.
  destruct H as [[Hp Hl] | (p & ps & Hp & Hf)]; simpl; rewrite Hp.
  - rewrite Hl. eexists _, []. split; [reflexivity|]. apply overlaySegment_PadFirst.
  - eexists p, (ps ++ [_]). split; [reflexivity | exact Hf].
Qed.

Lemma walk_FirstFrom (graph : MediaGraph) (label : string) (filters : list VideoFilter) :
  forall w, FirstFrom label w ->
            FirstFrom label (fold_left (walkFilter graph) filters w).
Proof.
  induction filters as [|f fs IH]; intros w H; [exact H|].
  simpl. apply IH. now apply walkFilter_FirstFrom.
Qed.

Lemma flushNormal_parts (w : VideoWalk) :
  exists more, filterParts (flushNormal w) = filterParts w ++ more.
Proof.
  unfold flushNormal. destruct (0 <? length (normalFilters w))%nat.
  - eexists. reflexivity.
  - exists []. now rewrite app_nil_r.
Qed.

Lemma walkFilter_parts (graph : MediaGraph) (w : VideoWalk) (filter : VideoFilter) :
  exists more, filterParts (walkFilter graph w filter) = filterParts w ++ more.
Proof.
  destruct filter; try (exists []; now rewrite app_nil_r).
  unfold walkFilter. destruct (flushNormal_parts w) as [more Hm].
  simpl. rewrite Hm. rewrite <- app_assoc. eexists. reflexivity.
Qed.

Lemma walkFilter_HoldsPad (graph : MediaGraph) (label : string) (w : VideoWalk)
      (filter : VideoFilter) :
  HoldsPad label (filterParts w) ->
  HoldsPad label (filterParts (walkFilter graph w filter)).
Proof.
  intros (p & Hin & Hp). destruct (walkFilter_parts graph w filter) as [more ->].
  exists p. split; [|exact Hp]. apply in_or_app. now left.
Qed.

Lemma walk_HoldsPad (graph : MediaGraph) (label : string) (filters : list VideoFilter) :
  forall w, HoldsPad label (filterParts w) ->
            HoldsPad label (filterParts (fold_left (walkFilter graph) filters w)).
Proof.
  induction filters as [|f fs IH]; intros w H; [exact H|].
  simpl. apply IH. now apply walkFilter_HoldsPad.
Qed.

Lemma walkFilter_overlay_HoldsPad (graph : MediaGraph) (w : VideoWalk)
      (inputRef : string) (x y : Expr) (enableAlpha shortest : option bool) :
  HoldsPad (padLabel (getInputIndex graph inputRef) "v")
           (filterParts (walkFilter graph w (Overlay inputRef x y enableAlpha shortest))).
Proof.
  unfold walkFilter. simpl filterParts.
  eexists. split; [apply in_or_app; right; now left|].
  apply overlaySegment_PadIn.
Qed.

Lemma walkFilter_Started (graph : MediaGraph) (w : VideoWalk) (filter : VideoFilter) :
  Started (walkFilter graph w filter).
Proof.
  destruct filter;
    try (left; simpl; intros H; now apply app_eq_nil in H as [_ H]).
  right. unfold walkFilter. simpl filterParts.
  intros H. now apply app_eq_nil in H as [_ H].
Qed.

Lemma walk_Started (graph : MediaGraph) (filters : list VideoFilter) :
  forall w, Started w -> Started (fold_left (walkFilter graph) filters w).
Proof.
  induction filters as [|f fs IH]; intros w H; [exact H|].
  simpl. apply IH. apply walkFilter_Started.
Qed.

(** *** The end of the walk, and the joined expression *)

Lemma nonempty_snoc {A : Type} (l : list A) :
  l <> [] -> exists init x, l = init ++ [x].
Proof.
  intros H. destruct (exists_last H) as (init & x & ->). now exists init, x.
Qed.

Lemma finishVideoWalk_FirstFrom (label : string) (w : VideoWalk) :
  FirstFrom label w -> Started w ->
  exists b ps, fst (finishVideoWalk w) = ("[" +:+ label +:+ "]" +:+ b) :: ps.
Proof.
  intros Hfirst Hstarted. unfold finishVideoWalk.
  destruct (normalFilters w) as [|n ns] eqn:Hn.
  - destruct Hstarted as [H | Hparts]; [contradiction|].
    simpl length at 1. cbn [Nat.ltb Nat.leb].
    destruct Hfirst as [[Hp _] | (p & ps & Hp & Hf)]; [contradiction|].
    rewrite Hp. cbn [length Nat.ltb Nat.leb fst].
    destruct (nonempty_snoc (p :: ps)) as (init & x & Hsnoc); [discriminate|].
    rewrite Hsnoc, relabelLast_snoc.
    destruct init as [|i init].
    + injection Hsnoc as -> _.
      destruct (replaceTrailingLabel_PadFirst label x Hf) as [b Hb].
      exists b, []. now rewrite Hb.
    + injection Hsnoc as -> _. destruct Hf as (b & -> & _).
      now exists b, (init ++ [replaceTrailingLabel x]).
  - cbn [length Nat.ltb Nat.leb fst].
    destruct Hfirst as [[Hp Hl] | (p & ps & Hp & (b & -> & _))]; rewrite Hp.
    + rewrite Hl.
      destruct (segment_PadFirst label
                  (Js.join "," (map serializeVideoFilter (n :: ns))) "v_out")
        as (b & Hb & _).
      exists b, []. now rewrite Hb.
    + eexists b, (ps ++ [_]). reflexivity.
Qed.

Lemma finishVideoWalk_HoldsPad (label : string) (w : VideoWalk) :
  HoldsPad label (filterParts w) ->
  exists p, In p (fst (finishVideoWalk w)) /\ Embeds ("[" +:+ label +:+ "]") p.
Proof.
  intros (p & Hin & Hp). unfold finishVideoWalk.
  destruct (0 <? length (normalFilters w))%nat.
  - exists p. split; [apply in_or_app; now left | now apply PadIn_Embeds].
  - destruct (filterParts w) as [|q qs] eqn:Hparts; [contradiction|].
    cbn [length Nat.ltb Nat.leb fst].
    destruct (nonempty_snoc (q :: qs)) as (init & x & Hsnoc); [discriminate|].
    rewrite Hsnoc in Hin |- *. rewrite relabelLast_snoc.
    apply in_app_or in Hin as [Hin | [<- | []]].
    + exists p. split; [apply in_or_app; now left | now apply PadIn_Embeds].
    + exists (replaceTrailingLabel x).
      split; [apply in_or_app; right; now left|].
      now apply replaceTrailingLabel_Embeds.
Qed.

Lemma join_cons (sep p : string) (ps : list string) :
  exists rest, Js.join sep (p :: ps) = p +:+ rest.
Proof.
  destruct ps as [|q qs].
  - exists "". simpl. now rewrite append_nil_r.
  - eexists. reflexivity.
Qed.

Lemma join_Embeds (sep t : string) (parts : list string) (p : string) :
  In p parts -> Embeds t p -> Embeds t (Js.join sep parts).
Proof.
  intros Hin (x & y & Hp). induction parts as [|a l IH]; [contradiction|].
  destruct Hin as [-> | Hin].
  - destruct (join_cons sep p l) as [rest ->].
    exists x, (y +:+ rest). rewrite Hp. now rewrite !append_assoc.
  - destruct (IH Hin) as (x' & y' & Hjoin).
    destruct l as [|b l']; [contradiction|].
    exists (a +:+ sep +:+ x'), y'.
    change (Js.join sep (a :: b :: l')) with (a +:+ sep +:+ Js.join sep (b :: l')).
    rewrite Hjoin. now rewrite !append_assoc.
Qed.

Lemma compileComplex_with_parts (graph : MediaGraph) (p : string) (ps : list string) :
  fst (videoGraph graph (hasVideoOutput graph)) = p :: ps ->
  exists post,
    compileComplex graph
    = globalArgs (options graph) ++ inputsArgs graph
      ++ "-filter_complex"
         :: Js.join ";" ((p :: ps) ++ fst (audioGraph graph (hasAudioOutput graph)))
         :: post.
Proof.
  intros H. unfold compileComplex.
  destruct (videoGraph graph (hasVideoOutput graph)) as [vp vl].
  destruct (audioGraph graph (hasAudioOutput graph)) as [ap al].
  simpl in H. subst vp. eexists. reflexivity.
Qed.

Lemma videoGraph_selected (graph : MediaGraph) (videoStream : VideoStream) :
  find videoEnabled (videoStreams graph) = Some videoStream ->
  videoGraph graph (hasVideoOutput graph)
  = finishVideoWalk
      (fold_left (walkFilter graph) (vs_filters videoStream)
         {| filterParts := [];
            currentLabel := padLabel (getInputIndex graph (vs_inputRef videoStream)) "v";
            normalFilters := [] |}).
Proof.
  intros H. unfold videoGraph, hasVideoOutput.
  now rewrite (find_existsb _ _ _ H), H.
Qed.

Lemma dangling_stream_with_filters (graph : MediaGraph) (videoStream : VideoStream) :
  find videoEnabled (videoStreams graph) = Some videoStream ->
  missingInput graph (vs_inputRef videoStream) ->
  vs_filters videoStream <> [] ->
  exists rest post,
    compileComplex graph
    = globalArgs (options graph) ++ inputsArgs graph
      ++ "-filter_complex" :: ("[-1:v]" +:+ rest) :: post.
Proof.
  intros Hfind Hmiss Hfilters.
  pose proof (videoGraph_selected graph videoStream Hfind) as Hvideo.
  rewrite (getInputIndex_missing graph _ Hmiss) in Hvideo.
  change (padLabel (-1) "v") with "-1:v" in Hvideo.
  set (w0 := {| filterParts := []; currentLabel := "-1:v"; normalFilters := [] |}) in Hvideo.
  assert (Hfirst : FirstFrom "-1:v" (fold_left (walkFilter graph) (vs_filters videoStream) w0)).
  { apply walk_FirstFrom. left. now split. }
  assert (Hstarted : Started (fold_left (walkFilter graph) (vs_filters videoStream) w0)).
  { destruct (vs_filters videoStream) as [|f fs]; [contradiction|].
    simpl. apply walk_Started, walkFilter_Started. }
  destruct (finishVideoWalk_FirstFrom _ _ Hfirst Hstarted) as (b & ps & Hparts).
  rewrite <- Hvideo in Hparts.
  destruct (compileComplex_with_parts graph _ _ Hparts) as [post Hpost].
  destruct (join_cons ";" ("[" +:+ "-1:v" +:+ "]" +:+ b)
              (ps ++ fst (audioGraph graph (hasAudioOutput graph)))) as [rest Hrest].
  exists (b +:+ rest), post. rewrite Hpost.
  change ((("[" +:+ "-1:v" +:+ "]" +:+ b) :: ps)
          ++ fst (audioGraph graph (hasAudioOutput graph)))
    with (("[" +:+ "-1:v" +:+ "]" +:+ b)
          :: (ps ++ fst (audioGraph graph (hasAudioOutput graph)))).
  rewrite Hrest. reflexivity.
Qed.

Lemma dangling_stream_without_filters (graph : MediaGraph) (videoStream : VideoStream) :
  find videoEnabled (videoStreams graph) = Some videoStream ->
  missingInput graph (vs_inputRef videoStream) ->
  vs_filters videoStream = [] ->
  fst (videoGraph graph (hasVideoOutput graph)) = []
  /\ exists pre post, compileComplex graph = pre ++ "-map" :: "-1:v" :: post.
Proof.
  intros Hfind Hmiss Hfilters.
  pose proof (videoGraph_selected graph videoStream Hfind) as Hvideo.
  rewrite (getInputIndex_missing graph _ Hmiss), Hfilters in Hvideo.
  change (videoGraph graph (hasVideoOutput graph) = ([], "-1:v")) in Hvideo.
  split; [now rewrite Hvideo|].
  unfold compileComplex. rewrite Hvideo.
  rewrite (find_existsb _ _ _ Hfind : hasVideoOutput graph = true).
  destruct (audioGraph graph (hasAudioOutput graph)) as [ap al].
  assert (Hmap : mapArgs true ([] ++ ap) "-1:v" = ["-map"; "-1:v"]).
  { unfold mapArgs. change (Js.includes "_" "-1:v") with false.
    now rewrite andb_false_r. }
  rewrite Hmap.
  exists (globalArgs (options graph) ++ inputsArgs graph
          ++ (if (0 <? length ([] ++ ap))%nat
              then ["-filter_complex"; Js.join ";" ([] ++ ap)] else [])).
  eexists. rewrite <- !app_assoc. reflexivity.
Qed.

Lemma dangling_overlay (graph : MediaGraph) (videoStream : VideoStream)
      (inputRef : string) (x y : Expr) (enableAlpha shortest : option bool) :
  find videoEnabled (videoStreams graph) = Some videoStream ->
  In (Overlay inputRef x y enableAlpha shortest) (vs_filters videoStream) ->
  missingInput graph inputRef ->
  exists expr post,
    compileComplex graph
    = globalArgs (options graph) ++ inputsArgs graph
      ++ "-filter_complex" :: expr :: post
    /\ Embeds "[-1:v]" expr.
Proof.
  intros Hfind Hin Hmiss.
  pose proof (videoGraph_selected graph videoStream Hfind) as Hvideo.
  apply in_split in Hin as (l1 & l2 & Hsplit).
  rewrite Hsplit, fold_left_app in Hvideo.
  set (w1 := fold_left (walkFilter graph) l1 _) in Hvideo.
  change (fold_left (walkFilter graph)
            (Overlay inputRef x y enableAlpha shortest :: l2) w1)
    with (fold_left (walkFilter graph) l2
            (walkFilter graph w1 (Overlay inputRef x y enableAlpha shortest)))
    in Hvideo.
  pose proof (walkFilter_overlay_HoldsPad graph w1 inputRef x y enableAlpha shortest)
    as Hpad.
  rewrite (getInputIndex_missing graph _ Hmiss) in Hpad.
  change (padLabel (-1) "v") with "-1:v" in Hpad.
  apply (walk_HoldsPad graph "-1:v" l2) in Hpad.
  apply finishVideoWalk_HoldsPad in Hpad as (p & Hp & Hembeds).
  rewrite <- Hvideo in Hp.
  destruct (fst (videoGraph graph (hasVideoOutput graph))) as [|q qs] eqn:Hparts;
    [contradiction|].
  destruct (compileComplex_with_parts graph q qs Hparts) as [post Hpost].
  eexists _, post. split; [exact Hpost|].
  apply (join_Embeds ";" "[-1:v]" _ p); [apply in_or_app; now left | exact Hembeds].
Qed.

(** C9, as the code has it.  [getInputIndex] returns [-1] for an identifier
    that is the id of no input.  When the video stream the complex compiler
    selects refers to such an identifier, the compiler still produces its
    arguments: if the stream has a filter, the filter-graph expression
    starts with the pad [[-1:v]]; if it has none, no video part enters the
    filter graph and [-1:v] is the operand of [-map].  When an overlay of
    the selected stream refers to such an identifier, the filter-graph
    expression holds the pad [[-1:v]]. *)
Theorem missing_input_is_addressed_as_minus_one (graph : MediaGraph) :
  (forall i, missingInput graph i -> getInputIndex graph i = -1)
  /\ (forall videoStream,
         find videoEnabled (videoStreams graph) = Some videoStream ->
         missingInput graph (vs_inputRef videoStream) ->
         vs_filters videoStream <> [] ->
         exists rest post,
           compileComplex graph
           = globalArgs (options graph) ++ inputsArgs graph
             ++ "-filter_complex" :: ("[-1:v]" +:+ rest) :: post)
  /\ (forall videoStream,
         find videoEnabled (videoStreams graph) = Some videoStream ->
         missingInput graph (vs_inputRef videoStream) ->
         vs_filters videoStream = [] ->
         fst (videoGraph graph (hasVideoOutput graph)) = []
         /\ exists pre post, compileComplex graph = pre ++ "-map" :: "-1:v" :: post)
  /\ (forall videoStream inputRef x y enableAlpha shortest,
         find videoEnabled (videoStreams graph) = Some videoStream ->
         In (Overlay inputRef x y enableAlpha shortest) (vs_filters videoStream) ->
         missingInput graph inputRef ->
         exists expr post,
           compileComplex graph
           = globalArgs (options graph) ++ inputsArgs graph
             ++ "-filter_complex" :: expr :: post
           /\ Embeds "[-1:v]" expr).
Proof.
  split; [exact (getInputIndex_missing graph)|].
  split; [exact (dangling_stream_with_filters graph)|].
  split; [exact (dangling_stream_without_filters graph)|].
  intros videoStream inputRef x y enableAlpha shortest.
  exact (dangling_overlay graph videoStream inputRef x y enableAlpha shortest).
Qed.

(** * Further properties of the code *)

(** ** Sets of identifiers and input lookup ([ast/graph.ts]) *)

Lemma StringSet_has_In (s : Js.StringSet.t) (x : string) :
  Js.StringSet.has s x = true <-> In x s.
Proof.
  unfold Js.StringSet.has. rewrite existsb_exists. split.
  - intros (y & Hy & Heq). apply String.eqb_eq in Heq. now subst.
  - intros H. exists x. split; [exact H | apply String.eqb_refl].
Qed.

Lemma StringSet_add_In (s : Js.StringSet.t) (x y : string) :
  In y (Js.StringSet.add s x) <-> In y s \/ y = x.
Proof.
  unfold Js.StringSet.add. destruct (Js.StringSet.has s x) eqn:H.
  - apply StringSet_has_In in H. split; [tauto|]. intros [Hy | ->]; assumption.
  - rewrite in_app_iff. simpl. intuition (subst; auto).
Qed.

Lemma StringSet_add_NoDup (s : Js.StringSet.t) (x : string) :
  List.NoDup s -> List.NoDup (Js.StringSet.add s x).
Proof.
  intros Hs. unfold Js.StringSet.add. destruct (Js.StringSet.has s x) eqn:H; [exact Hs|].
  assert (Hx : ~ In x s).
  { intros Hin. apply StringSet_has_In in Hin. congruence. }
  clear H. induction Hs as [|a l Ha Hl IH]; simpl.
  - constructor; [intros [] | constructor].
  - constructor.
    + rewrite in_app_iff. intros [H | [<- | []]]; [now apply Ha|].
      apply Hx. now left.
    + apply IH. intros H. apply Hx. now right.
Qed.

Lemma StringSet_fold_add (l : list string) :
  forall s y, In y (fold_left Js.StringSet.add l s) <-> In y s \/ In y l.
Proof.
  induction l as [|x l IH]; intros s y; simpl; [tauto|].
  rewrite IH, StringSet_add_In. split.
  - intros [[H | ->] | H]; auto.
  - intros [H | [<- | H]]; auto.
Qed.

Lemma StringSet_fold_add_NoDup (l : list string) :
  forall s, List.NoDup s -> List.NoDup (fold_left Js.StringSet.add l s).
Proof.
  induction l as [|x l IH]; intros s Hs; simpl; [exact Hs|].
  apply IH. now apply StringSet_add_NoDup.
Qed.

Lemma getInputIds_has (graph : MediaGraph) (ref : string) :
  Js.StringSet.has (getInputIds graph) ref = true <-> resolves graph ref.
Proof.
  rewrite StringSet_has_In. unfold getInputIds, Js.StringSet.ofList.
  rewrite StringSet_fold_add. unfold Js.StringSet.empty, resolves.
  rewrite in_map_iff. split.
  - intros [[] | (input & Hid & Hin)]. now exists input.
  - intros (input & Hin & Hid). right. now exists input.
Qed.


Lemma overlay_fold_In (filters : list VideoFilter) :
  forall refs y,
    In y (fold_left
            (fun refs filter =>
               match filter with
               | Overlay inputRef _ _ _ _ => Js.StringSet.add refs inputRef
               | _ => refs
               end) filters refs)
    <-> In y refs
        \/ exists x' y' enableAlpha shortest,
             In (Overlay y x' y' enableAlpha shortest) filters.
Proof.
  induction filters as [|f fs IH]; intros refs y; simpl.
  - split; [tauto|]. intros [H | (? & ? & ? & ? & [])]. exact H.
  - rewrite IH. split.
    + intros [H | (x' & y' & ea & sh & H)].
      * destruct f; try (now left).
        apply StringSet_add_In in H as [H | ->]; [now left|].
        right. do 4 eexists. left. reflexivity.
      * right. exists x', y', ea, sh. now right.
    + intros [H | (x' & y' & ea & sh & [-> | H])].
      * left. destruct f; try exact H. apply StringSet_add_In. now left.
      * left. apply StringSet_add_In. now right.
      * right. now exists x', y', ea, sh.
Qed.

Lemma overlay_fold_NoDup (filters : list VideoFilter) :
  forall refs,
    List.NoDup refs ->
    List.NoDup (fold_left
                  (fun refs filter =>
                     match filter with
                     | Overlay inputRef _ _ _ _ => Js.StringSet.add refs inputRef
                     | _ => refs
                     end) filters refs).
Proof.
  induction filters as [|f fs IH]; intros refs H; simpl; [exact H|].
  apply IH. destruct f; try exact H. now apply StringSet_add_NoDup.
Qed.

Lemma addVideoRefs_In (stream : VideoStream) (refs : Js.StringSet.t) (y : string) :
  In y (addVideoRefs refs stream)
  <-> In y refs \/ vs_inputRef stream = y \/ overlayRefOf stream y.
Proof.
  unfold addVideoRefs, overlayRefOf. rewrite overlay_fold_In, StringSet_add_In.
  intuition (subst; auto).
Qed.

Lemma videoRefs_fold_In (streams : list VideoStream) :
  forall refs y,
    In y (fold_left addVideoRefs streams refs)
    <-> In y refs
        \/ exists stream, In stream streams
                          /\ (vs_inputRef stream = y \/ overlayRefOf stream y).
Proof.
  induction streams as [|s l IH]; intros refs y; simpl.
  - split; [tauto|]. intros [H | (? & [] & _)]. exact H.
  - rewrite IH, addVideoRefs_In. split.
    + intros [[H | H] | (stream & Hin & H)]; auto.
      * right. exists s. split; [now left | exact H].
      * right. exists stream. split; [now right | exact H].
    + intros [H | (stream & [<- | Hin] & H)]; auto.
      right. now exists stream.
Qed.

Lemma videoRefs_fold_NoDup (streams : list VideoStream) :
  forall refs, List.NoDup refs -> List.NoDup (fold_left addVideoRefs streams refs).
Proof.
  induction streams as [|s l IH]; intros refs H; simpl; [exact H|].
  apply IH. unfold addVideoRefs. apply overlay_fold_NoDup.
  now apply StringSet_add_NoDup.
Qed.

Lemma audioRefs_fold_In (streams : list AudioStream) :
  forall refs y,
    In y (fold_left (fun refs stream => Js.StringSet.add refs (as_inputRef stream))
                    streams refs)
    <-> In y refs \/ exists stream, In stream streams /\ as_inputRef stream = y.
Proof.
  induction streams as [|s l IH]; intros refs y; simpl.
  - split; [tauto|]. intros [H | (? & [] & _)]. exact H.
  - rewrite IH, StringSet_add_In. split.
    + intros [[H | ->] | (stream & Hin & H)]; auto.
      * right. exists s. split; [now left | reflexivity].
      * right. exists stream. split; [now right | exact H].
    + intros [H | (stream & [<- | Hin] & H)]; auto.
      right. now exists stream.
Qed.

Lemma audioRefs_fold_NoDup (streams : list AudioStream) :
  forall refs,
    List.NoDup refs ->
    List.NoDup (fold_left (fun refs stream => Js.StringSet.add refs (as_inputRef stream))
                          streams refs).
Proof.
  induction streams as [|s l IH]; intros refs H; simpl; [exact H|].
  apply IH. now apply StringSet_add_NoDup.
Qed.

(** X1.  [getReferencedInputs] holds exactly the input references of the
    video streams, of their overlay filters and of the audio streams, each
    of them once. *)
Theorem getReferencedInputs_collects_each_reference_once (graph : MediaGraph) :
  List.NoDup (getReferencedInputs graph)
  /\ forall r, In r (getReferencedInputs graph) <-> referencedBy graph r.
Proof.
  unfold getReferencedInputs. split.
  - apply audioRefs_fold_NoDup, videoRefs_fold_NoDup. constructor.
  - intros r. rewrite audioRefs_fold_In, videoRefs_fold_In.
    unfold referencedBy, Js.StringSet.empty. simpl. tauto.
Qed.

(** X2.  [getInputIndex] and [findInput] agree on the first input with the
    given id: when some input has the id, the index is the position of the
    first such input and [findInput] returns that input; when none has it,
    the index is [-1] and [findInput] returns nothing. *)
Theorem getInputIndex_is_first_match (graph : MediaGraph) (r : string) :
  (resolves graph r ->
   exists n input,
     getInputIndex graph r = Z.of_nat n
     /\ inputs graph !! n = Some input
     /\ id input = r
     /\ (forall m other, (m < n)%nat -> inputs graph !! m = Some other -> id other <> r)
     /\ findInput graph r = Some input)
  /\ (~ resolves graph r ->
      getInputIndex graph r = -1 /\ findInput graph r = None).
Proof.
  unfold getInputIndex, findInput, resolves.
  destruct (list_find (fun input => id input = r) (inputs graph)) as [[n input]|] eqn:Hf.
  - apply list_find_Some in Hf as (Hn & Hid & Hfirst). split.
    + intros _. exists n, input. repeat split; try assumption.
      intros m other Hm Hother. now apply (Hfirst m other).
    + intros Hno. exfalso. apply Hno. exists input. split; [|exact Hid].
      apply list_elem_of_In. now apply list_elem_of_lookup_2 in Hn.
  - apply list_find_None in Hf. split; [|now intros _].
    intros (input & Hin & Hid). exfalso.
    rewrite Forall_forall in Hf. apply (Hf input); [|exact Hid].
    now apply list_elem_of_In.
Qed.


(** ** What a valid graph guarantees ([ast/validation.ts]) *)

Lemma referenced_In (graph : MediaGraph) (r : string) :
  In r (getReferencedInputs graph) <-> referencedBy graph r.
Proof.
  unfold getReferencedInputs. rewrite audioRefs_fold_In, videoRefs_fold_In.
  unfold referencedBy, Js.StringSet.empty. simpl. tauto.
Qed.

Lemma pushIf_nil (cond : bool) (e : ValidationError) :
  pushIf cond e = [] <-> cond = false.
Proof. destruct cond; simpl; split; congruence. Qed.

Lemma concat_nil_iff {A : Type} (l : list (list A)) :
  concat l = [] <-> forall x, In x l -> x = [].
Proof.
  induction l as [|a l IH]; simpl.
  - split; [intros _ x [] | reflexivity].
  - split.
    + intros H. apply app_eq_nil in H as [Ha Hl]. intros x [<- | Hx]; [exact Ha|].
      now apply IH.
    + intros H. rewrite (H a (or_introl eq_refl)). apply IH.
      intros x Hx. apply H. now right.
Qed.

Lemma concat_imap_nil {A B : Type} (f : nat -> A -> list B) (l : list A) :
  (forall x i, In x l -> f i x = []) -> concat (imap f l) = [].
Proof.
  revert f. induction l as [|a l IH]; intros f H; [reflexivity|].
  simpl. rewrite (H a 0%nat (or_introl eq_refl)). apply IH.
  intros x i Hx. apply H. now right.
Qed.

Lemma concat_imap_nil_inv {A B : Type} (f : nat -> A -> list B) (l : list A) (x : A) :
  concat (imap f l) = [] -> In x l -> exists i, f i x = [].
Proof.
  revert f. induction l as [|a l IH]; intros f H Hx; [contradiction|].
  simpl in H. apply app_eq_nil in H as [Ha Hl]. destruct Hx as [<- | Hx].
  - now exists 0%nat.
  - destruct (IH _ Hl Hx) as [i Hi]. now exists (S i).
Qed.

Lemma validateVideoStream_nil (inputIds : Js.StringSet.t) (i : nat) (stream : VideoStream) :
  validateVideoStream inputIds i stream = []
  <-> Js.StringSet.has inputIds (vs_inputRef stream) = true
      /\ forall filter, In filter (vs_filters stream) ->
                        validateVideoFilter filter inputIds = [].
Proof.
  unfold validateVideoStream. split.
  - intros H. apply app_eq_nil in H as [Hp Hc].
    apply pushIf_nil, negb_false_iff in Hp. split; [exact Hp|].
    intros filter Hin. rewrite concat_nil_iff in Hc. apply Hc.
    apply in_map_iff. now exists filter.
  - intros [Hp Hc]. rewrite Hp. simpl. apply concat_nil_iff.
    intros x Hx. apply in_map_iff in Hx as (filter & <- & Hin). now apply Hc.
Qed.

Lemma validateAudioStream_nil (inputIds : Js.StringSet.t) (i : nat) (stream : AudioStream) :
  validateAudioStream inputIds i stream = []
  <-> Js.StringSet.has inputIds (as_inputRef stream) = true
      /\ forall filter, In filter (as_filters stream) -> validateAudioFilter filter = [].
Proof.
  unfold validateAudioStream. split.
  - intros H. apply app_eq_nil in H as [Hp Hc].
    apply pushIf_nil, negb_false_iff in Hp. split; [exact Hp|].
    intros filter Hin. rewrite concat_nil_iff in Hc. apply Hc.
    apply in_map_iff. now exists filter.
  - intros [Hp Hc]. rewrite Hp. simpl. apply concat_nil_iff.
    intros x Hx. apply in_map_iff in Hx as (filter & <- & Hin). now apply Hc.
Qed.

Lemma crf_check (graph : MediaGraph) :
  defined (out_video (output graph))
    (fun v => defined (vc_crf v)
                (fun crf => Js.lt crf (Js.ofZ 0) || Js.gt crf (Js.ofZ 63))) = false
  <-> crfInRange graph.
Proof.
  unfold crfInRange, defined.
  destruct (out_video (output graph)) as [v|].
  - destruct (vc_crf v) as [crf|] eqn:E.
    + rewrite orb_false_iff. split.
      * intros H v' crf' [= <-] E'. rewrite E in E'. injection E' as <-. exact H.
      * intros H. now apply (H v crf).
    + split; [|reflexivity]. intros _ v' crf' [= <-] E'. congruence.
  - split; [|reflexivity]. intros _ v' crf'. discriminate.
Qed.

Lemma validateGraph_valid_iff (graph : MediaGraph) :
  valid (validateGraph graph) = true <-> passesChecks graph.
Proof.
  rewrite valid_iff_no_errors. unfold validateGraph. cbn [errors].
  unfold passesChecks. split.
  - intros H.
    apply app_eq_nil in H as [H1 H]. apply app_eq_nil in H as [H2 H].
    apply app_eq_nil in H as [H3 H]. apply app_eq_nil in H as [H4 H].
    apply app_eq_nil in H as [H5 H6].
    apply pushIf_nil in H1, H2, H6.
    assert (Hrefs : forall r, referencedBy graph r -> resolves graph r).
    { intros r Hr. apply referenced_In in Hr.
      rewrite concat_nil_iff in H3.
      specialize (H3 _ (in_map _ _ _ Hr)). cbv beta in H3.
      apply pushIf_nil, negb_false_iff in H3. now apply getInputIds_has. }
    split. { intros Hnil. rewrite Hnil in H1. discriminate. }
    split; [exact H2|]. split; [exact Hrefs|].
    split; [|split].
    + intros stream filter Hs Hf.
      destruct (concat_imap_nil_inv _ _ stream H4 Hs) as [i Hi].
      apply validateVideoStream_nil in Hi as [_ Hi]. now apply Hi.
    + intros stream filter Hs Hf.
      destruct (concat_imap_nil_inv _ _ stream H5 Hs) as [i Hi].
      apply validateAudioStream_nil in Hi as [_ Hi]. now apply Hi.
    + now apply crf_check.
  - intros (H1 & H2 & Hrefs & Hv & Ha & Hcrf).
    assert (E1 : (length (inputs graph) =? 0)%nat = false).
    { destruct (inputs graph); [contradiction | reflexivity]. }
    rewrite E1, H2. apply crf_check in Hcrf. rewrite Hcrf. simpl.
    rewrite app_nil_r.
    assert (E3 : concat (map (fun ref =>
                   pushIf (negb (Js.StringSet.has (getInputIds graph) ref))
                     (newValidationError
                        ("Referenced input " +:+ quoted ref +:+ " does not exist") None))
                   (getReferencedInputs graph)) = []).
    { apply concat_nil_iff. intros x Hx.
      apply in_map_iff in Hx as (r & <- & Hr).
      apply pushIf_nil, negb_false_iff, getInputIds_has, Hrefs, referenced_In, Hr. }
    assert (E4 : concat (imap (validateVideoStream (getInputIds graph))
                              (videoStreams graph)) = []).
    { apply concat_imap_nil. intros stream i Hs.
      apply validateVideoStream_nil. split.
      - apply getInputIds_has, Hrefs. left. exists stream. split; [exact Hs | now left].
      - intros filter Hf. now apply (Hv stream). }
    assert (E5 : concat (imap (validateAudioStream (getInputIds graph))
                              (audioStreams graph)) = []).
    { apply concat_imap_nil. intros stream i Hs.
      apply validateAudioStream_nil. split.
      - apply getInputIds_has, Hrefs. right. now exists stream.
      - intros filter Hf. now apply (Ha stream). }
    rewrite E3, E4, E5. reflexivity.
Qed.

(** X3.  [validateGraph] answers valid exactly when the graph has an input
    and a destination, every input reference of a stream or of an overlay
    is the id of an input, every filter passes its own check, and the CRF,
    when set, is neither below 0 nor above 63. *)
Theorem validateGraph_is_valid_exactly_when_checks_pass (graph : MediaGraph) :
  (valid (validateGraph graph) = true <-> passesChecks graph)
  /\ (valid (validateGraph graph) = false <-> ~ passesChecks graph).
Proof.
  pose proof (validateGraph_valid_iff graph) as H. split; [exact H|].
  destruct (valid (validateGraph graph)); split; try discriminate.
  - intros Hn. exfalso. apply Hn, H. reflexivity.
  - intros _ Hp. apply H in Hp. discriminate.
  - reflexivity.
Qed.

(** ** C7: every check reports, and [assertValid] throws the first report *)

Lemma In_pushIf (cond : bool) (e0 e : ValidationError) :
  In e (pushIf cond e0) <-> cond = true /\ e = e0.
Proof.
  unfold pushIf. destruct cond; simpl; split.
  - intros [<- | []]. now split.
  - intros [_ ->]. now left.
  - intros [].
  - intros [H _]. discriminate H.
Qed.

Lemma in_concat_imap_iff {A B : Type} (f : nat -> A -> list B) (l : list A) (e : B) :
  In e (concat (imap f l)) <-> exists i x, l !! i = Some x /\ In e (f i x).
Proof.
  revert f. induction l as [|a l IH]; intros f.
  - simpl. split; [intros [] | intros (i & x & H & _); discriminate H].
  - cbn [imap concat]. rewrite in_app_iff, IH. split.
    + intros [H | (i & x & Hi & He)].
      * now exists 0%nat, a.
      * now exists (S i), x.
    + intros ([|i] & x & Hi & He).
      * injection Hi as <-. now left.
      * right. now exists i, x.
Qed.

Lemma has_false_unresolved (graph : MediaGraph) (r : string) :
  negb (Js.StringSet.has (getInputIds graph) r) = true <-> ~ resolves graph r.
Proof.
  rewrite negb_true_iff, <- getInputIds_has.
  destruct (Js.StringSet.has (getInputIds graph) r); split; intros H;
    try reflexivity; try discriminate H; try (intros E; discriminate E).
  now contradiction H.
Qed.

Lemma In_validateVideoStream (graph : MediaGraph) (i : nat) (stream : VideoStream)
      (e : ValidationError) :
  In e (validateVideoStream (getInputIds graph) i stream)
  <-> (~ resolves graph (vs_inputRef stream)
       /\ e = newValidationError
                ("Video stream " +:+ Js.natToString i
                 +:+ " references non-existent input "
                 +:+ quoted (vs_inputRef stream)) None)
      \/ exists filter,
          In filter (vs_filters stream)
          /\ In e (validateVideoFilter filter (getInputIds graph)).
Proof.
  unfold validateVideoStream.
  rewrite in_app_iff, In_pushIf, has_false_unresolved, in_concat.
  split; intros [H | H]; [now left | | now left |]; right.
  - destruct H as (l & Hl & He). apply in_map_iff in Hl as (filter & <- & Hf).
    now exists filter.
  - destruct H as (filter & Hf & He). eexists. split; [|exact He].
    apply in_map_iff. now exists filter.
Qed.

Lemma In_validateAudioStream (graph : MediaGraph) (i : nat) (stream : AudioStream)
      (e : ValidationError) :
  In e (validateAudioStream (getInputIds graph) i stream)
  <-> (~ resolves graph (as_inputRef stream)
       /\ e = newValidationError
                ("Audio stream " +:+ Js.natToString i
                 +:+ " references non-existent input "
                 +:+ quoted (as_inputRef stream)) None)
      \/ exists filter,
          In filter (as_filters stream) /\ In e (validateAudioFilter filter).
Proof.
  unfold validateAudioStream.
  rewrite in_app_iff, In_pushIf, has_false_unresolved, in_concat.
  split; intros [H | H]; [now left | | now left |]; right.
  - destruct H as (l & Hl & He). apply in_map_iff in Hl as (filter & <- & Hf).
    now exists filter.
  - destruct H as (filter & Hf & He). eexists. split; [|exact He].
    apply in_map_iff. now exists filter.
Qed.

Lemma In_reference_errors (graph : MediaGraph) (e : ValidationError) :
  In e (concat (map (fun ref =>
                       pushIf (negb (Js.StringSet.has (getInputIds graph) ref))
                         (newValidationError
                            ("Referenced input " +:+ quoted ref +:+ " does not exist")
                            None))
                    (getReferencedInputs graph)))
  <-> exists r,
      referencedBy graph r /\ ~ resolves graph r
      /\ e = newValidationError
               ("Referenced input " +:+ quoted r +:+ " does not exist") None.
Proof.
  rewrite in_concat. split.
  - intros (l & Hl & He). apply in_map_iff in Hl as (r & <- & Hr).
    apply In_pushIf in He as [Hc ->]. exists r.
    split; [now apply referenced_In|]. split; [now apply has_false_unresolved|].
    reflexivity.
  - intros (r & Hr & Hn & ->). eexists. split.
    + apply in_map_iff. exists r. split; [reflexivity | now apply referenced_In].
    + apply In_pushIf. split; [now apply has_false_unresolved | reflexivity].
Qed.

Lemma In_crf_error (graph : MediaGraph) (e0 e : ValidationError) :
  In e (pushIf (defined (out_video (output graph))
                  (fun v => defined (vc_crf v)
                     (fun crf => Js.lt crf (Js.ofZ 0) || Js.gt crf (Js.ofZ 63))))
          e0)
  <-> exists v crf,
      out_video (output graph) = Some v /\ vc_crf v = Some crf
      /\ Js.lt crf (Js.ofZ 0) || Js.gt crf (Js.ofZ 63) = true
      /\ e = e0.
Proof.
  rewrite In_pushIf. split.
  - intros [Hc ->].
    destruct (out_video (output graph)) as [v|]; [|discriminate Hc].
    cbn [defined] in Hc.
    destruct (vc_crf v) as [crf|] eqn:Hcrf; [|discriminate Hc].
    now exists v, crf.
  - intros (v & crf & -> & Hcrf & Hc & ->). cbn [defined]. rewrite Hcrf. now split.
Qed.

Lemma validateGraph_reports (graph : MediaGraph) (e : ValidationError) :
  In e (errors (validateGraph graph)) <-> reportedBy graph e.
Proof.
  unfold validateGraph, reportedBy. cbn [errors].
  rewrite !in_app_iff, In_crf_error, In_reference_errors, !in_concat_imap_iff, !In_pushIf.
  assert (Hlen : (length (inputs graph) =? 0)%nat = true <-> inputs graph = []).
  { destruct (inputs graph); simpl; split; try reflexivity; discriminate. }
  rewrite Hlen.
  assert (Hv : (exists i x, videoStreams graph !! i = Some x
                            /\ In e (validateVideoStream (getInputIds graph) i x))
               <-> exists i stream,
                  videoStreams graph !! i = Some stream
                  /\ ((~ resolves graph (vs_inputRef stream)
                       /\ e = newValidationError
                                ("Video stream " +:+ Js.natToString i
                                 +:+ " references non-existent input "
                                 +:+ quoted (vs_inputRef stream)) None)
                      \/ exists filter,
                          In filter (vs_filters stream)
                          /\ In e (validateVideoFilter filter (getInputIds graph)))).
  { split; intros (i & s & Hi & H); exists i, s; (split; [exact Hi|]);
      now apply In_validateVideoStream. }
  assert (Ha : (exists i x, audioStreams graph !! i = Some x
                            /\ In e (validateAudioStream (getInputIds graph) i x))
               <-> exists i stream,
                  audioStreams graph !! i = Some stream
                  /\ ((~ resolves graph (as_inputRef stream)
                       /\ e = newValidationError
                                ("Audio stream " +:+ Js.natToString i
                                 +:+ " references non-existent input "
                                 +:+ quoted (as_inputRef stream)) None)
                      \/ exists filter,
                          In filter (as_filters stream)
                          /\ In e (validateAudioFilter filter))).
  { split; intros (i & s & Hi & H); exists i, s; (split; [exact Hi|]);
      now apply In_validateAudioStream. }
  rewrite Hv, Ha. reflexivity.
Qed.

Lemma assertValid_head (graph : MediaGraph) :
  assertValid graph
  = match errors (validateGraph graph) with
    | [] => Normal
    | e :: _ => Throw (Some e)
    end.
Proof.
  unfold assertValid.
  change (valid (validateGraph graph))
    with (length (errors (validateGraph graph)) =? 0)%nat.
  now destruct (errors (validateGraph graph)).
Qed.

(** C7.  [validateGraph] is valid exactly when its error list is empty, and
    the list holds exactly the reports of the checks that fail: the missing
    input, the missing destination, each dangling reference, each dangling
    stream reference, each error of each filter of each stream (among them
    the overlay that refers to a missing input), and the CRF out of range;
    no check is skipped because an earlier one failed.  [assertValid]
    returns normally exactly when the graph is valid and otherwise throws
    the first error of that list, which is the missing-input error when
    there is no input and the missing-destination error when only the
    destination is missing. *)
Theorem assertValid_throws_first_error (graph : MediaGraph) :
  (valid (validateGraph graph) = true <-> errors (validateGraph graph) = [])
  /\ (assertValid graph = Normal <-> valid (validateGraph graph) = true)
  /\ (valid (validateGraph graph) = false <->
      exists e rest,
        errors (validateGraph graph) = e :: rest
        /\ assertValid graph = Throw (Some e))
  /\ (forall e, In e (errors (validateGraph graph)) <-> reportedBy graph e)
  /\ (forall stream filter e,
         In stream (videoStreams graph) -> In filter (vs_filters stream) ->
         In e (validateVideoFilter filter (getInputIds graph)) ->
         In e (errors (validateGraph graph)))
  /\ (forall stream filter e,
         In stream (audioStreams graph) -> In filter (as_filters stream) ->
         In e (validateAudioFilter filter) ->
         In e (errors (validateGraph graph)))
  /\ (forall stream r x y enableAlpha shortest,
         In stream (videoStreams graph) ->
         In (Overlay r x y enableAlpha shortest) (vs_filters stream) ->
         ~ resolves graph r ->
         In (newValidationError ("Overlay references non-existent input " +:+ quoted r)
               (Some "overlay.inputRef"))
            (errors (validateGraph graph)))
  /\ (inputs graph = [] ->
      assertValid graph
      = Throw (Some (newValidationError "At least one input is required" None)))
  /\ (inputs graph <> [] ->
      destinationMissing (destination (output graph)) = true ->
      assertValid graph
      = Throw (Some (newValidationError "Output destination is required" None))).
Proof.
  pose proof (valid_iff_no_errors graph) as Hv.
  pose proof (assertValid_head graph) as Ha.
  assert (Hcollect : forall e,
             (exists stream filter,
                 In stream (videoStreams graph) /\ In filter (vs_filters stream)
                 /\ In e (validateVideoFilter filter (getInputIds graph)))
             \/ (exists stream filter,
                    In stream (audioStreams graph) /\ In filter (as_filters stream)
                    /\ In e (validateAudioFilter filter)) ->
             In e (errors (validateGraph graph)))
    by exact (validateGraph_collects_filter_errors graph).
  split; [exact Hv|]. split; [|split; [|split; [|split; [|split; [|split; [|split]]]]]].
  - rewrite Ha, Hv. destruct (errors (validateGraph graph)); split;
      try reflexivity; discriminate.
  - rewrite Ha. split.
    + intros Hf. destruct (errors (validateGraph graph)) as [|e rest] eqn:He.
      * assert (Ht : valid (validateGraph graph) = true) by now apply Hv.
        rewrite Ht in Hf. discriminate Hf.
      * now exists e, rest.
    + intros (e & rest & He & _).
      destruct (valid (validateGraph graph)) eqn:Ht; [|reflexivity].
      assert (Hnil : errors (validateGraph graph) = []) by now apply Hv.
      rewrite Hnil in He. discriminate He.
  - exact (validateGraph_reports graph).
  - intros stream filter e Hs Hf He. apply Hcollect. left. now exists stream, filter.
  - intros stream filter e Hs Hf He. apply Hcollect. right. now exists stream, filter.
  - intros stream r x y enableAlpha shortest Hs Hf Hn. apply Hcollect. left.
    exists stream, (Overlay r x y enableAlpha shortest).
    split; [exact Hs|]. split; [exact Hf|].
    cbn [validateVideoFilter]. apply In_pushIf.
    split; [now apply has_false_unresolved | reflexivity].
  - intros Hin. rewrite Ha. unfold validateGraph. cbn [errors]. now rewrite Hin.
  - intros Hin Hd. rewrite Ha. unfold validateGraph. cbn [errors]. rewrite Hd.
    destruct (inputs graph); [now contradiction Hin | reflexivity].
Qed.

Lemma getInputIndex_in_range (graph : MediaGraph) (r : string) :
  resolves graph r ->
  0 <= getInputIndex graph r < Z.of_nat (length (inputs graph)).
Proof.
  intros (input & Hin & Hid). unfold getInputIndex.
  destruct (list_find (fun input => id input = r) (inputs graph)) as [[n x]|] eqn:Hf.
  - apply list_find_Some in Hf as (Hn & _). apply lookup_lt_Some in Hn. lia.
  - apply list_find_None in Hf. rewrite Forall_forall in Hf. exfalso.
    apply (Hf input); [now apply list_elem_of_In | exact Hid].
Qed.

(** X4.  In a valid graph every reference is addressed by a real position:
    for the input reference of any stream or overlay, [getInputIndex] is at
    least 0 and below the number of inputs, so neither compiler writes the
    pad [-1] for it. *)
Theorem valid_graph_addresses_existing_inputs (graph : MediaGraph) (r : string) :
  valid (validateGraph graph) = true ->
  referencedBy graph r ->
  0 <= getInputIndex graph r < Z.of_nat (length (inputs graph)).
Proof.
  intros Hvalid Hr. apply validateGraph_valid_iff in Hvalid.
  destruct Hvalid as (_ & _ & Hrefs & _). apply getInputIndex_in_range. now apply Hrefs.
Qed.

(** X5.  A graph with an input and a destination, no streams at all and a
    CRF in range is valid and carries exactly one warning, that the output
    may be empty. *)
Theorem streamless_graph_is_valid_with_warning (graph : MediaGraph) :
  inputs graph <> [] ->
  destinationMissing (destination (output graph)) = false ->
  videoStreams graph = [] ->
  audioStreams graph = [] ->
  crfInRange graph ->
  validateGraph graph
  = {| valid := true; errors := [];
       warnings := ["No video or audio streams configured - output may be empty"] |}.
Proof.
  intros Hin Hdest Hv Ha Hcrf.
  assert (Hvalid : valid (validateGraph graph) = true).
  { apply validateGraph_valid_iff. unfold passesChecks.
    split; [exact Hin|]. split; [exact Hdest|]. rewrite Hv, Ha.
    split; [|split; [|split; [|exact Hcrf]]].
    - intros r [(s & Hs & _) | (s & Hs & _)];
        [rewrite Hv in Hs | rewrite Ha in Hs]; destruct Hs.
    - intros stream filter [].
    - intros stream filter []. }
  pose proof (proj1 (valid_iff_no_errors graph) Hvalid) as Herr.
  assert (Hw : warnings (validateGraph graph)
               = ["No video or audio streams configured - output may be empty"]).
  { unfold validateGraph. cbn [warnings]. now rewrite Hv, Ha. }
  destruct (validateGraph graph) as [v e w]. simpl in *. now subst.
Qed.


(** ** What the filter checks accept ([ast/validation.ts]) *)

Lemma lt_ofZ (a b : Z) : Js.lt (Js.ofZ a) (Js.ofZ b) = (a <? b)%Z.
Proof.
  unfold Js.lt. rewrite compare_ofZ. unfold Z.ltb. now destruct (a ?= b)%Z.
Qed.

Lemma le_ofZ (a b : Z) : Js.le (Js.ofZ a) (Js.ofZ b) = (a <=? b)%Z.
Proof.
  unfold Js.le. rewrite compare_ofZ. unfold Z.leb. now destruct (a ?= b)%Z.
Qed.

Lemma gt_ofZ (a b : Z) : Js.gt (Js.ofZ a) (Js.ofZ b) = (b <? a)%Z.
Proof.
  unfold Js.gt. rewrite compare_ofZ. rewrite Z.ltb_compare, (Z.compare_antisym a b).
  now destruct (a ?= b)%Z.
Qed.

Lemma scaleDimensionInvalid_ofZ (z : Z) :
  scaleDimensionInvalid (Some (Js.ofZ z)) = false <-> 0 < z \/ z = -1 \/ z = -2.
Proof.
  unfold scaleDimensionInvalid, defined, Js.sne.
  rewrite !seq_ofZ, le_ofZ.
  destruct (Z.eqb_spec z (-1)), (Z.eqb_spec z (-2)), (Z.leb_spec z 0);
    simpl; split; intros; try reflexivity; try discriminate; lia.
Qed.

(** X6.  For whole-number dimensions, a scale filter passes validation
    exactly when each dimension is positive, [-1] or [-2]; what is then
    written for each dimension is positive or [-2], never 0, [-1] or
    another negative number. *)
Theorem validated_scale_writes_positive_or_minus_two
        (w h : Z) (algorithm : option ScaleAlgorithm) (force : option ForceAspect)
        (inputIds : Js.StringSet.t) :
  (validateVideoFilter (Scale (Some (Js.ofZ w)) (Some (Js.ofZ h)) algorithm force) inputIds
   = []
   <-> (0 < w \/ w = -1 \/ w = -2) /\ (0 < h \/ h = -1 \/ h = -2))
  /\ (validateVideoFilter (Scale (Some (Js.ofZ w)) (Some (Js.ofZ h)) algorithm force)
                          inputIds = [] ->
      exists w' h' rest,
        serializeVideoFilter (Scale (Some (Js.ofZ w)) (Some (Js.ofZ h)) algorithm force)
        = "scale=w=" +:+ numStr (Js.ofZ w') +:+ ":h=" +:+ numStr (Js.ofZ h') +:+ rest
        /\ (0 < w' \/ w' = -2) /\ (0 < h' \/ h' = -2)).
Proof.
  assert (Hiff : validateVideoFilter
                   (Scale (Some (Js.ofZ w)) (Some (Js.ofZ h)) algorithm force) inputIds = []
                 <-> (0 < w \/ w = -1 \/ w = -2) /\ (0 < h \/ h = -1 \/ h = -2)).
  { cbn [validateVideoFilter].
    rewrite <- !scaleDimensionInvalid_ofZ. split.
    - intros H. apply app_eq_nil in H as [Hw Hh].
      now apply pushIf_nil in Hw, Hh.
    - intros [-> ->]. reflexivity. }
  split; [exact Hiff|].
  intros H. apply Hiff in H as [Hw Hh].
  assert (Heff : forall z, 0 < z \/ z = -1 \/ z = -2 ->
                   exists z', effectiveDimension (Some (Js.ofZ z)) = Js.ofZ z'
                              /\ (0 < z' \/ z' = -2)).
  { intros z [Hz | [-> | ->]].
    - exists z. split; [apply effectiveDimension_explicit; lia | now left].
    - exists (-2). split; [reflexivity | now right].
    - exists (-2). split; [reflexivity | now right]. }
  destruct (Heff w Hw) as (w' & Ew & Hw'), (Heff h Hh) as (h' & Eh & Hh').
  destruct (serializeVideoFilter_scale (Some (Js.ofZ w)) (Some (Js.ofZ h)) algorithm force)
    as (rest & Heq & _).
  exists w', h', rest. rewrite Heq, Ew, Eh. now split.
Qed.

Lemma compare_defined (a b : number) :
  a <> Js.NaN -> b <> Js.NaN -> exists c, Js.compare a b = Some c.
Proof.
  intros Ha Hb. destruct a, b; try contradiction; simpl; eauto.
Qed.

Lemma ge_false_lt (a b : number) :
  a <> Js.NaN -> b <> Js.NaN -> Js.ge a b = false -> Js.lt a b = true.
Proof.
  intros Ha Hb. unfold Js.ge, Js.lt.
  destruct (compare_defined a b Ha Hb) as [c ->]. now destruct c.
Qed.

Lemma lt_false_ge (a b : number) :
  a <> Js.NaN -> b <> Js.NaN -> Js.lt a b = false -> Js.ge a b = true.
Proof.
  intros Ha Hb. unfold Js.ge, Js.lt.
  destruct (compare_defined a b Ha Hb) as [c ->]. now destruct c.
Qed.

Lemma le_false_gt (a b : number) :
  a <> Js.NaN -> b <> Js.NaN -> Js.le a b = false -> Js.gt a b = true.
Proof.
  intros Ha Hb. unfold Js.le, Js.gt.
  destruct (compare_defined a b Ha Hb) as [c ->]. now destruct c.
Qed.

Lemma ofZ_not_NaN (z : Z) : Js.ofZ z <> Js.NaN.
Proof. discriminate. Qed.

(** X7.  A video trim filter with a start and an end that passes
    validation has, when both are numbers, a start that is not negative and
    lies strictly before the end, and a duration, if given as a number,
    above zero.  [NaN] times pass every one of these checks. *)
Theorem validated_trim_is_ordered
        (start end_ : number) (duration : option number) (inputIds : Js.StringSet.t) :
  (validateVideoFilter (Trim (Some start) (Some end_) duration) inputIds = [] ->
   start <> Js.NaN -> end_ <> Js.NaN ->
   Js.ge start (Js.ofZ 0) = true
   /\ Js.lt start end_ = true
   /\ (forall d, duration = Some d -> d <> Js.NaN -> Js.gt d (Js.ofZ 0) = true))
  /\ validateVideoFilter (Trim (Some Js.NaN) (Some Js.NaN) (Some Js.NaN)) inputIds = [].
Proof.
  split; [|reflexivity].
  cbn [validateVideoFilter defined]. intros H Hs He.
  apply app_eq_nil in H as [H1 H]. apply app_eq_nil in H as [_ H].
  apply app_eq_nil in H as [H3 H4].
  apply pushIf_nil in H1, H3, H4.
  split; [apply lt_false_ge; [exact Hs | apply ofZ_not_NaN | exact H1]|].
  split; [now apply ge_false_lt|].
  intros d -> Hd. apply le_false_gt; [exact Hd | apply ofZ_not_NaN | exact H4].
Qed.

(** X8.  The audio trim check never looks at the duration, whereas the
    video trim check rejects a duration that is not above zero: for a
    whole-number duration of zero or less, the video filter gets exactly
    the error on [trim.duration] and the audio filter gets none. *)
Theorem atrim_duration_is_not_checked (z : Z) (inputIds : Js.StringSet.t) :
  z <= 0 ->
  validateVideoFilter (Trim None None (Some (Js.ofZ z))) inputIds
  = [newValidationError "Duration must be positive" (Some "trim.duration")]
  /\ forall start end_,
      validateAudioFilter (ATrim start end_ (Some (Js.ofZ z)))
      = validateAudioFilter (ATrim start end_ None).
Proof.
  intros Hz. split; [|reflexivity].
  cbn [validateVideoFilter defined]. rewrite le_ofZ.
  apply Z.leb_le in Hz. now rewrite Hz.
Qed.

(** X9.  For a whole-number sample rate the resample check gives no error
    between 8000 and 192000, one error outside that range when the rate is
    positive, and two errors, both on [aresample.sampleRate], when the
    rate is zero or negative. *)
Theorem aresample_check_counts (rate : Z) :
  (8000 <= rate <= 192000 -> validateAudioFilter (AResample (Js.ofZ rate)) = [])
  /\ (0 < rate < 8000 \/ 192000 < rate ->
      length (validateAudioFilter (AResample (Js.ofZ rate))) = 1%nat)
  /\ (rate <= 0 ->
      map field (validateAudioFilter (AResample (Js.ofZ rate)))
      = [Some "aresample.sampleRate"; Some "aresample.sampleRate"]).
Proof.
  cbn [validateAudioFilter]. rewrite le_ofZ, lt_ofZ, gt_ofZ.
  destruct (Z.leb_spec rate 0), (Z.ltb_spec rate 8000), (Z.ltb_spec 192000 rate);
    simpl; repeat split; intros; try reflexivity; lia.
Qed.


(** ** Escaping of filter values ([escapeValue]) *)

Lemma escapeChar_cases (c : ascii) :
  (c = "\"%char /\ escapeChar c = "\\")
  \/ (c = ":"%char /\ escapeChar c = "\:")
  \/ (c = "'"%char /\ escapeChar c = "'\''")
  \/ (c <> "\"%char /\ c <> ":"%char /\ c <> "'"%char
      /\ escapeChar c = String c EmptyString).
Proof.
  unfold escapeChar.
  destruct (Ascii.eqb_spec c "\") as [->|Hb]; [now left|].
  destruct (Ascii.eqb_spec c ":") as [->|Hc]; [now right; left|].
  destruct (Ascii.eqb_spec c "'") as [->|Hq]; [now right; right; left|].
  now right; right; right.
Qed.

Lemma escapeValue_injective (a b : string) :
  escapeValue a = escapeValue b -> a = b.
Proof.
  revert b. induction a as [|x a IH]; intros [|y b].
  - reflexivity.
  - rewrite escapeValue_cons.
    destruct (escapeChar_cases y) as [[_ ->] | [[_ ->] | [[_ ->] | (_ & _ & _ & ->)]]];
      rewrite append_cons; discriminate.
  - rewrite escapeValue_cons.
    destruct (escapeChar_cases x) as [[_ ->] | [[_ ->] | [[_ ->] | (_ & _ & _ & ->)]]];
      rewrite append_cons; discriminate.
  - rewrite !escapeValue_cons.
    destruct (escapeChar_cases x)
      as [[-> ->] | [[-> ->] | [[-> ->] | (Hxb & Hxc & Hxq & ->)]]];
      destruct (escapeChar_cases y)
        as [[-> ->] | [[-> ->] | [[-> ->] | (Hyb & Hyc & Hyq & ->)]]];
      rewrite ?append_cons, ?append_nil_l; intros H;
      try discriminate H;
      try (injection H as H; apply IH in H; now subst);
      try (injection H as H1 H; first [congruence | apply IH in H; now subst]).
Qed.

Lemma escapeValue_plain (s : string) :
  plainValue s = true -> escapeValue s = s.
Proof.
  induction s as [|c s IH]; [reflexivity|].
  simpl plainValue. intros H.
  apply andb_prop in H as [H Hs]. apply andb_prop in H as [H Hq].
  apply andb_prop in H as [Hb Hc].
  rewrite escapeValue_cons. unfold escapeChar.
  apply negb_true_iff in Hb, Hc, Hq. rewrite Hb, Hc, Hq.
  rewrite append_cons, append_nil_l. now rewrite IH.
Qed.

(** X10.  Escaping loses nothing: two values with the same escaped text are
    the same value; and a value without backslash, colon and single quote
    is written as it is. *)
Theorem escapeValue_is_injective :
  (forall a b, escapeValue a = escapeValue b -> a = b)
  /\ (forall s, plainValue s = true -> escapeValue s = s).
Proof.
  split; [exact escapeValue_injective | exact escapeValue_plain].
Qed.

(** X11.  In an escaped value no colon stands unescaped: read with the
    backslash as escape character, the text never ends the option it is
    the value of. *)
Theorem escapeValue_leaves_no_bare_colon (value : string) :
  bareColon false (escapeValue value) = false.
Proof.
  induction value as [|c s IH]; [reflexivity|].
  rewrite escapeValue_cons.
  destruct (escapeChar_cases c)
    as [[-> ->] | [[-> ->] | [[-> ->] | (Hb & Hc & Hq & ->)]]];
    rewrite ?append_cons, ?append_nil_l; simpl; try exact IH.
  apply Ascii.eqb_neq in Hb, Hc. now rewrite Hb, Hc.
Qed.


(** ** The simple compiler's filter flags *)

Lemma serializeVideoFilter_nonempty (f : VideoFilter) : serializeVideoFilter f <> "".
Proof.
  destruct f; cbn [serializeVideoFilter];
    repeat match goal with
           | |- context [if ?b then _ else _] => destruct b
           | |- context [match ?d with Horizontal => _ | Vertical => _ end] => destruct d
           end;
    rewrite ?append_cons; discriminate.
Qed.

Lemma serializeAudioFilter_nonempty (f : AudioFilter) : serializeAudioFilter f <> "".
Proof.
  destruct f as [| type | | | | | | | | |]; try destruct type;
    cbn [serializeAudioFilter];
    repeat match goal with
           | |- context [if ?b then _ else _] => destruct b
           end;
    rewrite ?append_cons; discriminate.
Qed.

Lemma join_nonempty (sep p : string) (ps : list string) :
  p <> "" -> Js.join sep (p :: ps) <> "".
Proof.
  intros Hp. destruct (join_cons sep p ps) as [rest ->].
  destruct p; [contradiction|]. rewrite append_cons. discriminate.
Qed.

Lemma truthyString_nonempty (s : string) : s <> "" -> Js.truthyString s = true.
Proof.
  intros H. unfold Js.truthyString. apply negb_true_iff. now apply String.eqb_neq.
Qed.

Lemma videoChain_nonempty (f : VideoFilter) (fs : list VideoFilter) :
  Js.join "," (map serializeVideoFilter (f :: fs)) <> "".
Proof. apply join_nonempty, serializeVideoFilter_nonempty. Qed.

Lemma audioChain_nonempty (f : AudioFilter) (fs : list AudioFilter) :
  Js.join "," (map serializeAudioFilter (f :: fs)) <> "".
Proof. apply join_nonempty, serializeAudioFilter_nonempty. Qed.

Lemma videoFilterArgs_single (graph : MediaGraph) :
  (length (videoStreams graph) <= 1)%nat ->
  (hasVideoProcessing graph = false ->
   videoFilterArgs graph (hasVideoOutput graph) = [])
  /\ (forall s, hasVideoProcessing graph = true -> In s (videoStreams graph) ->
        videoFilterArgs graph (hasVideoOutput graph)
        = ["-vf"; Js.join "," (map serializeVideoFilter (vs_filters s))]
        /\ Js.join "," (map serializeVideoFilter (vs_filters s)) <> "").
Proof.
  unfold hasVideoProcessing, hasVideoOutput, videoFilterArgs.
  destruct (videoStreams graph) as [|s [|s' rest]]; simpl; intros Hlen; [| |lia].
  - split; [reflexivity | discriminate].
  - destruct (videoEnabled s); simpl.
    + destruct (vs_filters s) as [|f fs] eqn:Hf; simpl.
      * split; [reflexivity | discriminate].
      * split; [discriminate|]. intros s0 _ [<- | []]. rewrite Hf.
        pose proof (videoChain_nonempty f fs) as Hne.
        unfold serializeVideoFilterChain. cbn [length Nat.eqb].
        rewrite (truthyString_nonempty _ Hne). now split.
    + split; [reflexivity | discriminate].
Qed.

Lemma audioFilterArgs_single (graph : MediaGraph) :
  (length (audioStreams graph) <= 1)%nat ->
  (hasAudioProcessing graph = false ->
   audioFilterArgs graph (hasAudioOutput graph) = [])
  /\ (forall s, hasAudioProcessing graph = true -> In s (audioStreams graph) ->
        audioFilterArgs graph (hasAudioOutput graph)
        = ["-af"; Js.join "," (map serializeAudioFilter (as_filters s))]
        /\ Js.join "," (map serializeAudioFilter (as_filters s)) <> "").
Proof.
  unfold hasAudioProcessing, hasAudioOutput, audioFilterArgs.
  destruct (audioStreams graph) as [|s [|s' rest]]; simpl; intros Hlen; [| |lia].
  - split; [reflexivity | discriminate].
  - destruct (audioEnabled s); simpl.
    + destruct (as_filters s) as [|f fs] eqn:Hf; simpl.
      * split; [reflexivity | discriminate].
      * split; [discriminate|]. intros s0 _ [<- | []]. rewrite Hf.
        pose proof (audioChain_nonempty f fs) as Hne.
        unfold serializeAudioFilterChain. cbn [length Nat.eqb].
        rewrite (truthyString_nonempty _ Hne). now split.
    + split; [reflexivity | discriminate].
Qed.

(** X12.  On the simple path the arguments are the global options, the
    inputs, the video filter flag, the audio filter flag and the output
    block.  The video flag is there exactly when [hasVideoProcessing] holds,
    and is then ["-vf"] followed by the comma-joined filters of the video
    stream, a text that is never empty; likewise ["-af"] with
    [hasAudioProcessing]. *)
Theorem simple_path_filter_flags_follow_processing (graph : MediaGraph) :
  requiresComplexFilter graph = false ->
  exists vf af,
    compile graph
    = globalArgs (options graph) ++ inputsArgs graph ++ vf ++ af
      ++ outputArgs graph (hasVideoOutput graph) (hasAudioOutput graph)
    /\ (hasVideoProcessing graph = false -> vf = [])
    /\ (forall s, hasVideoProcessing graph = true -> In s (videoStreams graph) ->
          vf = ["-vf"; Js.join "," (map serializeVideoFilter (vs_filters s))]
          /\ Js.join "," (map serializeVideoFilter (vs_filters s)) <> "")
    /\ (hasAudioProcessing graph = false -> af = [])
    /\ (forall s, hasAudioProcessing graph = true -> In s (audioStreams graph) ->
          af = ["-af"; Js.join "," (map serializeAudioFilter (as_filters s))]
          /\ Js.join "," (map serializeAudioFilter (as_filters s)) <> "").
Proof.
  intros Hsimple.
  assert (Hn : ~ needsComplex graph).
  { intros Hc. apply requiresComplexFilter_iff in Hc. congruence. }
  assert (Hv : (length (videoStreams graph) <= 1)%nat).
  { destruct (Nat.le_gt_cases (length (videoStreams graph)) 1) as [H | H]; [exact H|].
    exfalso. apply Hn. right. right. now left. }
  assert (Ha : (length (audioStreams graph) <= 1)%nat).
  { destruct (Nat.le_gt_cases (length (audioStreams graph)) 1) as [H | H]; [exact H|].
    exfalso. apply Hn. right. right. now right. }
  exists (videoFilterArgs graph (hasVideoOutput graph)),
         (audioFilterArgs graph (hasAudioOutput graph)).
  split; [unfold compile; now rewrite Hsimple|].
  destruct (videoFilterArgs_single graph Hv) as [Hv0 Hv1].
  destruct (audioFilterArgs_single graph Ha) as [Ha0 Ha1].
  repeat split; auto; try (now apply Hv1); now apply Ha1.
Qed.

(** ** The throwing range checks ([utils/validation.ts]) *)

Lemma validateRange_Normal (value min max : number) (fld : string) :
  validateRange value min max fld = Normal
  <-> Js.lt value min = false /\ Js.gt value max = false.
Proof.
  unfold validateRange.
  destruct (Js.lt value min), (Js.gt value max); simpl;
    split; try intros [? ?]; intros; try discriminate; auto.
Qed.

Lemma gt_false_le (a b : number) :
  a <> Js.NaN -> b <> Js.NaN -> Js.gt a b = false -> Js.le a b = true.
Proof.
  intros Ha Hb. unfold Js.le, Js.gt.
  destruct (compare_defined a b Ha Hb) as [c ->]. now destruct c.
Qed.

(** X13.  [validateRange] returns normally exactly when the value lies
    between the bounds, the bounds included, as long as all three are
    numbers; a [NaN] value passes any range; and an error it throws names
    the field it was given. *)
Theorem validateRange_accepts_the_closed_range (value min max : number) (fld : string) :
  (value <> Js.NaN -> min <> Js.NaN -> max <> Js.NaN ->
   (validateRange value min max fld = Normal
    <-> Js.ge value min = true /\ Js.le value max = true))
  /\ validateRange Js.NaN min max fld = Normal
  /\ (forall e, validateRange value min max fld = Throw e -> field e = Some fld).
Proof.
  split; [|split].
  - intros Hv Hmin Hmax. rewrite validateRange_Normal.
    unfold Js.lt, Js.gt, Js.ge, Js.le.
    destruct (compare_defined value min Hv Hmin) as [c ->].
    destruct (compare_defined value max Hv Hmax) as [d ->].
    destruct c, d; split; intros [? ?]; split; auto; discriminate.
  - reflexivity.
  - unfold validateRange. intros e.
    destruct (Js.lt value min || Js.gt value max); [|discriminate].
    intros [= <-]. reflexivity.
Qed.

(** X14.  The CRF check of [validateGraph] and [validateCrf] agree: a graph
    found valid has a CRF, if it has one, that [validateCrf] lets through,
    and a CRF on which [validateCrf] throws puts the CRF error among the
    errors of the graph. *)
Theorem validateCrf_agrees_with_validateGraph
        (graph : MediaGraph) (v : VideoCodecConfig) (crf : number) :
  out_video (output graph) = Some v ->
  vc_crf v = Some crf ->
  (valid (validateGraph graph) = true -> validateCrf crf = Normal)
  /\ (forall e, validateCrf crf = Throw e ->
        In (newValidationError "CRF must be between 0 and 63" (Some "crf"))
           (errors (validateGraph graph))).
Proof.
  intros Hv Hc. split.
  - intros Hvalid. apply validateGraph_valid_iff in Hvalid.
    destruct Hvalid as (_ & _ & _ & _ & _ & Hcrf).
    destruct (Hcrf v crf Hv Hc) as [Hlo Hhi].
    now apply validateRange_Normal.
  - intros e He. unfold validateCrf, validateRange in He.
    destruct (Js.lt crf (Js.ofZ 0) || Js.gt crf (Js.ofZ 63)) eqn:Hout; [|discriminate].
    unfold validateGraph. cbn [errors].
    do 5 (apply in_or_app; right).
    rewrite Hv. cbn [defined]. rewrite Hc. cbn [defined]. rewrite Hout.
    now left.
Qed.


(** ** Labels of the complex filter graph *)

Lemma uint_chars (c : ascii) (d : Decimal.uint) :
  hasChar c "-0123456789" = false -> hasChar c (NilEmpty.string_of_uint d) = false.
Proof.
  intros H. cbn [hasChar] in H.
  repeat (apply orb_false_iff in H as [? H]).
  induction d; cbn [NilEmpty.string_of_uint hasChar]; [reflexivity|..];
    rewrite IHd;
    match goal with
    | E : Ascii.eqb ?k c = false |- context [Ascii.eqb ?k c] => now rewrite E
    end.
Qed.

Lemma intToString_chars (c : ascii) (z : Z) :
  hasChar c "-0123456789" = false -> hasChar c (Js.intToString z) = false.
Proof.
  intros H.
  assert (Hu : forall d, hasChar c (NilZero.string_of_uint d) = false).
  { intros d. pose proof (uint_chars c d H) as Hd.
    destruct d; try exact Hd.
    cbn [NilZero.string_of_uint hasChar]. cbn [hasChar] in H.
    apply orb_false_iff in H as [_ H]. apply orb_false_iff in H as [H _].
    now rewrite H. }
  unfold Js.intToString.
  destruct (Z.to_int z) as [d | d]; cbn [NilZero.string_of_int hasChar].
  - apply Hu.
  - rewrite Hu. cbn [hasChar] in H. apply orb_false_iff in H as [H _].
    now rewrite H.
Qed.

Lemma hasChar_app (c : ascii) (a b : string) :
  hasChar c (a +:+ b) = hasChar c a || hasChar c b.
Proof.
  induction a as [|x a IH]; [reflexivity|].
  rewrite append_cons. cbn [hasChar]. now rewrite IH, orb_assoc.
Qed.

Lemma includes_char (c : ascii) (s : string) :
  Js.includes (String c EmptyString) s = hasChar c s.
Proof.
  induction s as [|x s IH]; [reflexivity|].
  cbn [Js.includes String.prefix hasChar]. rewrite IH.
  destruct (ascii_dec c x) as [->|Hne].
  - rewrite Ascii.eqb_refl. now destruct s.
  - assert (E : Ascii.eqb x c = false) by (apply Ascii.eqb_neq; congruence).
    now rewrite E.
Qed.

Lemma stageLabel_no_bracket (k : nat) : hasChar "]" (stageLabel k) = false.
Proof.
  unfold stageLabel, Js.natToString. rewrite hasChar_app.
  now rewrite intToString_chars.
Qed.

Lemma closesAtEnd_label (l : string) :
  hasChar "]" l = false -> closesAtEnd (l +:+ "]") = true.
Proof.
  induction l as [|c l IH]; [reflexivity|].
  cbn [hasChar]. intros H. apply orb_false_iff in H as [Hc Hl].
  rewrite append_cons. cbn [closesAtEnd]. rewrite Hc. now apply IH.
Qed.

Lemma replaceTrailingLabel_nonempty (s : string) :
  s <> "" -> replaceTrailingLabel s <> "".
Proof.
  destruct s as [|c s]; [contradiction|]. intros _.
  cbn [replaceTrailingLabel].
  destruct (Ascii.eqb c "[" && labelBodyToEnd s); discriminate.
Qed.

Lemma replaceTrailingLabel_PadLast (label p : string) :
  label <> "" -> hasChar "]" label = false ->
  PadLast label p -> PadLast "v_out" (replaceTrailingLabel p).
Proof.
  intros Hne Hno [a ->].
  assert (Hbody : labelBodyToEnd (label +:+ "]") = true).
  { destruct label as [|c l]; [contradiction|].
    cbn [hasChar] in Hno. apply orb_false_iff in Hno as [Hc Hl].
    rewrite append_cons. cbn [labelBodyToEnd]. rewrite Hc.
    now rewrite closesAtEnd_label. }
  induction a as [|c a IH].
  - exists "". rewrite !append_nil_l, append_cons, append_nil_l.
    cbn [replaceTrailingLabel]. now rewrite Hbody.
  - rewrite append_cons. cbn [replaceTrailingLabel].
    destruct (Ascii.eqb c "[" && labelBodyToEnd (a +:+ "[" +:+ label +:+ "]")).
    + now exists "".
    + destruct IH as [a' ->]. exists (String c a'). now rewrite append_cons.
Qed.

Lemma segment_PadLast (inLabels expr next : string) :
  PadLast next (segment inLabels expr next).
Proof.
  exists (inLabels +:+ expr). unfold segment. now rewrite !append_assoc.
Qed.

Lemma push_linked (parts : list string) (cur p : string) :
  Writes parts -> Reads parts ->
  (parts <> [] -> cur = stageLabel (length parts - 1)) ->
  PadFirst cur p -> PadLast (stageLabel (length parts)) p ->
  Writes (parts ++ [p]) /\ Reads (parts ++ [p]).
Proof.
  intros Hw Hr Hcur Hfirst Hlast. split.
  - intros k x Hk.
    destruct (Nat.lt_ge_cases k (length parts)) as [Hlt | Hge].
    + rewrite lookup_app_l in Hk by exact Hlt. now apply Hw.
    + rewrite lookup_app_r in Hk by exact Hge.
      destruct (k - length parts)%nat as [|n] eqn:E; [|now destruct n].
      injection Hk as <-. now replace k with (length parts) by lia.
  - intros k x Hk.
    destruct (Nat.lt_ge_cases (S k) (length parts)) as [Hlt | Hge].
    + rewrite lookup_app_l in Hk by exact Hlt. now apply Hr.
    + rewrite lookup_app_r in Hk by exact Hge.
      destruct (S k - length parts)%nat as [|n] eqn:E; [|now destruct n].
      injection Hk as <-.
      assert (Hne : parts <> []) by (destruct parts; [simpl in *; lia | discriminate]).
      rewrite (Hcur Hne) in Hfirst.
      now replace k with (length parts - 1)%nat by lia.
Qed.

Lemma snoc_length_pred {A : Type} (l : list A) (x : A) :
  (length (l ++ [x]) - 1)%nat = length l.
Proof. rewrite length_app. simpl. lia. Qed.

Lemma flushNormal_LinkedWalk (w : VideoWalk) :
  LinkedWalk w -> LinkedWalk (flushNormal w).
Proof.
  intros (Hw & Hr & Hc). unfold flushNormal.
  destruct (0 <? length (normalFilters w))%nat; [|now repeat split].
  unfold LinkedWalk, AtLastLabel. cbn [filterParts currentLabel].
  destruct (push_linked (filterParts w) (currentLabel w)
              (segment ("[" +:+ currentLabel w +:+ "]")
                 (Js.join "," (map serializeVideoFilter (normalFilters w)))
                 ("v_" +:+ Js.natToString (length (filterParts w)))))
    as [Hw' Hr']; auto.
  - apply segment_PadFirst.
  - apply segment_PadLast.
  - repeat split; auto. intros _. now rewrite snoc_length_pred.
Qed.

Lemma walkFilter_LinkedWalk (graph : MediaGraph) (w : VideoWalk) (filter : VideoFilter) :
  LinkedWalk w -> LinkedWalk (walkFilter graph w filter).
Proof.
  intros H.
  destruct filter; try exact H.
  apply flushNormal_LinkedWalk in H. destruct H as (Hw & Hr & Hc).
  cbn [walkFilter]. unfold LinkedWalk, AtLastLabel. cbn [filterParts currentLabel].
  match goal with
  | |- Writes (?parts ++ [?p]) /\ _ =>
      destruct (push_linked parts (currentLabel (flushNormal w)) p) as [Hw' Hr']; auto
  end.
  - apply overlaySegment_PadFirst.
  - apply segment_PadLast.
  - repeat split; auto. intros _. now rewrite snoc_length_pred.
Qed.

Lemma walk_LinkedWalk (graph : MediaGraph) (filters : list VideoFilter) (w : VideoWalk) :
  LinkedWalk w -> LinkedWalk (fold_left (walkFilter graph) filters w).
Proof.
  revert w. induction filters as [|f fs IH]; intros w H; [exact H|].
  simpl. apply IH. now apply walkFilter_LinkedWalk.
Qed.

Lemma initial_LinkedWalk (label : string) :
  LinkedWalk {| filterParts := []; currentLabel := label; normalFilters := [] |}.
Proof.
  repeat split.
  - intros k p Hk. discriminate Hk.
  - intros k p Hk. discriminate Hk.
  - intros H. now contradiction H.
Qed.

Lemma finishVideoWalk_chained (w : VideoWalk) (k : nat) (p q : string) :
  LinkedWalk w ->
  fst (finishVideoWalk w) !! k = Some p ->
  fst (finishVideoWalk w) !! S k = Some q ->
  PadLast (stageLabel k) p /\ PadFirst (stageLabel k) q.
Proof.
  intros (Hw & Hr & Hc). unfold finishVideoWalk.
  destruct (0 <? length (normalFilters w))%nat.
  - cbn [fst].
    destruct (push_linked (filterParts w) (currentLabel w)
                (segment ("[" +:+ currentLabel w +:+ "]")
                   (Js.join "," (map serializeVideoFilter (normalFilters w)))
                   (stageLabel (length (filterParts w)))))
      as [_ Hr']; auto.
    { apply segment_PadFirst. }
    { apply segment_PadLast. }
    intros Hp Hq. split.
    + apply lookup_lt_Some in Hq as Hlen. rewrite length_app in Hlen. simpl in Hlen.
      rewrite lookup_app_l in Hp by lia. now apply Hw.
    + apply lookup_lt_Some in Hq as Hlen. rewrite length_app in Hlen. simpl in Hlen.
      destruct (Nat.lt_ge_cases (S k) (length (filterParts w))) as [Hlt | Hge].
      * rewrite lookup_app_l in Hq by exact Hlt. now apply Hr.
      * rewrite lookup_app_r in Hq by exact Hge.
        replace (S k - length (filterParts w))%nat with 0%nat in Hq by lia.
        injection Hq as <-.
        assert (Hne : filterParts w <> []).
        { destruct (filterParts w); [simpl in *; lia | discriminate]. }
        rewrite (Hc Hne).
        replace (length (filterParts w) - 1)%nat with k by lia.
        apply segment_PadFirst.
  - destruct (Nat.ltb_spec 0 (length (filterParts w))) as [Hpos | Hpos]; cbn [fst].
    + destruct (nonempty_snoc (filterParts w)) as (init & x & E).
      { intros E. rewrite E in Hpos. simpl in Hpos. lia. }
      rewrite E in *. rewrite relabelLast_snoc.
      intros Hp Hq.
      apply lookup_lt_Some in Hq as Hlen. rewrite length_app in Hlen. simpl in Hlen.
      rewrite lookup_app_l in Hp by lia. split.
      * apply (Hw k p). rewrite lookup_app_l by lia. exact Hp.
      * destruct (Nat.lt_ge_cases (S k) (length init)) as [Hlt | Hge].
        -- rewrite lookup_app_l in Hq by exact Hlt.
           apply (Hr k q). rewrite lookup_app_l by exact Hlt. exact Hq.
        -- rewrite lookup_app_r in Hq by exact Hge.
           replace (S k - length init)%nat with 0%nat in Hq by lia.
           injection Hq as <-.
           assert (Hx : PadFirst (stageLabel k) x).
           { apply (Hr k x). rewrite lookup_app_r by exact Hge.
             now replace (S k - length init)%nat with 0%nat by lia. }
           destruct Hx as (b & -> & Hb).
           exists (replaceTrailingLabel b). split.
           ++ exact (replaceTrailingLabel_pad "" (stageLabel k) b Hb).
           ++ now apply replaceTrailingLabel_nonempty.
    + intros Hp Hq. apply lookup_lt_Some in Hp. lia.
Qed.

(** X15.  The video parts of the filter graph form a chain: of two
    neighbouring parts, the one at position [k] ends with the pad [[v_k]]
    and the one after it starts with that pad. *)
Theorem complex_video_parts_are_chained
        (graph : MediaGraph) (hasVideo : bool) (k : nat) (p q : string) :
  fst (videoGraph graph hasVideo) !! k = Some p ->
  fst (videoGraph graph hasVideo) !! S k = Some q ->
  PadLast (stageLabel k) p /\ PadFirst (stageLabel k) q.
Proof.
  unfold videoGraph.
  destruct hasVideo; [|intros H; discriminate H].
  destruct (find videoEnabled (videoStreams graph)) as [s|]; [|intros H; discriminate H].
  apply finishVideoWalk_chained, walk_LinkedWalk, initial_LinkedWalk.
Qed.


Lemma stageLabel_nonempty (k : nat) : stageLabel k <> "".
Proof. unfold stageLabel. rewrite append_cons. discriminate. Qed.

Lemma finishVideoWalk_output (w : VideoWalk) :
  LinkedWalk w -> Started w ->
  exists init lastPart,
    finishVideoWalk w = (init ++ [lastPart], "v_out") /\ PadLast "v_out" lastPart.
Proof.
  intros (Hw & _ & _) Hs. unfold finishVideoWalk.
  destruct (Nat.ltb_spec 0 (length (normalFilters w))) as [Hn | Hn].
  - eexists _, _. split; [reflexivity | apply segment_PadLast].
  - destruct Hs as [Hs | Hs].
    { destruct (normalFilters w); [now contradiction Hs | simpl in Hn; lia]. }
    destruct (nonempty_snoc _ Hs) as (init & x & E).
    rewrite E in *. rewrite length_app. cbn [length].
    replace (0 <? length init + 1)%nat with true by (symmetry; apply Nat.ltb_lt; lia).
    rewrite relabelLast_snoc.
    exists init, (replaceTrailingLabel x). split; [reflexivity|].
    apply (replaceTrailingLabel_PadLast (stageLabel (length init))).
    + apply stageLabel_nonempty.
    + apply stageLabel_no_bracket.
    + apply Hw. rewrite lookup_app_r by lia.
      now replace (length init - length init)%nat with 0%nat by lia.
Qed.

Lemma mapArgs_raw_pad (parts : list string) (index : Z) (kind : string) :
  hasChar "_" kind = false ->
  mapArgs true parts (padLabel index kind) = ["-map"; padLabel index kind].
Proof.
  intros Hk. unfold mapArgs.
  assert (Hne : padLabel index kind <> "").
  { unfold padLabel. apply append_nonempty_r. rewrite append_cons. discriminate. }
  rewrite (truthyString_nonempty _ Hne). cbn [andb].
  change "_" with (String "_"%char EmptyString) at 1.
  rewrite includes_char. unfold padLabel.
  rewrite !hasChar_app, Hk.
  rewrite intToString_chars by reflexivity.
  cbn [hasChar orb]. now rewrite andb_false_r.
Qed.

(** X16.  What the video side hands to ["-map"] on the complex path.  When
    the selected video stream has no filter, no video part is pushed and
    the input pad itself, [index:v] without brackets, is mapped.  When it
    has a filter, the last video part ends with the pad [[v_out]], the
    filter graph is emitted, and ["[v_out]"] is mapped. *)
Theorem complex_video_output_is_mapped (graph : MediaGraph) (s : VideoStream) :
  find videoEnabled (videoStreams graph) = Some s ->
  let audio := audioGraph graph (hasAudioOutput graph) in
  (vs_filters s = [] ->
   compileComplex graph
   = globalArgs (options graph) ++ inputsArgs graph
     ++ (if (0 <? length (fst audio))%nat
         then ["-filter_complex"; Js.join ";" (fst audio)] else [])
     ++ ["-map"; padLabel (getInputIndex graph (vs_inputRef s)) "v"]
     ++ mapArgs (hasAudioOutput graph) (fst audio) (snd audio)
     ++ outputArgs graph true (hasAudioOutput graph))
  /\ (vs_filters s <> [] ->
      exists init lastPart,
        fst (videoGraph graph (hasVideoOutput graph)) = init ++ [lastPart]
        /\ PadLast "v_out" lastPart
        /\ compileComplex graph
           = globalArgs (options graph) ++ inputsArgs graph
             ++ ["-filter_complex"; Js.join ";" ((init ++ [lastPart]) ++ fst audio)]
             ++ ["-map"; "[v_out]"]
             ++ mapArgs (hasAudioOutput graph) ((init ++ [lastPart]) ++ fst audio)
                        (snd audio)
             ++ outputArgs graph true (hasAudioOutput graph)).
Proof.
  intros Hfind audio.
  pose proof (videoGraph_selected graph s Hfind) as Hvg.
  assert (Hhas : hasVideoOutput graph = true).
  { unfold hasVideoOutput. exact (find_existsb _ _ _ Hfind). }
  split.
  - intros Hnil. unfold compileComplex.
    rewrite Hvg, Hnil. cbn [fold_left]. unfold finishVideoWalk.
    cbn [normalFilters filterParts currentLabel length Nat.ltb Nat.leb].
    fold audio. destruct audio as [aparts alabel]. cbn [fst snd app].
    rewrite Hhas. now rewrite mapArgs_raw_pad.
  - intros Hne.
    destruct (finishVideoWalk_output
                (fold_left (walkFilter graph) (vs_filters s)
                   {| filterParts := [];
                      currentLabel := padLabel (getInputIndex graph (vs_inputRef s)) "v";
                      normalFilters := [] |}))
      as (init & lastPart & Hfin & Hlast).
    { apply walk_LinkedWalk, initial_LinkedWalk. }
    { destruct (vs_filters s) as [|f fs]; [now contradiction Hne|].
      cbn [fold_left]. apply walk_Started, walkFilter_Started. }
    exists init, lastPart.
    split; [now rewrite Hvg, Hfin|]. split; [exact Hlast|].
    unfold compileComplex. rewrite Hvg, Hfin.
    fold audio. destruct audio as [aparts alabel]. cbn [fst snd].
    rewrite Hhas.
    assert (Hlen : (0 <? length ((init ++ [lastPart]) ++ aparts))%nat = true).
    { apply Nat.ltb_lt. rewrite !length_app. simpl. lia. }
    rewrite Hlen. unfold mapArgs at 1. rewrite Hlen. reflexivity.
Qed.


(** ** Chains of builder calls ([core/media-chain.ts]) *)

Lemma intToString_injective (a b : Z) : Js.intToString a = Js.intToString b -> a = b.
Proof.
  unfold Js.intToString. intros H.
  assert (Hnn : forall z, Z.to_int z <> Decimal.Pos Decimal.Nil
                          /\ Z.to_int z <> Decimal.Neg Decimal.Nil).
  { intros [|p|p]; simpl; split; try discriminate; intros E; injection E as E;
      now apply DecimalPos.Unsigned.to_uint_nonnil in E. }
  apply (f_equal NilZero.int_of_string) in H.
  rewrite !NilZero.isi in H by apply Hnn.
  injection H as H. apply (f_equal Z.of_int) in H.
  now rewrite !DecimalZ.of_to in H.
Qed.

Lemma append_inj_l (a x y : string) : a +:+ x = a +:+ y -> x = y.
Proof.
  induction a as [|c a IH]; [now rewrite !append_nil_l|].
  rewrite !append_cons. intros H. injection H as H. now apply IH.
Qed.

Lemma inputIdOf_injective (j k : nat) : inputIdOf j = inputIdOf k -> j = k.
Proof.
  unfold inputIdOf, Js.natToString. intros H.
  apply append_inj_l, intToString_injective in H. lia.
Qed.

Lemma inputIdOf_truthy (k : nat) : Js.truthyString (inputIdOf k) = true.
Proof.
  apply truthyString_nonempty. unfold inputIdOf. rewrite append_cons. discriminate.
Qed.

Lemma inputIdOf_NoDup (ks : list nat) : List.NoDup ks -> List.NoDup (map inputIdOf ks).
Proof.
  induction 1 as [|k ks Hk Hnd IH]; simpl; constructor; [|exact IH].
  intros Hin. apply in_map_iff in Hin as (j & Hj & Hin).
  apply inputIdOf_injective in Hj. now subst.
Qed.

Lemma fresh_id_extends (n c : nat) (ks : list nat) (ids : list string) :
  ids = map inputIdOf (n :: ks) ->
  List.NoDup (n :: ks) ->
  Forall (fun k => (k < c)%nat) (n :: ks) ->
  ids ++ [inputIdOf c] = map inputIdOf (n :: ks ++ [c])
  /\ List.NoDup (n :: ks ++ [c])
  /\ Forall (fun k => (k < S c)%nat) (n :: ks ++ [c]).
Proof.
  intros -> Hnd Hlt. split; [|split].
  - change (n :: ks ++ [c]) with ((n :: ks) ++ [c]). now rewrite map_app.
  - change (n :: ks ++ [c]) with ((n :: ks) ++ [c]).
    apply List.NoDup_app; [exact Hnd | constructor; [intros [] | constructor] |].
    intros k Hk [<- | []].
    rewrite Forall_forall in Hlt. apply list_elem_of_In, Hlt in Hk. lia.
  - change (n :: ks ++ [c]) with ((n :: ks) ++ [c]).
    apply Forall_app. split.
    + eapply Forall_impl; [exact Hlt|]. simpl. intros. lia.
    + repeat constructor.
Qed.

Lemma video_BuiltFrom (source : InputSource) (n : nat) :
  exists b, video source n = Returned b /\ BuiltFrom n b.
Proof.
  eexists. split; [reflexivity|].
  unfold BuiltFrom. cbn.
  split; [reflexivity|]. split.
  - exists []. split; [reflexivity|]. split.
    + constructor; [intros []|constructor].
    + repeat constructor.
  - split.
    + eexists. split; [reflexivity|]. split; [reflexivity|].
      intros r (x & y & a & s & []).
    + eexists. split; reflexivity.
Qed.

Lemma addVideoFilterInternal_BuiltFrom (n : nat) (filter : VideoFilter) (b : Building) :
  BuiltFrom n b ->
  (forall r x y a s, filter = Overlay r x y a s ->
                     In r (map id (inputs (chainGraph (chain b))))) ->
  exists b', addVideoFilterInternal filter b = Returned b' /\ BuiltFrom n b'.
Proof.
  intros (Hp & Hids & (vs & Hvs & Hvref & Hov) & Ha) Hf.
  unfold addVideoFilterInternal, addVideoFilter. rewrite Hvs. cbn [length Nat.eqb].
  eexists. split; [reflexivity|].
  unfold BuiltFrom. cbn.
  split; [exact Hp|]. split; [exact Hids|]. split; [|exact Ha].
  eexists. split; [reflexivity|]. split; [exact Hvref|].
  intros r (x & y & a & s & Hin). cbn in Hin.
  apply in_app_or in Hin as [Hin | [Heq | []]].
  - apply Hov. now exists x, y, a, s.
  - now apply (Hf r x y a s).
Qed.

Lemma addAudioFilterInternal_BuiltFrom (n : nat) (filter : AudioFilter) (b : Building) :
  BuiltFrom n b ->
  exists b', addAudioFilterInternal filter b = Returned b' /\ BuiltFrom n b'.
Proof.
  intros (Hp & Hids & Hv & (s & Has & Haref)).
  unfold addAudioFilterInternal, addAudioFilter. rewrite Has. cbn [length Nat.eqb].
  eexists. split; [reflexivity|].
  unfold BuiltFrom. cbn.
  split; [exact Hp|]. split; [exact Hids|]. split; [exact Hv|].
  eexists. split; [reflexivity | exact Haref].
Qed.

Lemma with_input_BuiltFrom (n : nat) (b : Building) (source : InputSource)
      (opts : option InputOptions) :
  BuiltFrom n b ->
  BuiltFrom n
    {| inputCounter := S (inputCounter b);
       chain :=
         {| chainGraph :=
              withInputs (chainGraph (chain b))
                (inputs (chainGraph (chain b))
                 ++ [{| id := inputIdOf (inputCounter b); source := source;
                        in_options := opts |}]);
            primaryInputId := primaryInputId (chain b) |} |}.
Proof.
  intros (Hp & (ks & Hids & Hnd & Hlt) & (vs & Hvs & Hvref & Hov) & Ha).
  unfold BuiltFrom. cbn.
  split; [exact Hp|]. split; [|split; [|exact Ha]].
  - exists (ks ++ [inputCounter b]). rewrite map_app. cbn [map id].
    now apply fresh_id_extends.
  - exists vs. split; [exact Hvs|]. split; [exact Hvref|].
    intros r Hr. rewrite map_app. apply in_or_app. left. now apply Hov.
Qed.

Lemma perform_BuiltFrom (n : nat) (c : Call) (b : Building) :
  BuiltFrom n b ->
  (exists b', perform c b = Returned b' /\ BuiltFrom n b')
  \/ (perform c b = Threw "Overlay source is required" b /\ sourcelessOverlay c).
Proof.
  intros Hb.
  destruct c; cbn [perform];
    try (left; apply addVideoFilterInternal_BuiltFrom; [exact Hb | discriminate]);
    try (left; now apply addAudioFilterInternal_BuiltFrom).
  - (* input *)
    left. unfold chainInput.
    destruct Hb as (Hp & Hrest). rewrite Hp. cbn [truthyId].
    rewrite inputIdOf_truthy. cbn [negb].
    eexists. split; [reflexivity|].
    rewrite <- Hp. apply with_input_BuiltFrom. now split.
  - (* trim *)
    left. unfold chainTrim.
    destruct (addVideoFilterInternal_BuiltFrom n
                (Trim (to_start o) (to_end o) (to_duration o)) b Hb)
      as (b1 & -> & Hb1); [discriminate|].
    cbn [andThen]. now apply addAudioFilterInternal_BuiltFrom.
  - (* mute *)
    left. unfold chainMute. eexists. split; [reflexivity|].
    destruct Hb as (Hp & Hids & Hv & (s & Has & Haref)).
    unfold BuiltFrom. cbn. rewrite Has. cbn [map].
    split; [exact Hp|]. split; [exact Hids|]. split; [exact Hv|].
    eexists. split; [reflexivity | exact Haref].
  - (* overlay *)
    unfold chainOverlay.
    destruct (overlaySourceOf src) as [overlaySource|] eqn:Hsrc.
    + left. apply addVideoFilterInternal_BuiltFrom.
      * now apply with_input_BuiltFrom.
      * intros r x y a s [= <- _ _ _ _]. cbn.
        rewrite map_app. apply in_or_app. right. now left.
    + right. split; [reflexivity|]. now exists src, o.
  - (* codec *)
    left. unfold chainCodec. eexists. split; [reflexivity|].
    destruct Hb as (Hp & Hids & Hv & Ha). unfold BuiltFrom. cbn. now repeat split.
  - (* crf *)
    left. unfold chainCrf. eexists. split; [reflexivity|].
    destruct Hb as (Hp & Hids & Hv & Ha). unfold BuiltFrom. cbn. now repeat split.
  - (* ids drawn elsewhere *)
    left. eexists. split; [reflexivity|].
    destruct Hb as (Hp & (ks & Hids & Hnd & Hlt) & Hv & Ha). unfold BuiltFrom. cbn.
    split; [exact Hp|]. split; [|now split].
    exists ks. split; [exact Hids|]. split; [exact Hnd|].
    eapply Forall_impl; [exact Hlt|]. simpl. intros. lia.
Qed.

Lemma performAll_BuiltFrom (n : nat) (calls : list Call) (b : Building) :
  BuiltFrom n b ->
  BuiltFrom n (stateOf (performAll calls b))
  /\ ((exists b', performAll calls b = Returned b')
      \/ (exists s, performAll calls b = Threw "Overlay source is required" s
                    /\ exists c, In c calls /\ sourcelessOverlay c)).
Proof.
  revert b. induction calls as [|c calls IH]; intros b Hb.
  - split; [exact Hb | left; now exists b].
  - cbn [performAll].
    destruct (perform_BuiltFrom n c b Hb) as [(b' & -> & Hb') | [-> Hc]].
    + cbn [andThen]. destruct (IH b' Hb') as [Hst [Hret | (s & Hthrow & c' & Hin & Hc')]].
      * split; [exact Hst | now left].
      * split; [exact Hst|]. right. exists s. split; [exact Hthrow|].
        exists c'. split; [now right | exact Hc'].
    + cbn [andThen stateOf]. split; [exact Hb|]. right. exists b.
      split; [reflexivity|]. exists c. split; [now left | exact Hc].
Qed.

Lemma BuiltFrom_references (n : nat) (b : Building) (r : string) :
  BuiltFrom n b -> referencedBy (chainGraph (chain b)) r ->
  resolves (chainGraph (chain b)) r.
Proof.
  intros (Hp & (ks & Hids & _ & _) & (vs & Hvs & Hvref & Hov) & (s & Has & Haref)) Hr.
  assert (Hin : In r (map id (inputs (chainGraph (chain b))))).
  { destruct Hr as [(stream & Hs & Hr) | (stream & Hs & Hr)].
    - rewrite Hvs in Hs. destruct Hs as [<- | []].
      destruct Hr as [<- | Hr]; [|now apply Hov].
      rewrite Hids, Hvref. now left.
    - rewrite Has in Hs. destruct Hs as [<- | []].
      rewrite <- Hr, Hids, Haref. now left. }
  apply in_map_iff in Hin as (input & Hid & Hin). now exists input.
Qed.

(** X17.  Whatever calls follow [video(source)], and whether or not one of
    them throws, the graph of the chain is well formed: the input ids are
    pairwise different, the first input is the primary one, there is
    exactly one video and one audio stream, and every input reference of a
    stream or an overlay names an input of the graph, which
    [getInputIndex] therefore finds. *)
Theorem built_graph_is_well_formed (source : InputSource) (n : nat) (calls : list Call) :
  let graph :=
    chainGraph (chain (stateOf (andThen (video source n) (performAll calls)))) in
  List.NoDup (map id (inputs graph))
  /\ (exists first rest, inputs graph = first :: rest /\ id first = inputIdOf n)
  /\ length (videoStreams graph) = 1%nat
  /\ length (audioStreams graph) = 1%nat
  /\ (forall r, referencedBy graph r ->
        resolves graph r
        /\ 0 <= getInputIndex graph r < Z.of_nat (length (inputs graph))).
Proof.
  destruct (video_BuiltFrom source n) as (b0 & -> & Hb0). cbn [andThen].
  destruct (performAll_BuiltFrom n calls b0 Hb0) as [Hb _].
  set (b := stateOf (performAll calls b0)) in *. cbv zeta.
  pose proof Hb as (Hp & (ks & Hids & Hnd & _) & (vs & Hvs & _) & (s & Has & _)).
  split; [rewrite Hids; now apply inputIdOf_NoDup|].
  split.
  { destruct (inputs (chainGraph (chain b))) as [|first rest]; [discriminate Hids|].
    exists first, rest. split; [reflexivity|]. now injection Hids. }
  split; [now rewrite Hvs|]. split; [now rewrite Has|].
  intros r Hr. pose proof (BuiltFrom_references n b r Hb Hr) as Hres.
  split; [exact Hres | now apply getInputIndex_in_range].
Qed.

(** X18.  After [video(source)] a chain of calls goes through unless it
    holds an overlay without a source: a throw carries the message
    ["Overlay source is required"] and comes from such a call, and without
    such a call the chain returns. *)
Theorem only_sourceless_overlay_throws (source : InputSource) (n : nat)
        (calls : list Call) :
  (forall e s,
      andThen (video source n) (performAll calls) = Threw e s ->
      e = "Overlay source is required"
      /\ exists c, In c calls /\ sourcelessOverlay c)
  /\ ((forall c, In c calls -> ~ sourcelessOverlay c) ->
      exists b, andThen (video source n) (performAll calls) = Returned b).
Proof.
  destruct (video_BuiltFrom source n) as (b0 & -> & Hb0). cbn [andThen].
  destruct (performAll_BuiltFrom n calls b0 Hb0)
    as [_ [(b' & Hret) | (s' & Hthrow & c & Hin & Hc)]].
  - split.
    + intros e s H. rewrite Hret in H. discriminate H.
    + intros _. now exists b'.
  - split.
    + intros e s H. rewrite Hthrow in H. injection H as <- <-.
      split; [reflexivity|]. now exists c.
    + intros Hnone. exfalso. exact (Hnone c Hin Hc).
Qed.

(** X19.  An overlay that goes through leaves a graph for the complex
    compiler, whatever the chain was before: the first video stream holds
    an overlay filter. *)
Theorem overlay_routes_to_complex_compiler
        (src : OverlaySource) (o : OverlayOptions) (b b' : Building) :
  chainOverlay src o b = Returned b' ->
  requiresComplexFilter (chainGraph (chain b')) = true
  /\ compile (chainGraph (chain b')) = compileComplex (chainGraph (chain b')).
Proof.
  intros H.
  assert (Hc : requiresComplexFilter (chainGraph (chain b')) = true).
  { apply requiresComplexFilter_iff. right. left.
    unfold chainOverlay in H.
    destruct (overlaySourceOf src) as [overlaySource|]; [|discriminate H].
    unfold addVideoFilterInternal, addVideoFilter in H. cbn in H.
    destruct (videoStreams (chainGraph (chain b))) as [|first rest] eqn:Hvs;
      cbn in H.
    - destruct (primaryInputId (chain b)) as [primary|]; [|discriminate H].
      destruct (Js.truthyString primary); [|discriminate H].
      injection H as <-. cbn.
      eexists _, _. split; [now left|]. split; [now left | reflexivity].
    - injection H as <-. cbn.
      eexists _, _. split; [now left|].
      split; [apply in_or_app; right; now left | reflexivity]. }
  split; [exact Hc|]. unfold compile. now rewrite Hc.
Qed.


(** ** Version comparison ([compareVersions]) *)

Lemma compare_swap (a b : number) :
  Js.compare b a = option_map CompOpp (Js.compare a b).
Proof.
  destruct a as [x| | |], b as [y| | |]; try reflexivity.
  simpl. f_equal. unfold Qccompare. symmetry. apply Qcompare_antisym.
Qed.

Lemma lt_gt_swap (a b : number) : Js.lt b a = Js.gt a b.
Proof.
  unfold Js.lt, Js.gt. rewrite compare_swap.
  destruct (Js.compare a b) as [[| |]|]; reflexivity.
Qed.

Lemma gt_lt_swap (a b : number) : Js.gt b a = Js.lt a b.
Proof. symmetry. apply lt_gt_swap. Qed.

Lemma lt_gt_exclusive (a b : number) : Js.lt a b = true -> Js.gt a b = false.
Proof.
  unfold Js.lt, Js.gt. destruct (Js.compare a b) as [[| |]|]; auto; discriminate.
Qed.

Lemma lt_irreflexive (a : number) : Js.lt a a = false.
Proof.
  unfold Js.lt. destruct a as [x| | |]; try reflexivity.
  simpl. now rewrite (proj1 (Qceq_alt x x) eq_refl).
Qed.

Lemma gt_irreflexive (a : number) : Js.gt a a = false.
Proof. rewrite <- lt_gt_swap. apply lt_irreflexive. Qed.

Lemma compareFrom_refl (parts : list number) (i n : nat) :
  compareFrom parts parts i n = 0.
Proof.
  revert i. induction n as [|n IH]; intros i; [reflexivity|].
  cbn [compareFrom]. now rewrite lt_irreflexive, gt_irreflexive.
Qed.

Lemma compareFrom_swap (partsA partsB : list number) (i n : nat) :
  compareFrom partsB partsA i n = - compareFrom partsA partsB i n.
Proof.
  revert i. induction n as [|n IH]; intros i; [reflexivity|].
  cbn [compareFrom].
  rewrite (lt_gt_swap (partAt partsA i) (partAt partsB i)).
  rewrite (gt_lt_swap (partAt partsA i) (partAt partsB i)).
  destruct (Js.lt (partAt partsA i) (partAt partsB i)) eqn:Hlt.
  - now rewrite (lt_gt_exclusive _ _ Hlt).
  - destruct (Js.gt (partAt partsA i) (partAt partsB i)); [reflexivity | apply IH].
Qed.

Lemma compareFrom_sign (partsA partsB : list number) (i n : nat) :
  compareFrom partsA partsB i n = -1
  \/ compareFrom partsA partsB i n = 0
  \/ compareFrom partsA partsB i n = 1.
Proof.
  revert i. induction n as [|n IH]; intros i; [now right; left|].
  cbn [compareFrom].
  destruct (Js.lt _ _); [now left|]. destruct (Js.gt _ _); [now right; right|].
  apply IH.
Qed.

(** X20.  [compareVersions] is a three-way comparison whatever the runtime
    makes of the parts: the result is -1, 0 or 1, a version compares equal
    to itself, and swapping the arguments negates the result. *)
Theorem compareVersions_is_antisymmetric (stringToNumber : string -> number)
        (a b : string) :
  (compareVersions stringToNumber a b = -1
   \/ compareVersions stringToNumber a b = 0
   \/ compareVersions stringToNumber a b = 1)
  /\ compareVersions stringToNumber a a = 0
  /\ compareVersions stringToNumber b a = - compareVersions stringToNumber a b.
Proof.
  unfold compareVersions, compareParts. split; [apply compareFrom_sign|]. split.
  - apply compareFrom_refl.
  - rewrite Nat.max_comm. apply compareFrom_swap.
Qed.

Lemma partAt_beyond (parts : list number) (i : nat) :
  (length parts <= i)%nat -> partAt parts i = Js.ofZ 0.
Proof.
  intros H. unfold partAt. now rewrite lookup_ge_None_2.
Qed.

Lemma partAt_padded (parts : list number) (k i : nat) :
  partAt (parts ++ repeat (Js.ofZ 0) k) i = partAt parts i.
Proof.
  destruct (Nat.lt_ge_cases i (length parts)) as [Hlt | Hge].
  - unfold partAt. now rewrite lookup_app_l.
  - rewrite (partAt_beyond parts i Hge). unfold partAt.
    rewrite lookup_app_r by exact Hge.
    destruct (repeat (Js.ofZ 0) k !! (i - length parts)%nat) as [x|] eqn:E;
      [|reflexivity].
    apply list_elem_of_lookup_2, list_elem_of_In, repeat_spec in E. now subst.
Qed.

Lemma compareFrom_ext (partsA partsA' partsB : list number) (i n : nat) :
  (forall j, partAt partsA' j = partAt partsA j) ->
  compareFrom partsA' partsB i n = compareFrom partsA partsB i n.
Proof.
  intros H. revert i. induction n as [|n IH]; intros i; [reflexivity|].
  cbn [compareFrom]. now rewrite H, IH.
Qed.

Lemma compareFrom_beyond (partsA partsB : list number) (i n : nat) :
  (length partsA <= i)%nat -> (length partsB <= i)%nat ->
  compareFrom partsA partsB i n = 0.
Proof.
  revert i. induction n as [|n IH]; intros i Ha Hb; [reflexivity|].
  cbn [compareFrom]. rewrite (partAt_beyond _ _ Ha), (partAt_beyond _ _ Hb).
  rewrite lt_irreflexive, gt_irreflexive. apply IH; lia.
Qed.

Lemma compareFrom_more (partsA partsB : list number) (i n m : nat) :
  (length partsA <= i + n)%nat -> (length partsB <= i + n)%nat ->
  compareFrom partsA partsB i (n + m) = compareFrom partsA partsB i n.
Proof.
  revert i. induction n as [|n IH]; intros i Ha Hb.
  - cbn [Nat.add compareFrom]. apply compareFrom_beyond; lia.
  - cbn [Nat.add compareFrom].
    destruct (Js.lt _ _); [reflexivity|]. destruct (Js.gt _ _); [reflexivity|].
    apply IH; lia.
Qed.

Lemma compareFrom_tail (x y : number) (partsA partsB : list number) (i n : nat) :
  compareFrom (x :: partsA) (y :: partsB) (S i) n = compareFrom partsA partsB i n.
Proof.
  revert i. induction n as [|n IH]; intros i; [reflexivity|].
  cbn [compareFrom]. unfold partAt at 1 2 3 4. cbn [lookup list_lookup].
  fold (partAt partsA i). fold (partAt partsB i). now rewrite IH.
Qed.

Lemma compareParts_cons (x y : number) (partsA partsB : list number) :
  compareParts (x :: partsA) (y :: partsB)
  = if Js.lt x y then -1
    else if Js.gt x y then 1
    else compareParts partsA partsB.
Proof.
  unfold compareParts. cbn [length]. rewrite <- Nat.succ_max_distr.
  cbn [compareFrom]. now rewrite compareFrom_tail.
Qed.

(** X21.  Missing parts count as zero, and a part that is not a number
    decides nothing: parts [0] appended to a version do not change the
    comparison, and where one side has [NaN] the comparison is that of the
    parts after it. *)
Theorem compareParts_pads_with_zero_and_skips_NaN
        (partsA partsB : list number) (k : nat) (x : number) :
  compareParts (partsA ++ repeat (Js.ofZ 0) k) partsB = compareParts partsA partsB
  /\ compareParts (Js.NaN :: partsA) (x :: partsB) = compareParts partsA partsB
  /\ compareParts (x :: partsA) (Js.NaN :: partsB) = compareParts partsA partsB.
Proof.
  split; [|split].
  - unfold compareParts.
    rewrite (compareFrom_ext partsA _ partsB) by apply partAt_padded.
    rewrite length_app, repeat_length.
    set (n := Nat.max (length partsA) (length partsB)).
    replace (Nat.max (length partsA + k) (length partsB))
      with (n + (Nat.max (length partsA + k) (length partsB) - n))%nat by lia.
    apply compareFrom_more; lia.
  - rewrite compareParts_cons. reflexivity.
  - rewrite compareParts_cons. now destruct x.
Qed.


(** ** The progress-line buffer ([createProgressParser]) *)

Lemma splitOn_nonempty (c : ascii) (s : string) : splitOn c s <> [].
Proof.
  destruct s as [|a s]; [discriminate|]. cbn [splitOn].
  destruct (Ascii.eqb a c); [discriminate|]. destruct (splitOn c s); discriminate.
Qed.

Lemma splitOn_pieces (c : ascii) (s : string) :
  Forall (fun p => hasChar c p = false) (splitOn c s).
Proof.
  induction s as [|a s IH]; [now repeat constructor|].
  cbn [splitOn]. destruct (Ascii.eqb a c) eqn:E; [now constructor|].
  destruct (splitOn c s) as [|first rest].
  - repeat constructor. cbn [hasChar]. now rewrite E.
  - inversion IH as [|? ? Hfirst Hrest]; subst. constructor; [|exact Hrest].
    cbn [hasChar]. now rewrite E, Hfirst.
Qed.

Lemma splitOn_keeps (d c : ascii) (s : string) :
  hasChar d s = false -> Forall (fun p => hasChar d p = false) (splitOn c s).
Proof.
  induction s as [|a s IH]; [now repeat constructor|].
  cbn [hasChar]. intros H. apply orb_false_iff in H as [Ha Hs].
  specialize (IH Hs). cbn [splitOn].
  destruct (Ascii.eqb a c); [now constructor|].
  destruct (splitOn c s) as [|first rest].
  - repeat constructor. cbn [hasChar]. now rewrite Ha.
  - inversion IH as [|? ? Hfirst Hrest]; subst. constructor; [|exact Hrest].
    cbn [hasChar]. now rewrite Ha, Hfirst.
Qed.

Lemma splitOn_free (c : ascii) (s : string) :
  hasChar c s = false -> splitOn c s = [s].
Proof.
  induction s as [|a s IH]; [reflexivity|].
  cbn [hasChar]. intros H. apply orb_false_iff in H as [Ha Hs].
  cbn [splitOn]. now rewrite Ha, (IH Hs).
Qed.

Lemma splitOn_at (c : ascii) (x y : string) :
  hasChar c x = false -> splitOn c (x +:+ String c y) = x :: splitOn c y.
Proof.
  induction x as [|a x IH].
  - intros _. rewrite append_nil_l. cbn [splitOn]. now rewrite Ascii.eqb_refl.
  - cbn [hasChar]. intros H. apply orb_false_iff in H as [Ha Hx].
    rewrite append_cons. cbn [splitOn]. now rewrite Ha, (IH Hx).
Qed.

Lemma splitLines_one (a : ascii) :
  splitLines (String a "") = if Ascii.eqb a LF then [""; ""] else [String a ""].
Proof. reflexivity. Qed.

Lemma splitLines_two (a b : ascii) (s : string) :
  splitLines (String a (String b s))
  = if Ascii.eqb a LF then "" :: splitLines (String b s)
    else if Ascii.eqb a CR && Ascii.eqb b LF then "" :: splitLines s
    else match splitLines (String b s) with
         | first :: rest => String a first :: rest
         | [] => [String a ""]
         end.
Proof. reflexivity. Qed.

Lemma splitLines_pieces (s : string) :
  Forall (fun p => hasChar LF p = false) (splitLines s).
Proof.
  enough (H : Forall (fun p => hasChar LF p = false) (splitLines s)
              /\ forall a, Forall (fun p => hasChar LF p = false)
                             (splitLines (String a s))) by apply H.
  induction s as [|b s [IH1 IH2]].
  - split; [now repeat constructor|]. intros a. rewrite splitLines_one.
    destruct (Ascii.eqb a LF) eqn:E; repeat constructor.
    cbn [hasChar]. now rewrite E.
  - split; [apply IH2|]. intros a. rewrite splitLines_two.
    destruct (Ascii.eqb a LF) eqn:E; [constructor; [reflexivity | apply IH2]|].
    destruct (Ascii.eqb a CR && Ascii.eqb b LF); [now constructor|].
    specialize (IH2 b). destruct (splitLines (String b s)) as [|first rest].
    + repeat constructor. cbn [hasChar]. now rewrite E.
    + inversion IH2 as [|? ? Hfirst Hrest]; subst. constructor; [|exact Hrest].
      cbn [hasChar]. now rewrite E, Hfirst.
Qed.

Lemma splitLines_free (s : string) :
  hasChar LF s = false -> splitLines s = [s].
Proof.
  induction s as [|a s IH]; [reflexivity|].
  cbn [hasChar]. intros H. apply orb_false_iff in H as [Ha Hs].
  destruct s as [|b s]; [now rewrite splitLines_one, Ha|].
  rewrite splitLines_two, Ha, (IH Hs).
  cbn [hasChar] in Hs. apply orb_false_iff in Hs as [Hb _].
  now rewrite Hb, andb_false_r.
Qed.

Lemma Forall_last_default (P : string -> Prop) (l : list string) :
  P "" -> Forall P l -> P (default "" (last l)).
Proof.
  intros H0 H. destruct (last l) as [x|] eqn:E; [|exact H0].
  rewrite Forall_forall in H. apply H. now apply last_Some_elem_of.
Qed.

Lemma Forall_removelast {A : Type} (P : A -> Prop) (l : list A) :
  Forall P l -> Forall P (removelast l).
Proof.
  induction 1 as [|x l Hx Hl IH]; [constructor|].
  cbn [removelast]. destruct l; [constructor | now constructor].
Qed.

(** X22.  After any chunk the buffer holds neither a carriage return nor a
    line feed, and no line handed to [parseProgressLine] holds a line
    feed. *)
Theorem feedChunk_leaves_a_clean_buffer (buffer chunk : string) :
  hasChar CR (snd (feedChunk buffer chunk)) = false
  /\ hasChar LF (snd (feedChunk buffer chunk)) = false
  /\ Forall (fun line => hasChar LF line = false) (fst (feedChunk buffer chunk)).
Proof.
  unfold feedChunk.
  pose proof (splitLines_pieces (buffer +:+ chunk)) as Hlines.
  set (lines := splitLines (buffer +:+ chunk)) in *.
  pose proof (Forall_last_default (fun p => hasChar LF p = false) lines eq_refl Hlines)
    as Hlast.
  pose proof (Forall_removelast _ _ Hlines) as Hcomplete.
  set (buffer1 := default "" (last lines)) in *.
  destruct (hasChar CR buffer1) eqn:Hcr; cbn [fst snd].
  - pose proof (splitOn_pieces CR buffer1) as Hcrfree.
    pose proof (splitOn_keeps LF CR buffer1 Hlast) as Hlffree.
    split; [|split].
    + now apply (Forall_last_default (fun p => hasChar CR p = false)).
    + now apply (Forall_last_default (fun p => hasChar LF p = false)).
    + apply Forall_app. split; [exact Hcomplete | now apply Forall_removelast].
  - now repeat split.
Qed.

Lemma splitLines_without_CR (s : string) :
  hasChar CR s = false -> splitLines s = splitOn LF s.
Proof.
  enough (H : (hasChar CR s = false -> splitLines s = splitOn LF s)
              /\ forall a, hasChar CR (String a s) = false ->
                           splitLines (String a s) = splitOn LF (String a s))
    by apply H.
  induction s as [|b s [IH1 IH2]].
  - split; [reflexivity|]. intros a _. rewrite splitLines_one. cbn [splitOn].
    now destruct (Ascii.eqb a LF).
  - split; [apply IH2|]. intros a H.
    cbn [hasChar] in H. apply orb_false_iff in H as [Ha Hs].
    rewrite splitLines_two, Ha. cbn [andb].
    change (splitOn LF (String a (String b s)))
      with (if Ascii.eqb a LF then EmptyString :: splitOn LF (String b s)
            else match splitOn LF (String b s) with
                 | first :: rest => String a first :: rest
                 | [] => [String a EmptyString]
                 end).
    now rewrite (IH2 b Hs).
Qed.

Lemma last_cons_nonempty {A : Type} (x : A) (l : list A) :
  l <> [] -> last (x :: l) = last l.
Proof. destruct l; [contradiction | reflexivity]. Qed.

Lemma last_app_nonempty {A : Type} (l l' : list A) :
  l' <> [] -> last (l ++ l') = last l'.
Proof.
  intros H. induction l as [|x l IH]; [reflexivity|].
  cbn [app]. rewrite last_cons_nonempty; [exact IH|].
  intros E. apply app_eq_nil in E as [_ E]. contradiction.
Qed.

Lemma splitOn_app (c : ascii) (a b : string) :
  splitOn c (a +:+ b)
  = removelast (splitOn c a) ++ splitOn c (default "" (last (splitOn c a)) +:+ b).
Proof.
  induction a as [|x a IH]; [reflexivity|].
  rewrite append_cons. cbn [splitOn].
  pose proof (splitOn_nonempty c a) as Hne.
  destruct (Ascii.eqb x c) eqn:E.
  - rewrite IH. rewrite last_cons_nonempty by exact Hne.
    cbn [removelast]. destruct (splitOn c a); [contradiction | reflexivity].
  - rewrite IH. destruct (splitOn c a) as [|f0 [|r1 r0]]; [contradiction| |].
    + cbn [removelast last default app from_option]. cbn.
      rewrite append_cons. cbn [splitOn]. now rewrite E.
    + rewrite !last_cons_nonempty by discriminate.
      change (removelast (f0 :: r1 :: r0)) with (f0 :: removelast (r1 :: r0)).
      change (removelast (String x f0 :: r1 :: r0))
        with (String x f0 :: removelast (r1 :: r0)).
      reflexivity.
Qed.

Lemma feedChunk_without_CR (buffer chunk : string) :
  hasChar CR (buffer +:+ chunk) = false ->
  feedChunk buffer chunk
  = (removelast (splitOn LF (buffer +:+ chunk)),
     default "" (last (splitOn LF (buffer +:+ chunk)))).
Proof.
  intros H. unfold feedChunk. rewrite (splitLines_without_CR _ H).
  pose proof (splitOn_keeps CR LF _ H) as Hk.
  now rewrite (Forall_last_default (fun p => hasChar CR p = false) _ eq_refl Hk).
Qed.

(** X23.  As long as the text holds no carriage return, how it is cut into
    chunks does not matter: feeding [c1] and then [c2] hands over the same
    lines, and leaves the same buffer, as feeding both at once. *)
Theorem feedChunk_ignores_chunk_boundaries (buffer c1 c2 : string) :
  hasChar CR buffer = false -> hasChar CR c1 = false -> hasChar CR c2 = false ->
  feedChunk buffer (c1 +:+ c2)
  = (fst (feedChunk buffer c1) ++ fst (feedChunk (snd (feedChunk buffer c1)) c2),
     snd (feedChunk (snd (feedChunk buffer c1)) c2)).
Proof.
  intros Hb H1 H2.
  assert (Hbc : hasChar CR (buffer +:+ c1) = false) by now rewrite hasChar_app, Hb, H1.
  rewrite (feedChunk_without_CR buffer c1 Hbc). cbn [fst snd].
  set (lines1 := splitOn LF (buffer +:+ c1)).
  assert (Hrest : hasChar CR (default "" (last lines1)) = false).
  { apply (Forall_last_default (fun p => hasChar CR p = false)); [reflexivity|].
    now apply splitOn_keeps. }
  rewrite (feedChunk_without_CR (default "" (last lines1)) c2)
    by now rewrite hasChar_app, Hrest, H2.
  rewrite feedChunk_without_CR by now rewrite !hasChar_app, Hb, H1, H2.
  cbn [fst snd]. rewrite <- append_assoc, splitOn_app. fold lines1.
  pose proof (splitOn_nonempty LF (default "" (last lines1) +:+ c2)) as Hne.
  now rewrite removelast_app, last_app_nonempty by exact Hne.
Qed.

(** X24.  A carriage return ends a progress update only when no line feed
    follows in the same text: of two updates separated by a carriage return
    the first is handed over at once and the second kept; if a line feed
    ends the text, both are handed over as one line, carriage return
    included. *)
Theorem feedChunk_splits_on_carriage_return (buffer x y : string) :
  hasChar CR (buffer +:+ x) = false -> hasChar LF (buffer +:+ x) = false ->
  hasChar CR y = false -> hasChar LF y = false -> y <> "" ->
  feedChunk buffer (x +:+ String CR y) = ([buffer +:+ x], y)
  /\ feedChunk buffer (x +:+ String CR (y +:+ String LF ""))
     = ([buffer +:+ x +:+ String CR y], "").
Proof.
  intros Hxc Hxl Hyc Hyl Hy. split.
  - unfold feedChunk. rewrite <- append_assoc.
    rewrite splitLines_free by (rewrite hasChar_app, Hxl; cbn [hasChar]; now rewrite Hyl).
    cbn [last default from_option removelast app]. cbn [Datatypes.id].
    replace (hasChar CR ((buffer +:+ x) +:+ String CR y)) with true
      by (rewrite hasChar_app; cbn [hasChar]; rewrite Ascii.eqb_refl;
          now rewrite orb_true_r).
    rewrite (splitOn_at CR _ y Hxc), (splitOn_free CR y Hyc). reflexivity.
  - assert (Hsplit : forall z, hasChar LF z = false ->
                       splitLines (z +:+ String CR (y +:+ String LF ""))
                       = [z +:+ String CR y; ""]).
    { assert (Hybody : forall v, hasChar CR v = false -> hasChar LF v = false ->
                         splitLines (v +:+ String LF "") = [v; ""]).
      { induction v as [|a v IHv]; [reflexivity|].
        cbn [hasChar]. intros Hc Hl.
        apply orb_false_iff in Hc as [Hac Hvc]. apply orb_false_iff in Hl as [Hal Hvl].
        specialize (IHv Hvc Hvl). rewrite append_cons.
        destruct v as [|b v].
        - rewrite append_nil_l, splitLines_two, Hal, Hac. reflexivity.
        - rewrite append_cons in *. rewrite splitLines_two, Hal, IHv.
          cbn [hasChar] in Hvl. apply orb_false_iff in Hvl as [Hbl _].
          now rewrite Hbl, andb_false_r. }
      destruct y as [|b y']; [contradiction|].
      cbn [hasChar] in Hyl. apply orb_false_iff in Hyl as [Hbl Hyl'].
      induction z as [|a z IHz].
      - intros _. rewrite !append_nil_l, append_cons, splitLines_two.
        change (Ascii.eqb CR LF) with false. cbv iota.
        rewrite Hbl, andb_false_r.
        rewrite <- append_cons, (Hybody (String b y') Hyc); [reflexivity|].
        cbn [hasChar]. now rewrite Hbl, Hyl'.
      - cbn [hasChar]. intros H. apply orb_false_iff in H as [Hal Hzl].
        specialize (IHz Hzl). rewrite !(append_cons a z).
        destruct z as [|c z].
        + rewrite !append_nil_l in *. rewrite splitLines_two, Hal, IHz.
          change (Ascii.eqb CR LF) with false. now rewrite andb_false_r.
        + rewrite !(append_cons c z) in *. rewrite splitLines_two, Hal, IHz.
          cbn [hasChar] in Hzl. apply orb_false_iff in Hzl as [Hcl _].
          now rewrite Hcl, andb_false_r. }
    unfold feedChunk. rewrite <- append_assoc, (Hsplit _ Hxl).
    cbn. now rewrite append_assoc.
Qed.


(** ** Filters added to the first stream ([addVideoFilter], [addAudioFilter]) *)

Lemma walkFilter_same_inputs (g1 g2 : MediaGraph) (w : VideoWalk) (f : VideoFilter) :
  inputs g1 = inputs g2 -> walkFilter g1 w f = walkFilter g2 w f.
Proof.
  intros H. destruct f; try reflexivity.
  cbn [walkFilter]. unfold getInputIndex. now rewrite H.
Qed.

Lemma walk_same_inputs (g1 g2 : MediaGraph) (fs : list VideoFilter) (w : VideoWalk) :
  inputs g1 = inputs g2 ->
  fold_left (walkFilter g1) fs w = fold_left (walkFilter g2) fs w.
Proof.
  intros H. revert w. induction fs as [|f fs IH]; intros w; [reflexivity|].
  cbn [fold_left]. now rewrite IH, (walkFilter_same_inputs g1 g2 w f H).
Qed.

Lemma existsb_of_find {A : Type} (p : A -> bool) (l : list A) :
  existsb p l = match find p l with Some _ => true | None => false end.
Proof.
  induction l as [|x l IH]; [reflexivity|].
  cbn [existsb find]. now destruct (p x).
Qed.

(** The compilers read a graph through its inputs, its output, its options,
    the first enabled stream of each kind and the classifier. *)
Lemma compile_same_selection (g1 g2 : MediaGraph) :
  inputs g1 = inputs g2 -> output g1 = output g2 -> options g1 = options g2 ->
  find videoEnabled (videoStreams g1) = find videoEnabled (videoStreams g2) ->
  find audioEnabled (audioStreams g1) = find audioEnabled (audioStreams g2) ->
  requiresComplexFilter g1 = requiresComplexFilter g2 ->
  compile g1 = compile g2.
Proof.
  intros Hin Hout Hopt Hv Ha Hreq.
  assert (Hhv : hasVideoOutput g1 = hasVideoOutput g2).
  { unfold hasVideoOutput. now rewrite !existsb_of_find, Hv. }
  assert (Hha : hasAudioOutput g1 = hasAudioOutput g2).
  { unfold hasAudioOutput. now rewrite !existsb_of_find, Ha. }
  assert (Hidx : forall r, getInputIndex g1 r = getInputIndex g2 r).
  { intros r. unfold getInputIndex. now rewrite Hin. }
  assert (Hoa : forall hv ha, outputArgs g1 hv ha = outputArgs g2 hv ha).
  { intros hv ha.
    unfold outputArgs, videoCodecArgs, audioCodecArgs, metadataArgs, outputFlagArgs,
      outputFormatArgs, destinationArgs.
    now rewrite Hout. }
  assert (Hvg : forall hv, videoGraph g1 hv = videoGraph g2 hv).
  { intros hv. unfold videoGraph. rewrite Hv.
    destruct hv; [|reflexivity].
    destruct (find videoEnabled (videoStreams g2)) as [s|]; [|reflexivity].
    now rewrite Hidx, (walk_same_inputs g1 g2 _ _ Hin). }
  assert (Hag : forall ha, audioGraph g1 ha = audioGraph g2 ha).
  { intros ha. unfold audioGraph. rewrite Ha.
    destruct ha; [|reflexivity].
    destruct (find audioEnabled (audioStreams g2)) as [s|]; [|reflexivity].
    now rewrite Hidx. }
  unfold compile. rewrite Hreq.
  destruct (requiresComplexFilter g2).
  - unfold compileComplex. rewrite Hhv, Hha, Hvg, Hag, Hopt, Hoa.
    unfold inputsArgs. now rewrite Hin.
  - unfold compileSimple, videoFilterArgs, audioFilterArgs.
    rewrite Hhv, Hha, Hv, Ha, Hopt, Hoa. unfold inputsArgs. now rewrite Hin.
Qed.

Lemma existsb_isOverlay_snoc (fs : list VideoFilter) (f : VideoFilter) :
  isOverlay f = false -> existsb isOverlay (fs ++ [f]) = existsb isOverlay fs.
Proof.
  intros H. rewrite existsb_app. cbn [existsb]. rewrite H. now rewrite !orb_false_r.
Qed.

(** X25.  A filter added to a graph whose first audio stream is disabled
    changes nothing in what is compiled: [addAudioFilter] puts it on
    stream 0, and both compilers read the first enabled stream. *)
Theorem audio_filter_on_disabled_stream_is_ignored
        (graph : MediaGraph) (f : AudioFilter) (first : AudioStream)
        (rest : list AudioStream) :
  audioStreams graph = first :: rest ->
  audioEnabled first = false ->
  exists graph',
    addAudioFilter graph f = Returned graph'
    /\ In f (concat (map as_filters (audioStreams graph')))
    /\ compile graph' = compile graph.
Proof.
  intros Has Hoff. unfold addAudioFilter. rewrite Has.
  eexists. split; [reflexivity|]. split.
  { cbn. apply in_or_app. left. apply in_or_app. right. now left. }
  apply compile_same_selection; try reflexivity.
  - cbn [audioStreams withAudioStreams]. rewrite Has. cbn [find].
    change (audioEnabled (pushAudioFilter first f)) with (audioEnabled first).
    now rewrite Hoff.
  - unfold requiresComplexFilter. cbn [inputs videoStreams audioStreams withAudioStreams].
    now rewrite Has.
Qed.

(** X26.  Likewise for video, for any filter but an overlay (an overlay on
    a disabled stream still makes the classifier choose the complex
    compiler): added to a disabled first video stream, it leaves the
    compiled arguments as they were. *)
Theorem video_filter_on_disabled_stream_is_ignored
        (graph : MediaGraph) (f : VideoFilter) (first : VideoStream)
        (rest : list VideoStream) :
  videoStreams graph = first :: rest ->
  videoEnabled first = false ->
  isOverlay f = false ->
  exists graph',
    addVideoFilter graph f = Returned graph'
    /\ In f (concat (map vs_filters (videoStreams graph')))
    /\ compile graph' = compile graph.
Proof.
  intros Hvs Hoff Hf. unfold addVideoFilter. rewrite Hvs.
  eexists. split; [reflexivity|]. split.
  { cbn. apply in_or_app. left. apply in_or_app. right. now left. }
  apply compile_same_selection; try reflexivity.
  - cbn [videoStreams withVideoStreams]. rewrite Hvs. cbn [find].
    change (videoEnabled (pushVideoFilter first f)) with (videoEnabled first).
    now rewrite Hoff.
  - unfold requiresComplexFilter. cbn [inputs videoStreams audioStreams withVideoStreams].
    rewrite Hvs. cbn [existsb length pushVideoFilter vs_filters].
    now rewrite (existsb_isOverlay_snoc _ _ Hf).
Qed.

Lemma join_snoc (sep x : string) (l : list string) :
  l <> [] -> Js.join sep (l ++ [x]) = Js.join sep l +:+ sep +:+ x.
Proof.
  induction l as [|a l IH]; [contradiction|]. intros _.
  destruct l as [|b l]; [reflexivity|].
  change (Js.join sep ((a :: b :: l) ++ [x]))
    with (a +:+ sep +:+ Js.join sep ((b :: l) ++ [x])).
  rewrite IH by discriminate.
  change (Js.join sep (a :: b :: l)) with (a +:+ sep +:+ Js.join sep (b :: l)).
  now rewrite !append_assoc.
Qed.

(** X27.  [addVideoFilter] throws exactly when the graph has no video
    stream, and leaves the graph as it was; otherwise only the first
    stream changes, and its serialized chain is the old one followed by a
    comma and the new filter (the new filter alone when the chain was
    empty). *)
Theorem added_filter_is_serialized_last (graph : MediaGraph) (f : VideoFilter) :
  (videoStreams graph = [] ->
   addVideoFilter graph f = Threw "No video stream to add filter to" graph)
  /\ (forall first rest,
        videoStreams graph = first :: rest ->
        exists first',
          addVideoFilter graph f = Returned (withVideoStreams graph (first' :: rest))
          /\ vs_inputRef first' = vs_inputRef first
          /\ vs_disabled first' = vs_disabled first
          /\ serializeVideoFilterChain (vs_filters first')
             = match vs_filters first with
               | [] => serializeVideoFilter f
               | _ => serializeVideoFilterChain (vs_filters first) +:+ ","
                      +:+ serializeVideoFilter f
               end).
Proof.
  unfold addVideoFilter. split.
  - now intros ->.
  - intros first rest ->. exists (pushVideoFilter first f).
    split; [reflexivity|]. split; [reflexivity|]. split; [reflexivity|].
    cbn [pushVideoFilter vs_filters].
    destruct (vs_filters first) as [|g gs]; [reflexivity|].
    unfold serializeVideoFilterChain. rewrite length_app. cbn [length].
    replace (S (length gs) + 1 =? 0)%nat with false by (symmetry; apply Nat.eqb_neq; lia).
    cbn [Nat.eqb]. rewrite map_app. cbn [map].
    apply join_snoc. discriminate.
Qed.


(** ** From the builder to the arguments *)

(** The graph [video(source)] followed by [save(path)] hands to the
    validator and the compilers. *)
Lemma plain_chain_graph (source : InputSource) (n : nat) (path : string) :
  chainGraph (savedTo (DestPath path) (stateOf (video source n)))
  = {| inputs := [{| id := inputIdOf n; source := source; in_options := None |}];
       videoStreams := [{| vs_inputRef := inputIdOf n; vs_streamIndex := None;
                           vs_filters := []; vs_disabled := None |}];
       audioStreams := [{| as_inputRef := inputIdOf n; as_streamIndex := None;
                           as_filters := []; as_disabled := None |}];
       output := {| destination := DestPath path; out_format := None;
                    out_video := None; out_audio := None; metadata := None;
                    flags := None |};
       options := {| threads := None; overwrite := Some true; logLevel := None;
                     hwAccel := None |} |}.
Proof. reflexivity. Qed.

(** X28.  [video(source)] followed by [save(path)] asks for a plain copy:
    the arguments are ["-y"], ["-i"] with the source, and the path.  With
    an empty path nothing is compiled: the validation error on the
    destination is thrown. *)
Theorem plain_chain_compiles_to_input_and_output
        (source : InputSource) (n : nat) (path : string) :
  toArgs (savedTo (DestPath path) (stateOf (video source n)))
  = if Js.truthyString path
    then inr ["-y"; "-i"; sourceOperand source; path]
    else inl (Some (newValidationError "Output destination is required" None)).
Proof.
  unfold toArgs, assertValid. rewrite plain_chain_graph.
  set (i := inputIdOf n).
  match goal with |- context [validateGraph ?g] => set (graph := g) end.
  destruct (Js.truthyString path) eqn:Hd.
  - assert (Hvalid : valid (validateGraph graph) = true).
    { apply validateGraph_valid_iff. unfold passesChecks.
      split; [discriminate|].
      split; [cbn; now rewrite Hd|].
      split.
      { intros r Hr. exists {| id := i; source := source; in_options := None |}.
        split; [now left|].
        destruct Hr as [(stream & [<- | []] & [Hr | Hr]) | (stream & [<- | []] & Hr)].
        - exact Hr.
        - destruct Hr as (x & y & a & s & []).
        - exact Hr. }
      split; [intros stream filter [<- | []] []|].
      split; [intros stream filter [<- | []] []|].
      intros v crf Hv. discriminate Hv. }
    rewrite Hvalid. cbn [negb]. f_equal.
    unfold compile, requiresComplexFilter, compileSimple.
    cbn -[Js.truthyString]. fold i. destruct source; reflexivity.
  - unfold validateGraph.
    cbn [valid errors head graph inputs output destination destinationMissing length
         Nat.eqb pushIf app].
    rewrite Hd. cbn [negb pushIf app length Nat.eqb head]. reflexivity.
Qed.


(** ** Relabelling the last part ([replace(/\[[^\]]+\]$/, "[v_out]")]) *)

Lemma labelBodyToEnd_label (l : string) :
  l <> "" -> hasChar "]" l = false -> labelBodyToEnd (l +:+ "]") = true.
Proof.
  intros Hne Hno. destruct l as [|c l]; [contradiction|].
  cbn [hasChar] in Hno. apply orb_false_iff in Hno as [Hc Hl].
  rewrite append_cons. cbn [labelBodyToEnd]. rewrite Hc.
  now rewrite closesAtEnd_label.
Qed.

Lemma replaceTrailingLabel_no_open (e l : string) :
  hasChar "[" e = false -> l <> "" -> hasChar "]" l = false ->
  replaceTrailingLabel (e +:+ "[" +:+ l +:+ "]") = e +:+ "[v_out]".
Proof.
  intros He Hne Hno. induction e as [|c e IH].
  - rewrite !append_nil_l, append_cons, append_nil_l. cbn [replaceTrailingLabel].
    now rewrite (labelBodyToEnd_label l Hne Hno).
  - cbn [hasChar] in He. apply orb_false_iff in He as [Hc He].
    rewrite !(append_cons c e). cbn [replaceTrailingLabel]. rewrite Hc. cbn [andb].
    now rewrite (IH He).
Qed.

Lemma overlaySegment_relabel (cur overlayLabel e l : string) :
  hasChar "[" e = false -> l <> "" -> hasChar "]" l = false ->
  replaceTrailingLabel (segment (overlayPads cur overlayLabel) e l)
  = segment (overlayPads cur overlayLabel) e "v_out".
Proof.
  intros He Hne Hno. unfold segment, overlayPads.
  replace (("[" +:+ cur +:+ "][" +:+ overlayLabel +:+ "]") +:+ e +:+ "[" +:+ l +:+ "]")
    with (("[" +:+ cur +:+ "][" +:+ overlayLabel) +:+ "]" +:+ (e +:+ "[" +:+ l +:+ "]"))
    by now rewrite !append_assoc.
  rewrite replaceTrailingLabel_before_tail by apply label_tail_nonempty.
  rewrite (replaceTrailingLabel_no_open e l He Hne Hno).
  now rewrite !append_assoc.
Qed.

(** X29.  Relabelling the last overlay part to [[v_out]] keeps the filter
    expression when it holds no opening bracket.  An opening bracket with
    no closing bracket after it is taken for the start of the label: the
    expression is cut there. *)
Theorem relabelling_cuts_at_an_unclosed_bracket
        (cur overlayLabel e1 e2 : string) (k : nat) :
  hasChar "[" e1 = false -> hasChar "]" e2 = false ->
  replaceTrailingLabel (segment (overlayPads cur overlayLabel) e1 (stageLabel k))
  = segment (overlayPads cur overlayLabel) e1 "v_out"
  /\ replaceTrailingLabel
       (segment (overlayPads cur overlayLabel) (e1 +:+ "[" +:+ e2) (stageLabel k))
     = segment (overlayPads cur overlayLabel) e1 "v_out".
Proof.
  intros H1 H2. split.
  - apply overlaySegment_relabel;
      [exact H1 | apply stageLabel_nonempty | apply stageLabel_no_bracket].
  - replace (segment (overlayPads cur overlayLabel) (e1 +:+ "[" +:+ e2) (stageLabel k))
      with (segment (overlayPads cur overlayLabel) e1 (e2 +:+ "[" +:+ stageLabel k))
      by (unfold segment; now rewrite !append_assoc).
    apply overlaySegment_relabel; [exact H1 | |].
    + apply append_nonempty_r. rewrite append_cons. discriminate.
    + rewrite !hasChar_app, H2, stageLabel_no_bracket. reflexivity.
Qed.


(** ** An overlay, from the builder to the arguments *)

Lemma numStr_ofZ (z : Z) : Z.abs z < 2 ^ 53 -> numStr (Js.ofZ z) = Js.intToString z.
Proof.
  intros H. unfold numStr, Js.toString, Js.ofZ, Js.isInteger.
  cbn [Qc_of_Z this Q2Qc Qden Qnum inject_Z Pos.eqb andb].
  apply Z.ltb_lt in H. now rewrite H.
Qed.

(** X30.  [video(base).overlay(logo, {x, y}).save(path)] with whole-number
    offsets of magnitude below 2^53, a non-empty logo path and a non-empty output path, whatever
    the value of the id counter: the chain is valid and compiles on the
    complex path to both inputs, the one overlay part from [[0:v]] and
    [[1:v]] to [[v_out]], the map of [[v_out]], the map of the base audio
    pad, and the path. *)
Theorem overlay_chain_compiles_to_one_part
        (base logo path : string) (x y : Z) (n : nat) :
  Js.truthyString logo = true -> Js.truthyString path = true ->
  Z.abs x < 2 ^ 53 -> Z.abs y < 2 ^ 53 ->
  toArgs
    (savedTo (DestPath path)
       (stateOf
          (andThen (video (SourcePath base) n)
             (chainOverlay (OverlayPath logo)
                {| oo_x := Some (ENum (Js.ofZ x)); oo_y := Some (ENum (Js.ofZ y));
                   oo_alpha := None |}))))
  = inr ["-y"; "-i"; base; "-i"; logo;
         "-filter_complex";
         "[0:v][1:v]overlay=x=" +:+ Js.intToString x +:+ ":y=" +:+ Js.intToString y
         +:+ "[v_out]";
         "-map"; "[v_out]"; "-map"; "0:a"; path].
Proof.
  intros Hlogo Hpath Hx Hy.
  set (overlay := Overlay (inputIdOf (S n)) (ENum (Js.ofZ x)) (ENum (Js.ofZ y)) None None).
  set (graph :=
         {| inputs := [{| id := inputIdOf n; source := SourcePath base;
                          in_options := None |};
                       {| id := inputIdOf (S n); source := SourcePath logo;
                          in_options := None |}];
            videoStreams := [{| vs_inputRef := inputIdOf n; vs_streamIndex := None;
                                vs_filters := [overlay]; vs_disabled := None |}];
            audioStreams := [{| as_inputRef := inputIdOf n; as_streamIndex := None;
                                as_filters := []; as_disabled := None |}];
            output := {| destination := DestPath path; out_format := None;
                         out_video := None; out_audio := None; metadata := None;
                         flags := None |};
            options := {| threads := None; overwrite := Some true; logLevel := None;
                          hwAccel := None |} |}).
  assert (Hgraph :
            chainGraph
              (savedTo (DestPath path)
                 (stateOf
                    (andThen (video (SourcePath base) n)
                       (chainOverlay (OverlayPath logo)
                          {| oo_x := Some (ENum (Js.ofZ x));
                             oo_y := Some (ENum (Js.ofZ y)); oo_alpha := None |}))))
            = graph).
  { unfold video, chainInput. cbn [inputCounter chain primaryInputId newMediaChain
                                   truthyId negb andThen].
    unfold chainOverlay, overlaySourceOf. rewrite Hlogo. reflexivity. }
  unfold toArgs, assertValid. rewrite Hgraph.
  assert (Hne : inputIdOf n <> inputIdOf (S n)).
  { intros E. apply inputIdOf_injective in E. lia. }
  assert (Hbase : getInputIndex graph (inputIdOf n) = 0).
  { exact (getInputIndex_head graph _ _ eq_refl). }
  assert (Hlogoidx : getInputIndex graph (inputIdOf (S n)) = 1).
  { exact (getInputIndex_second graph _ _ _ eq_refl Hne). }
  assert (Hvalid : valid (validateGraph graph) = true).
  { apply validateGraph_valid_iff. unfold passesChecks.
    assert (Href : forall r, referencedBy graph r -> resolves graph r).
    { intros r Hr.
      destruct Hr as [(stream & [<- | []] & [Hr | Hr]) | (stream & [<- | []] & Hr)].
      - eexists. split; [now left | exact Hr].
      - destruct Hr as (x' & y' & a & s & [Heq | []]).
        injection Heq as <- _ _ _ _.
        eexists. split; [right; now left | reflexivity].
      - eexists. split; [now left | exact Hr]. }
    split; [discriminate|].
    split; [cbn; now rewrite Hpath|].
    split; [exact Href|].
    split.
    { intros stream filter [<- | []] [<- | []].
      cbn [validateVideoFilter overlay].
      replace (Js.StringSet.has (getInputIds graph) (inputIdOf (S n))) with true;
        [reflexivity|].
      symmetry. apply getInputIds_has.
      eexists. split; [right; now left | reflexivity]. }
    split; [intros stream filter [<- | []] []|].
    intros v crf Hv. discriminate Hv. }
  rewrite Hvalid. cbn [negb]. f_equal.
  assert (Hexpr : serializeVideoFilter overlay
                  = "overlay=x=" +:+ Js.intToString x +:+ ":y=" +:+ Js.intToString y).
  { unfold overlay. cbn [serializeVideoFilter serializeExpr Js.truthyBool default
                         from_option app].
    rewrite (numStr_ofZ x Hx), (numStr_ofZ y Hy).
    cbn [Js.join String.concat]. now rewrite !append_assoc. }
  assert (Hvideo : videoGraph graph true
                   = ([segment (overlayPads "0:v" "1:v") (serializeVideoFilter overlay)
                         "v_out"], "v_out")).
  { unfold videoGraph. cbn [graph videoStreams find videoEnabled vs_disabled
                            Js.truthyBool default from_option negb vs_inputRef
                            vs_filters fold_left].
    fold graph. rewrite Hbase.
    unfold walkFilter at 1. fold overlay. cbv zeta.
    cbn [overlay flushNormal normalFilters filterParts currentLabel length Nat.ltb
         Nat.leb app].
    fold overlay. rewrite Hlogoidx.
    unfold finishVideoWalk.
    cbn [normalFilters filterParts currentLabel length Nat.ltb Nat.leb].
    change [segment ("[" +:+ padLabel 0 "v" +:+ "][" +:+ padLabel 1 "v" +:+ "]")
              (serializeVideoFilter overlay) ("v_" +:+ Js.natToString 0)]
      with ([] ++ [segment (overlayPads "0:v" "1:v") (serializeVideoFilter overlay)
                     (stageLabel 0)]).
    rewrite relabelLast_snoc. cbn [app].
    rewrite overlaySegment_relabel;
      [reflexivity | | apply stageLabel_nonempty | apply stageLabel_no_bracket].
    rewrite Hexpr, !hasChar_app, !intToString_chars by reflexivity. reflexivity. }
  assert (Haudio : audioGraph graph true = ([], "0:a")).
  { unfold audioGraph. cbn [graph audioStreams find audioEnabled as_disabled
                            Js.truthyBool default from_option negb as_inputRef
                            as_filters length Nat.ltb Nat.leb].
    fold graph. now rewrite Hbase. }
  unfold compile.
  replace (requiresComplexFilter graph) with true by reflexivity.
  unfold compileComplex.
  replace (hasVideoOutput graph) with true by reflexivity.
  replace (hasAudioOutput graph) with true by reflexivity.
  rewrite Hvideo, Haudio, Hexpr.
  unfold segment, overlayPads. rewrite !append_assoc. reflexivity.
Qed.

End Compiler.

Arguments Returned {S} state.
Arguments Threw {S} error state.

(** * The theorems at work on concrete graphs *)

Ltac not_among :=
  let H := fresh in
  intros H; vm_compute in H;
  repeat (destruct H as [H | H]; [discriminate H|]); exact H.

(** C4 at [start = 5], [end = 10]. *)
Lemma trim_5_10_serializes_with_setpts :
  (is_Some (Some (Js.ofZ 5)) \/ is_Some (Some (Js.ofZ 10)) \/ is_Some (@None number))
  /\ serializeVideoFilter noFraction (Trim (Some (Js.ofZ 5)) (Some (Js.ofZ 10)) None)
     = "trim=start=5:end=10,setpts=PTS-STARTPTS"
  /\ serializeVideoFilter noFraction (Trim (Some (Js.ofZ 5)) (Some (Js.ofZ 10)) None)
     <> "trim=start=5:end=10".
Proof.
  assert (H : is_Some (Some (Js.ofZ 5)) \/ is_Some (Some (Js.ofZ 10))
              \/ is_Some (@None number)) by (left; eexists; reflexivity).
  split; [exact H|].
  exact (trim_is_followed_by_setpts noFraction
           (Some (Js.ofZ 5)) (Some (Js.ofZ 10)) None H).
Defined.

(** C8 at width 1280 with the height left to [-1]. *)
Lemma scale_1280_auto_height_serializes_minus_two :
  Z.even 1280 = true
  /\ autoDimension (Some (Js.ofZ (-1)))
  /\ serializeVideoFilter noFraction
       (Scale (Some (Js.ofZ 1280)) (Some (Js.ofZ (-1))) None None)
     = "scale=w=1280:h=-2".
Proof.
  assert (Hauto : autoDimension (Some (Js.ofZ (-1)))) by (right; reflexivity).
  split; [reflexivity|]. split; [exact Hauto|].
  destruct (scale_auto_dimension_is_codec_safe noFraction 1280 (Some (Js.ofZ (-1)))
              None None eq_refl Hauto) as [(rest & Heq & Hrest) _].
  rewrite Heq, (Hrest eq_refl eq_refl). reflexivity.
Defined.

(** C3 at work: without a codec both disable flags are written; with a video
    codec set, [-vn] is not, although every stream is disabled; and the
    chain [video("in.mp4").mute().audioCodec("aac")] compiles, on the
    simple path, to arguments without [-an] and without a map, so that the
    muted track is encoded. *)
Lemma disabled_graphs_compile_with_and_without_codec :
  compile noFraction disabledGraph = ["-y"; "-i"; "in.mp4"; "-vn"; "-an"; "out.mp4"]
  /\ compile noFraction disabledCodecGraph
     = ["-y"; "-i"; "in.mp4"; "-c:v"; "libx264"; "-an"; "out.mp4"]
  /\ videoCodecArgs noFraction disabledCodecGraph (hasVideoOutput disabledCodecGraph)
     = videoCodecArgs noFraction disabledCodecGraph true
  /\ allAudioDisabled (chainGraph mutedAacChain)
  /\ audioCodecArgs noFraction (chainGraph mutedAacChain)
       (hasAudioOutput (chainGraph mutedAacChain))
     = ["-c:a"; "aac"]
  /\ toArgs noFraction mutedAacChain
     = inr ["-y"; "-i"; "in.mp4"; "-c:a"; "aac"; "out.mp4"].
Proof.
  assert (Hv : allVideoDisabled disabledGraph) by (repeat constructor).
  assert (Ha : allAudioDisabled disabledGraph) by (repeat constructor).
  assert (Hvc : allVideoDisabled disabledCodecGraph) by (repeat constructor).
  assert (Hac : allAudioDisabled disabledCodecGraph) by (repeat constructor).
  assert (Hm : allAudioDisabled (chainGraph mutedAacChain)) by (repeat constructor).
  destruct (codec_block_replaces_disable_flag noFraction disabledGraph)
    as (_ & _ & Hplain).
  destruct (codec_block_replaces_disable_flag noFraction disabledCodecGraph)
    as (Hvideo & _ & Hcodec).
  destruct (codec_block_replaces_disable_flag noFraction (chainGraph mutedAacChain))
    as (_ & Haudio & _).
  split; [rewrite (proj1 (Hplain Hv Ha)); reflexivity|].
  split; [rewrite (proj1 (Hcodec Hvc Hac)); reflexivity|].
  split.
  { destruct (Hvideo Hvc) as (_ & _ & _ & _ & Hset).
    exact (proj1 (Hset h264Config eq_refl)). }
  split; [exact Hm|].
  split; [|reflexivity].
  destruct (Haudio Hm) as (_ & _ & _ & _ & Hset).
  rewrite (proj1 (Hset _ eq_refl)). reflexivity.
Defined.

(** The graph C3 fails on: with a video codec configured, the codec block
    is emitted and [-vn] is not, although every stream is disabled. *)
Lemma disabled_graph_with_codec_has_no_vn :
  allVideoDisabled disabledCodecGraph
  /\ allAudioDisabled disabledCodecGraph
  /\ compile noFraction disabledCodecGraph
     = ["-y"; "-i"; "in.mp4"; "-c:v"; "libx264"; "-an"; "out.mp4"]
  /\ ~ In "-vn" (compile noFraction disabledCodecGraph).
Proof.
  split; [repeat constructor|]. split; [repeat constructor|].
  split; [reflexivity | not_among].
Qed.

(** C2 on the graph the builder makes for one overlay. *)
Lemma overlay_graph_compiles_to_single_segment :
  compileComplex noFraction overlayGraph
  = ["-y"; "-i"; "base.mp4"; "-i"; "logo.png";
     "-filter_complex"; "[0:v][1:v]overlay=x=10:y=10[v_out]"; "-map"; "[v_out]";
     "-map"; "0:a"; "out.mp4"]
  /\ exists post,
      compileComplex noFraction overlayGraph
      = globalArgs noFraction (options overlayGraph)
        ++ inputsArgs noFraction overlayGraph
        ++ ["-filter_complex"; "[0:v][1:v]overlay=x=10:y=10[v_out]"; "-map"; "[v_out]"]
        ++ post.
Proof.
  split; [reflexivity|].
  apply (overlay_compiles_to_single_segment noFraction overlayGraph
           (fileInput "input_0" "base.mp4") (fileInput "input_1" "logo.png")
           (videoOf "input_0" [overlayAt10 "input_1"] None) None None);
    try reflexivity.
  - discriminate.
  - intros audioStream H. injection H as <-. reflexivity.
Defined.

(** C2 fails as stated: the base stream has the overlay as its only filter,
    yet the expression is not the overlay segment alone, because the audio
    stream has a filter of its own. *)
Lemma overlay_graph_with_volume_has_two_segments :
  length (inputs overlayVolumeGraph) = 2%nat
  /\ map vs_filters (videoStreams overlayVolumeGraph) = [[overlayAt10 "input_1"]]
  /\ compileComplex noFraction overlayVolumeGraph
     = ["-y"; "-i"; "base.mp4"; "-i"; "logo.png";
        "-filter_complex";
        "[0:v][1:v]overlay=x=10:y=10[v_out];[0:a]volume=2[a_out]";
        "-map"; "[v_out]"; "-map"; "[a_out]"; "out.mp4"]
  /\ ~ In "[0:v][1:v]overlay=x=10:y=10[v_out]"
          (compileComplex noFraction overlayVolumeGraph).
Proof.
  split; [reflexivity|]. split; [reflexivity|].
  split; [reflexivity | not_among].
Qed.

(** C9 on a stream with one filter and on an overlay, each referring to an
    input that is not in the graph. *)
Lemma dangling_references_compile_to_minus_one :
  compileComplex noFraction (danglingGraph [Fps (Js.ofZ 30) None])
  = ["-y"; "-i"; "a.mp4"; "-i"; "b.mp4";
     "-filter_complex"; "[-1:v]fps=30[v_out]"; "-map"; "[v_out]"; "-an"; "out.mp4"]
  /\ exists expr post,
      compileComplex noFraction danglingOverlayGraph
      = globalArgs noFraction (options danglingOverlayGraph)
        ++ inputsArgs noFraction danglingOverlayGraph
        ++ "-filter_complex" :: expr :: post
      /\ Embeds "[-1:v]" expr.
Proof.
  split; [reflexivity|].
  destruct (missing_input_is_addressed_as_minus_one noFraction danglingOverlayGraph)
    as (_ & _ & _ & Hoverlay).
  apply (Hoverlay (videoOf "input_0" [overlayAt10 "gone"] None)
                  "gone" (ENum (Js.ofZ 10)) (ENum (Js.ofZ 10)) None None).
  - reflexivity.
  - now left.
  - intros input [<- | [<- | []]]; discriminate.
Defined.

(** C9 fails as stated: when the dangling stream has no filter there is no
    filter-graph expression at all, and [-1:v] is what [-map] selects. *)
Lemma dangling_stream_without_filters_has_no_filter_graph :
  find videoEnabled (videoStreams (danglingGraph []))
  = Some (videoOf "gone" [] None)
  /\ getInputIndex (danglingGraph []) "gone" = -1
  /\ compileComplex noFraction (danglingGraph [])
     = ["-y"; "-i"; "a.mp4"; "-i"; "b.mp4"; "-map"; "-1:v"; "-an"; "out.mp4"]
  /\ ~ In "-filter_complex" (compileComplex noFraction (danglingGraph [])).
Proof.
  split; [reflexivity|]. split; [reflexivity|].
  split; [reflexivity | not_among].
Qed.

(** * The further properties at work *)

(** X4 on the overlay graph: the logo is found at a real position. *)
Lemma overlay_graph_addresses_its_logo :
  0 <= getInputIndex overlayGraph "input_1"
  < Z.of_nat (length (inputs overlayGraph)).
Proof.
  apply valid_graph_addresses_existing_inputs.
  - reflexivity.
  - left. exists (videoOf "input_0" [overlayAt10 "input_1"] None).
    split; [now left|]. right.
    exists (ENum (Js.ofZ 10)), (ENum (Js.ofZ 10)), None, None. now left.
Defined.

(** X5 on a graph without streams. *)
Lemma streamless_graph_gets_the_warning :
  validateGraph streamlessGraph
  = {| valid := true; errors := [];
       warnings := ["No video or audio streams configured - output may be empty"] |}.
Proof.
  apply streamless_graph_is_valid_with_warning; try reflexivity.
  - discriminate.
  - intros v crf H. discriminate H.
Defined.

(** X8 on a duration of zero. *)
Lemma zero_duration_is_rejected_for_video_only :
  validateVideoFilter (Trim None None (Some (Js.ofZ 0))) []
  = [newValidationError "Duration must be positive" (Some "trim.duration")]
  /\ validateAudioFilter (ATrim None None (Some (Js.ofZ 0)))
     = validateAudioFilter (ATrim None None None).
Proof.
  destruct (atrim_duration_is_not_checked 0 [] (Z.le_refl 0)) as [Hvideo Haudio].
  split; [exact Hvideo | apply Haudio].
Defined.

(** X12 on a graph with two video filters and one audio filter. *)
Lemma flip_graph_compiles_with_both_flags :
  exists vf af,
    compile noFraction flipGraph
    = globalArgs noFraction (options flipGraph) ++ inputsArgs noFraction flipGraph
      ++ vf ++ af ++ outputArgs noFraction flipGraph true true
    /\ vf = ["-vf"; "hflip,fps=30"]
    /\ af = ["-af"; "volume=2"].
Proof.
  destruct (simple_path_filter_flags_follow_processing noFraction flipGraph eq_refl)
    as (vf & af & Hcompile & _ & Hvideo & _ & Haudio).
  exists vf, af. split; [exact Hcompile|]. split.
  - apply (Hvideo (videoOf "input_0" [Flip Horizontal; Fps (Js.ofZ 30) None] None));
      [reflexivity | now left].
  - apply (Haudio (audioOf "input_0" [Volume (ENum (Js.ofZ 2)) None] None));
      [reflexivity | now left].
Defined.

(** X14 on a CRF of 23. *)
Lemma crf_23_passes_both_checks :
  valid (validateGraph (crfGraph (Js.ofZ 23))) = true
  /\ validateCrf noFraction (Js.ofZ 23) = Normal.
Proof.
  destruct (validateCrf_agrees_with_validateGraph noFraction (crfGraph (Js.ofZ 23))
              (crfConfig (Js.ofZ 23)) (Js.ofZ 23) eq_refl eq_refl) as [Hvalid _].
  split; [reflexivity | apply Hvalid; reflexivity].
Defined.

(** X15 on an overlay followed by a flip: the overlay part writes [[v_0]]
    and the flip part reads it. *)
Lemma overlay_then_flip_is_chained :
  PadLast (stageLabel 0) "[0:v][1:v]overlay=x=10:y=10[v_0]"
  /\ PadFirst (stageLabel 0) "[v_0]hflip[v_out]".
Proof.
  apply (complex_video_parts_are_chained noFraction overlayFlipGraph true 0);
    reflexivity.
Defined.

(** X16 on the overlay graph. *)
Lemma overlay_graph_maps_v_out :
  exists init lastPart,
    fst (videoGraph noFraction overlayGraph (hasVideoOutput overlayGraph))
    = init ++ [lastPart]
    /\ PadLast "v_out" lastPart.
Proof.
  pose proof (complex_video_output_is_mapped noFraction overlayGraph
                (videoOf "input_0" [overlayAt10 "input_1"] None) eq_refl) as H.
  cbv zeta in H. destruct H as [_ H].
  destruct H as (init & lastPart & Hparts & Hlast & _); [discriminate|].
  now exists init, lastPart.
Defined.

(** X19 on [video("base.mp4").overlay("logo.png")]. *)
Lemma overlay_call_routes_to_complex_compiler :
  exists b',
    chainOverlay (OverlayPath "logo.png")
      {| oo_x := None; oo_y := None; oo_alpha := None |}
      (stateOf (video (SourcePath "base.mp4") 0))
    = Returned b'
    /\ requiresComplexFilter (chainGraph (chain b')) = true.
Proof.
  eexists. split; [reflexivity|].
  eapply proj1.
  apply (overlay_routes_to_complex_compiler noFraction (OverlayPath "logo.png")
           {| oo_x := None; oo_y := None; oo_alpha := None |}
           (stateOf (video (SourcePath "base.mp4") 0))).
  reflexivity.
Defined.

(** X23 on two lines cut in the middle of the second. *)
Lemma two_lines_in_two_chunks :
  feedChunk "" (("a" +:+ String LF "b") +:+ ("c" +:+ String LF ""))
  = (["a"; "bc"], "").
Proof.
  rewrite feedChunk_ignores_chunk_boundaries by reflexivity. reflexivity.
Defined.

(** X24 on two progress updates. *)
Lemma carriage_return_between_two_updates :
  feedChunk "" ("frame=1" +:+ String CR "frame=2") = (["frame=1"], "frame=2")
  /\ feedChunk "" ("frame=1" +:+ String CR ("frame=2" +:+ String LF ""))
     = (["frame=1" +:+ String CR "frame=2"], "").
Proof.
  apply (feedChunk_splits_on_carriage_return "" "frame=1" "frame=2");
    try reflexivity.
  discriminate.
Defined.

(** X25 on the graph with both streams disabled. *)
Lemma volume_on_disabled_audio_is_ignored :
  exists graph',
    addAudioFilter disabledGraph (Volume (ENum (Js.ofZ 2)) None) = Returned graph'
    /\ In (Volume (ENum (Js.ofZ 2)) None) (concat (map as_filters (audioStreams graph')))
    /\ compile noFraction graph' = compile noFraction disabledGraph.
Proof.
  apply (audio_filter_on_disabled_stream_is_ignored noFraction disabledGraph
           (Volume (ENum (Js.ofZ 2)) None) (audioOf "input_0" [] (Some true)) []);
    reflexivity.
Defined.

(** X26 on the same graph. *)
Lemma flip_on_disabled_video_is_ignored :
  exists graph',
    addVideoFilter disabledGraph (Flip Horizontal) = Returned graph'
    /\ In (Flip Horizontal) (concat (map vs_filters (videoStreams graph')))
    /\ compile noFraction graph' = compile noFraction disabledGraph.
Proof.
  apply (video_filter_on_disabled_stream_is_ignored noFraction disabledGraph
           (Flip Horizontal) (videoOf "input_0" [] (Some true)) []);
    reflexivity.
Defined.

(** X29 on the overlay part of the overlay graph, and on the same part with
    an opening bracket in the offset. *)
Lemma overlay_part_is_relabelled_or_cut :
  replaceTrailingLabel
    (segment (overlayPads "0:v" "1:v") "overlay=x=10:y=10" (stageLabel 0))
  = segment (overlayPads "0:v" "1:v") "overlay=x=10:y=10" "v_out"
  /\ replaceTrailingLabel
       (segment (overlayPads "0:v" "1:v") ("overlay=x=10:y=10" +:+ "[" +:+ "0")
          (stageLabel 0))
     = segment (overlayPads "0:v" "1:v") "overlay=x=10:y=10" "v_out".
Proof.
  apply relabelling_cuts_at_an_unclosed_bracket; reflexivity.
Defined.

(** X30 on [video("base.mp4").overlay("logo.png", {x: 10, y: 10})
    .save("out.mp4")]. *)
Lemma overlay_chain_compiles_to_the_documented_arguments :
  toArgs noFraction
    (savedTo (DestPath "out.mp4")
       (stateOf
          (andThen (video (SourcePath "base.mp4") 0)
             (chainOverlay (OverlayPath "logo.png")
                {| oo_x := Some (ENum (Js.ofZ 10)); oo_y := Some (ENum (Js.ofZ 10));
                   oo_alpha := None |}))))
  = inr ["-y"; "-i"; "base.mp4"; "-i"; "logo.png";
         "-filter_complex"; "[0:v][1:v]overlay=x=10:y=10[v_out]";
         "-map"; "[v_out]"; "-map"; "0:a"; "out.mp4"].
Proof.
  apply (overlay_chain_compiles_to_one_part noFraction "base.mp4" "logo.png" "out.mp4"
           10 10 0);
    reflexivity.
Defined.
